(** * Rolling fill-level aggregation of the bottle tracker (src/src/app.js)

    A shallow embedding of the aggregation code of [app.js]:
    [calculateFilteredAverage], the loop of the [onData] callback over the
    score items of a message (lines 538-617), and the row that
    [updateBottleTable] computes for a bottle (lines 450-497).  The text of
    the table and of the console log is not modelled, only the values shown
    and the exceptions raised on the way.

    Also embedded, for the further properties at the end of the file: the
    option lists of [populateResolutions] and [populateFrameRates], the
    name lists of [getConfig], the parameters of
    [connectWebcamToRoboflowWebRTC], and, of the proxy server
    (src/unnamed/part_000), the redaction of logged headers and the handler
    of [POST /api/init-webrtc] up to its call of the Roboflow client.

    Numbers.  The aggregation code is embedded twice.  In the first
    embedding a JavaScript Number is a [jsnum]: either [NaN] or a real
    number, and arithmetic on the samples is exact arithmetic over [R]
    ([Math.sqrt] is [sqrt], [Math.abs] is [Rabs]); rounding and the
    infinities are outside of it, and what is proved of it is stated as a
    property of exact arithmetic.  In the second embedding, [Module IEEE],
    a Number is a binary64 [float] and every operation rounds as the
    machine does; what depends on rounding, on [Infinity] or on a [null]
    fill level is stated and proved there. *)

From Stdlib Require Import Reals Lra Lia List.
From Stdlib Require Import ZArith NArith QArith Qround.
From Stdlib Require Floats.
From stdpp Require Import base option list gmap strings sorting.
Import ListNotations.

Open Scope R_scope.

(** ** JavaScript values *)

Inductive jsnum : Type :=
| Num (x : R)
| NaN.

(** The value of the field [fill_level_percent], as far as line 559 tells
    values apart: a Number is taken as it is, anything else goes through
    [Number(...)].  A string is given with the Number it converts to. *)
Inductive rawPercent : Type :=
| RawNumber (x : jsnum)
| RawString (numeric : jsnum)
| RawNull
| RawUndefined.

(** [typeof raw === 'number' ? raw : Number(raw)]: [Number(null)] is [0],
    [Number(undefined)] is [NaN]. *)
Definition toCurrentPercent (raw : rawPercent) : jsnum :=
  match raw with
  | RawNumber x => x
  | RawString numeric => numeric
  | RawNull => Num 0
  | RawUndefined => NaN
  end.

(** [const HISTORY_SIZE = 10] and [const BOTTLE_CAPACITY_LITERS = 1.0]. *)
Definition HISTORY_SIZE : nat := 10.
Definition BOTTLE_CAPACITY_LITERS : R := 1.

(** ** calculateFilteredAverage *)

Record FilteredResult : Type := mkFilteredResult {
  average : option R;
  filteredHistory : list R;
  removedCount : nat
}.

(** The comparisons of the source decide an order on [R]. *)
#[global] Instance Rle_decision (a b : R) : Decision (a <= b) := Rle_dec a b.
#[global] Instance Rgt_decision (a b : R) : Decision (a > b) := Rgt_dec a b.

Definition calculateFilteredAverage (history : list R) : FilteredResult :=
  let n := length history in
  if Nat.eqb n 0 then
    mkFilteredResult None [] 0
  else if Nat.ltb n 10 then
    let average := fold_left (fun a b => a + b) history 0 / INR n in
    mkFilteredResult (Some average) history 0
  else
    let mean := fold_left (fun s v => s + v) history 0 / INR n in
    let stdDev :=
      sqrt (fold_left (fun s v => s + (v - mean) ^ 2) history 0 / INR n) in
    let threshold := 2 * stdDev in
    let filteredHistory :=
      filter (fun v => Rabs (v - mean) <= threshold) history in
    let removedCount := (n - length filteredHistory)%nat in
    let average :=
      if Nat.eqb (length filteredHistory) 0 then None
      else Some (fold_left (fun s v => s + v) filteredHistory 0
                 / INR (length filteredHistory)) in
    mkFilteredResult average filteredHistory removedCount.

(** ** The state of one bottle and the registry [bottlesByColor] *)

Record Bottle : Type := mkBottle {
  percentHistory : list jsnum;
  initialPercent : option R;
  maxAvgPercent : option R;
  capacity : R
}.

(** [percentHistory.filter(v => typeof v === 'number' && !isNaN(v))]: the
    numbers of the history, in order. *)
Definition validNumbers (history : list jsnum) : list R :=
  omap (fun v => match v with Num x => Some x | NaN => None end) history.

(** The value of [Math.max(...args)]: [-Infinity] for no argument, [NaN] as
    soon as one argument is [NaN], the largest argument otherwise. *)
Inductive jsmax : Type :=
| MinusInfinity
| Finite (x : R)
| NotANumber.

Fixpoint Math_max (args : list jsnum) : jsmax :=
  match args with
  | [] => MinusInfinity
  | NaN :: _ => NotANumber
  | Num x :: rest =>
      match Math_max rest with
      | MinusInfinity => Finite x
      | Finite y => Finite (Rmax x y)
      | NotANumber => NotANumber
      end
  end.

(** The number a relational operator sees for a field that holds a number
    or [null]: [null] converts to [0]. *)
Definition nullToNumber (v : option R) : R :=
  match v with
  | Some x => x
  | None => 0
  end.

(** [bottlesByColor.set(color, {...})] for a colour seen for the first
    time. *)
Definition newBottle (currentPercent : jsnum) : Bottle :=
  match currentPercent with
  | Num x => mkBottle [Num x] (Some x) None BOTTLE_CAPACITY_LITERS
  | NaN => mkBottle [] None None BOTTLE_CAPACITY_LITERS
  end.

(** [if (cur === null || avgPercent > cur) bottle.maxAvgPercent = avgPercent]. *)
Definition ratchet (cur : option R) (avgPercent : R) : option R :=
  match cur with
  | None => Some avgPercent
  | Some c => if decide (avgPercent > c) then Some avgPercent else Some c
  end.

(** The branch [if (isValidPercent)] of an existing bottle. *)
Definition ingestValid (bottle : Bottle) (currentPercent : R) : Bottle :=
  let pushed := percentHistory bottle ++ [Num currentPercent] in
  let history :=
    if Nat.ltb HISTORY_SIZE (length pushed) then tail pushed else pushed in
  let validHistory := validNumbers history in
  let maxAvg :=
    if Nat.leb HISTORY_SIZE (length validHistory) then
      match average (calculateFilteredAverage validHistory) with
      | Some avgPercent => ratchet (maxAvgPercent bottle) avgPercent
      | None => maxAvgPercent bottle
      end
    else maxAvgPercent bottle in
  let initial :=
    match Math_max history with
    | Finite maxPercent =>
        if decide (maxPercent > nullToNumber (initialPercent bottle))
        then Some maxPercent
        else initialPercent bottle
    | MinusInfinity | NotANumber => initialPercent bottle
    end in
  mkBottle history initial maxAvg (capacity bottle).

(** The [else] branch: the reading is not a number. *)
Definition ingestInvalid (bottle : Bottle) : Bottle :=
  let history :=
    if Nat.ltb 0 (length (percentHistory bottle))
    then tail (percentHistory bottle)
    else percentHistory bottle in
  let validHistory := validNumbers history in
  let maxAvg :=
    if Nat.leb HISTORY_SIZE (length validHistory) then
      let avgPercent :=
        fold_left (fun a b => a + b) validHistory 0
        / INR (length validHistory) in
      ratchet (maxAvgPercent bottle) avgPercent
    else if Nat.ltb (length validHistory) HISTORY_SIZE then None
    else maxAvgPercent bottle in
  mkBottle history (initialPercent bottle) maxAvg (capacity bottle).

(** [isValidPercent = currentPercent != null && !isNaN(currentPercent)];
    [currentPercent] is a Number, so only [NaN] is refused. *)
Definition updateBottle (bottle : Bottle) (currentPercent : jsnum) : Bottle :=
  match currentPercent with
  | Num x => ingestValid bottle x
  | NaN => ingestInvalid bottle
  end.

(** The body of [if (color != null)]: one reading folded into the registry. *)
Definition ingest (bottlesByColor : gmap string Bottle) (color : string)
    (currentPercent : jsnum) : gmap string Bottle :=
  match bottlesByColor !! color with
  | None => <[color := newBottle currentPercent]> bottlesByColor
  | Some bottle => <[color := updateBottle bottle currentPercent]> bottlesByColor
  end.

(** Registries the callback can build, from the empty map of a fresh (or
    stopped) session. *)
Inductive reachable : gmap string Bottle -> Prop :=
| reachable_empty : reachable ∅
| reachable_ingest (m : gmap string Bottle) (color : string) (p : jsnum) :
    reachable m -> reachable (ingest m color p).

(** ** Score items and what raises *)

(** The fields the callback reads from a bottle record: [bottle_color]
    ([None] when it is [null] or missing) and [fill_level_percent]. *)
Record bottleFields : Type := mkFields {
  bottle_color : option string;
  fill_level_percent : rawPercent
}.

(** A JSON value as far as the callback tells values apart. *)
Inductive jsdata : Type :=
| DNull
| DPrimitive
| DObject (fields : bottleFields).

(** An element of [scores].  For a string, [parsed] is what [JSON.parse]
    returns on it, [None] when [JSON.parse] throws. *)
Inductive scoreItem : Type :=
| ItemString (parsed : option jsdata)
| ItemObject (fields : bottleFields)
| ItemOther.

(** The outcome of a run: the registry it leaves, and whether an exception
    left the callback. *)
Inductive outcome : Type :=
| Done (m : gmap string Bottle)
| Thrown (m : gmap string Bottle).

(** From [const color = bottleData.bottle_color] to the end of the loop
    body.  Reading a property of [null] raises a TypeError; on a number, a
    string or a boolean it yields [undefined]. *)
Definition useBottleData (m : gmap string Bottle) (bottleData : jsdata)
    : outcome :=
  match bottleData with
  | DNull => Thrown m
  | DPrimitive => Done m
  | DObject fields =>
      match bottle_color fields with
      | Some color =>
          let currentPercent := toCurrentPercent (fill_level_percent fields) in
          Done (ingest m color currentPercent)
      | None => Done m
      end
  end.

(** One iteration of [for (let i = 0; i < scores.length; i++)]. *)
Definition processItem (m : gmap string Bottle) (scoreItem : scoreItem)
    : outcome :=
  match scoreItem with
  | ItemString None => Done m
  | ItemString (Some bottleData) => useBottleData m bottleData
  | ItemObject fields => useBottleData m (DObject fields)
  | ItemOther => Done m
  end.

Fixpoint processItems (m : gmap string Bottle) (scores : list scoreItem)
    : outcome :=
  match scores with
  | [] => Done m
  | scoreItem :: rest =>
      match processItem m scoreItem with
      | Done m' => processItems m' rest
      | Thrown m' => Thrown m'
      end
  end.

(** ** The table row of one bottle *)

(** The three value cells of a row; [None] is the cell [unknown]. *)
Record Row : Type := mkRow {
  currentAverage : option R;
  consumedPercent : option R;
  consumedLiters : option R
}.

(** The callback of [sortedBottles.map]; [None] when it raises, which
    [avgCurrentPercent.toFixed(1)] does on [null]. *)
Definition bottleRow (bottle : Bottle) : option Row :=
  let history := validNumbers (percentHistory bottle) in
  let hasValidData := Nat.ltb 0 (length history) in
  let filteredResult :=
    if hasValidData then calculateFilteredAverage history
    else mkFilteredResult None [] 0 in
  if hasValidData then
    match average filteredResult with
    | None => None
    | Some avgCurrentPercent =>
        match maxAvgPercent bottle with
        | Some maxAvg =>
            let consumedPercent := Rmax 0 (maxAvg - avgCurrentPercent) in
            let consumedLiters := consumedPercent / 100 * capacity bottle in
            Some (mkRow (Some avgCurrentPercent) (Some consumedPercent)
                    (Some consumedLiters))
        | None => Some (mkRow (Some avgCurrentPercent) None None)
        end
    end
  else Some (mkRow None None None).

(** [updateBottleTable]: a row per bottle ([None] when a row raises).  The
    sort by colour only orders the rows. *)
Definition updateBottleTable (m : gmap string Bottle)
    : option (list (string * Row)) :=
  mapM (fun entry => row ← bottleRow entry.2; Some (entry.1, row))
       (map_to_list m).

(** The [onData] callback on the [scores] of one message: every item, then
    the table. *)
Definition onData (m : gmap string Bottle) (scores : list scoreItem)
    : outcome :=
  match processItems m scores with
  | Done m' =>
      match updateBottleTable m' with
      | Some _ => Done m'
      | None => Thrown m'
      end
  | Thrown m' => Thrown m'
  end.

(** The items on which the loop body raises. *)
Definition parsesToNull (item : scoreItem) : Prop :=
  item = ItemString (Some DNull).

(** ** Runs *)

(** The readings of one colour, one [ingest] each, in order of arrival. *)
Definition ingestAll (m : gmap string Bottle) (color : string)
    (readings : list jsnum) : gmap string Bottle :=
  fold_left (fun m' p => ingest m' color p) readings m.

(** The readings of scenario A. *)
Definition scenarioA : list R := [10; 20; 30; 40; 50; 60; 70; 80; 90; 100].

(** ** The words of the specification, for comparison with the code *)

Module SpecWords.

Definition sum (l : list R) : R := fold_right Rplus 0 l.

(** The unweighted arithmetic mean. *)
Definition mean (l : list R) : R := sum l / INR (length l).

(** The population standard deviation. *)
Definition sigma (l : list R) : R :=
  sqrt (sum (map (fun v => (v - mean l) ^ 2) l) / INR (length l)).

(** A sample is retained when [|v - mu| <= 2 * sigma]. *)
Definition within (l : list R) (v : R) : Prop :=
  Rabs (v - mean l) <= 2 * sigma l.

Definition retained (l : list R) : list R := filter (within l) l.
Definition discarded (l : list R) : list R :=
  filter (fun v => ~ within l v) l.

(** The three cases of the contract, by the number [n] of samples. *)
Definition filteredAverage (l : list R) : FilteredResult :=
  if decide (length l = 0%nat) then mkFilteredResult None [] 0
  else if decide (length l < 10)%nat then mkFilteredResult (Some (mean l)) l 0
  else mkFilteredResult (Some (mean (retained l))) (retained l)
                        (length (discarded l)).

End SpecWords.

(** * Quantities used to state further properties *)

(** The variance under the square root of [SpecWords.sigma]. *)
Definition variance (l : list R) : R :=
  SpecWords.sum (map (fun v => (v - SpecWords.mean l) ^ 2) l) / INR (length l).

(** A history that holds numbers only: the filter on [typeof] and [isNaN]
    keeps all of it. *)
Definition allNumbers (history : list jsnum) : Prop :=
  map Num (validNumbers history) = history.

(** What the bottles of a reachable registry have in common. *)
Record bottleInvariant (b : Bottle) : Prop := mkBottleInvariant {
  inv_numbers : allNumbers (percentHistory b);
  inv_bound : (length (percentHistory b) <= HISTORY_SIZE)%nat;
  inv_mark_full :
    is_Some (maxAvgPercent b) <-> length (percentHistory b) = HISTORY_SIZE;
  inv_mark_above :
    forall hw, maxAvgPercent b = Some hw ->
      exists cur,
        average (calculateFilteredAverage (validNumbers (percentHistory b)))
        = Some cur /\ cur <= hw;
  inv_initial :
    forall level, initialPercent b = Some level ->
      Forall (fun x => x <= level) (validNumbers (percentHistory b));
  inv_capacity : capacity b = BOTTLE_CAPACITY_LITERS
}.

(** The registry a run leaves, raised or not. *)
Definition registryOf (o : outcome) : gmap string Bottle :=
  match o with
  | Done m => m
  | Thrown m => m
  end.

(** The colour a score item names, if it names one. *)
Definition itemColor (item : scoreItem) : option string :=
  match item with
  | ItemString (Some (DObject fields)) => bottle_color fields
  | ItemObject fields => bottle_color fields
  | ItemString (Some DNull) | ItemString (Some DPrimitive)
  | ItemString None | ItemOther => None
  end.

(** * Camera options (lines 203-297 of [app.js]) *)

(** Widths and heights are the unsigned integers of a [ULongRange], frame
    rates the finite numbers of a [DoubleRange], given as rationals: the
    code only compares, floors and rounds them, which is exact.  A field
    that is [undefined] is [None]. *)

Record ULongRange : Type := mkULongRange {
  ulong_min : option N;
  ulong_max : option N
}.

Record DoubleRange : Type := mkDoubleRange {
  double_min : option Q;
  double_max : option Q
}.

Record Capabilities : Type := mkCapabilities {
  cap_width : option ULongRange;
  cap_height : option ULongRange;
  cap_frameRate : option DoubleRange
}.

Record Settings : Type := mkSettings {
  set_width : option N;
  set_height : option N;
  set_frameRate : option Q
}.

(** [value || fallback] on an integer that may be [undefined]: [undefined]
    and [0] are falsy. *)
Definition orN (value : option N) (fallback : N) : N :=
  match value with
  | Some n => if N.eqb n 0 then fallback else n
  | None => fallback
  end.

(** [value || fallback] on a number that may be [undefined]. *)
Definition orQ (value : option Q) (fallback : Q) : Q :=
  match value with
  | Some q => if Qeq_bool q 0 then fallback else q
  | None => fallback
  end.

(** The label of an option: a fixed text, or [Max (W×H)] made from two
    numbers. *)
Inductive Label : Type :=
| LabelText (text : string)
| LabelMax (w h : N).

Record Resolution : Type := mkResolution {
  res_w : N;
  res_h : N;
  res_label : Label
}.

Definition commonResolutions : list Resolution :=
  [ mkResolution 3840 2160 (LabelText "4K (3840×2160)");
    mkResolution 2560 1440 (LabelText "QHD (2560×1440)");
    mkResolution 1920 1080 (LabelText "1080p (1920×1080)");
    mkResolution 1280 720 (LabelText "720p (1280×720)");
    mkResolution 854 480 (LabelText "480p (854×480)");
    mkResolution 640 480 (LabelText "VGA (640×480)");
    mkResolution 640 360 (LabelText "360p (640×360)");
    mkResolution 320 240 (LabelText "QVGA (320×240)") ].

(** The width and the height of a resolution, the two numbers of the value
    [WxH] of its option. *)
Definition sizeOf (r : Resolution) : N * N := (res_w r, res_h r).

(** [availableResolutions.some(r => r.w === w && r.h === h)]. *)
Definition hasResolution (w h : N) (l : list Resolution) : bool :=
  existsb (fun r => N.eqb (res_w r) w && N.eqb (res_h r) h) l.

Definition maxWidth (capabilities : Capabilities) : N :=
  orN (cap_width capabilities ≫= ulong_max) 1920.
Definition maxHeight (capabilities : Capabilities) : N :=
  orN (cap_height capabilities ≫= ulong_max) 1080.
Definition minWidth (capabilities : Capabilities) : N :=
  orN (cap_width capabilities ≫= ulong_min) 320.
Definition minHeight (capabilities : Capabilities) : N :=
  orN (cap_height capabilities ≫= ulong_min) 240.

(** The list of [populateResolutions] after the filter and the [unshift]
    of the maximum, before the test on an empty list. *)
Definition resolutionsInRange (capabilities : Capabilities) : list Resolution :=
  let maxW := maxWidth capabilities in
  let maxH := maxHeight capabilities in
  let minW := minWidth capabilities in
  let minH := minHeight capabilities in
  let availableResolutions :=
    filter (fun res =>
              (minW <= res_w res)%N /\ (res_w res <= maxW)%N /\
              (minH <= res_h res)%N /\ (res_h res <= maxH)%N)
           commonResolutions in
  let maxIsStandard := hasResolution maxW maxH availableResolutions in
  if negb maxIsStandard && negb (N.eqb maxW 0) && negb (N.eqb maxH 0)
  then mkResolution maxW maxH (LabelMax maxW maxH) :: availableResolutions
  else availableResolutions.

(** The options [populateResolutions] appends to the select. *)
Definition resolutionOptions (capabilities : Capabilities) : list Resolution :=
  let availableResolutions := resolutionsInRange capabilities in
  if Nat.eqb (length availableResolutions) 0
  then availableResolutions ++ [mkResolution 640 480 (LabelText "VGA (640×480)")]
  else availableResolutions.

(** The value the code assigns to the select, as width and height: the
    texts [WxH] of two pairs of integers are equal exactly when the pairs
    are, and the text made from an [undefined] setting equals none.
    [None]: the code assigns nothing. *)
Definition selectedResolution (capabilities : Capabilities)
    (currentSettings : Settings) : option (N * N) :=
  let availableResolutions := resolutionOptions capabilities in
  let hasCurrentRes :=
    match set_width currentSettings, set_height currentSettings with
    | Some w, Some h => hasResolution w h availableResolutions
    | _, _ => false
    end in
  if hasCurrentRes then
    match set_width currentSettings, set_height currentSettings with
    | Some w, Some h => Some (w, h)
    | _, _ => None
    end
  else if hasResolution 1280 720 availableResolutions then Some (1280%N, 720%N)
  else None.

(** The comparisons on frame rates. *)
#[global] Instance Qle_decision (a b : Q) : Decision (a <= b)%Q.
Proof.
  destruct (Qlt_le_dec b a) as [Hlt|Hle].
  - right. apply Qlt_not_le. exact Hlt.
  - left. exact Hle.
Defined.

#[global] Instance Qlt_decision (a b : Q) : Decision (a < b)%Q.
Proof.
  destruct (Qlt_le_dec a b) as [Hlt|Hle].
  - left. exact Hlt.
  - right. apply Qle_not_lt. exact Hle.
Defined.

Definition commonFps : list Z := [60; 30; 24; 15; 10]%Z.

Definition maxFrameRate (capabilities : Capabilities) : Q :=
  orQ (cap_frameRate capabilities ≫= double_max) 30.
Definition minFrameRate (capabilities : Capabilities) : Q :=
  orQ (cap_frameRate capabilities ≫= double_min) 1.

(** [availableFps.sort((a, b) => b - a)]: the largest first. *)
Definition sortDescending (l : list Z) : list Z :=
  merge_sort (flip Z.le) l.

(** The list of [populateFrameRates] after the filter and the [unshift]
    of the floored maximum, before the sort. *)
Definition ratesBeforeSort (capabilities : Capabilities) : list Z :=
  let maxFps := maxFrameRate capabilities in
  let minFps := minFrameRate capabilities in
  let availableFps :=
    filter (fun fps => (minFps <= inject_Z fps)%Q /\ (inject_Z fps <= maxFps)%Q)
           commonFps in
  if negb (bool_decide (Qfloor maxFps ∈ availableFps))
     && bool_decide (0 < maxFps)%Q
  then Qfloor maxFps :: availableFps
  else availableFps.

(** The options [populateFrameRates] appends to the select. *)
Definition frameRateOptions (capabilities : Capabilities) : list Z :=
  let sorted := sortDescending (ratesBeforeSort capabilities) in
  if Nat.eqb (length sorted) 0 then sorted ++ [30%Z] else sorted.

(** [Math.round]: the nearest integer, a half going up. *)
Definition Math_round (q : Q) : Z := Qfloor (q + (1 # 2))%Q.

(** The value the code assigns to the frame-rate select; [None]: none. *)
Definition selectedFrameRate (capabilities : Capabilities)
    (currentSettings : Settings) : option Z :=
  let availableFps := frameRateOptions capabilities in
  match set_frameRate currentSettings with
  | Some rate =>
      let currentFps := Math_round rate in
      if bool_decide (currentFps ∈ availableFps) then Some currentFps
      else if bool_decide (30%Z ∈ availableFps) then Some 30%Z
      else None
  | None =>
      if bool_decide (30%Z ∈ availableFps) then Some 30%Z else None
  end.

(** * The proxy server (src/unnamed/part_000) *)

(** ** The headers written to the log by the wrapper of [fetch] *)

Definition REDACTED : string := "Bearer ***REDACTED***".

(** Truthiness of a string that may be missing (a header value, a variable
    of the environment): [undefined] and the empty string are falsy. *)
Definition truthyString (value : option string) : bool :=
  match value with
  | Some s => negb (String.eqb s "")
  | None => false
  end.

(** Lines 55-57: the copy [{ ...headersObj }] with both spellings of the
    authorization header overwritten when they are truthy. *)
Definition redactHeaders (headersObj : gmap string string)
    : gmap string string :=
  let redacted := headersObj in
  let redacted :=
    if truthyString (redacted !! "Authorization"%string)
    then <["Authorization"%string := REDACTED]> redacted
    else redacted in
  let redacted :=
    if truthyString (redacted !! "authorization"%string)
    then <["authorization"%string := REDACTED]> redacted
    else redacted in
  redacted.

(** [opts.headers], a [HeadersInit]: a [Headers] instance, which line 52
    turns into the object of its entries; a record from names to values;
    or a sequence of [[name, value]] pairs. *)
Inductive HeadersInit : Type :=
| HeadersInstance (entries : gmap string string)
| HeadersRecord (fields : gmap string string)
| HeadersPairs (pairs : list (string * string)).

(** The object given to [console.log] on line 58.  The spread of a sequence
    of pairs is the object [{ 0: pair, 1: pair, ... }]: its keys are the
    positions, and its values the pairs, name and value, as they were. *)
Inductive LoggedHeaders : Type :=
| LoggedFields (redacted : gmap string string)
| LoggedPairs (pairs : list (string * string)).

(** Lines 50-59; nothing is logged when [opts.headers] is missing.  On the
    object made of a sequence of pairs both tests read [undefined]. *)
Definition loggedHeaders (headers : option HeadersInit)
    : option LoggedHeaders :=
  match headers with
  | None => None
  | Some (HeadersInstance entries) => Some (LoggedFields (redactHeaders entries))
  | Some (HeadersRecord fields) => Some (LoggedFields (redactHeaders fields))
  | Some (HeadersPairs pairs) => Some (LoggedPairs pairs)
  end.

(** ** The handler of [POST /api/init-webrtc] *)

(** A value of the parsed JSON body. *)
#[local] Unset Elimination Schemes.
Inductive json : Type :=
| JNull
| JBool (b : bool)
| JNumber (q : Q)
| JString (s : string)
| JArray (items : list json)
| JObject (fields : list (string * json)).
#[local] Set Elimination Schemes.

(** The value of a key in the members of an object; of a repeated key the
    last member counts. *)
Fixpoint fieldOf (key : string) (fields : list (string * json)) : option json :=
  match fields with
  | [] => None
  | (k, v) :: rest =>
      match fieldOf key rest with
      | Some later => Some later
      | None => if String.eqb k key then Some v else None
      end
  end.

(** [v.key] on a value that is not [null] or [undefined], and [v?.key] on
    any value; [None] is [undefined].  Only objects have the keys read
    here. *)
Definition prop (v : option json) (key : string) : option json :=
  match v with
  | Some (JObject fields) => fieldOf key fields
  | _ => None
  end.

Definition truthy (v : option json) : bool :=
  match v with
  | None | Some JNull => false
  | Some (JBool b) => b
  | Some (JNumber q) => negb (Qeq_bool q 0)
  | Some (JString s) => negb (String.eqb s "")
  | Some (JArray _) | Some (JObject _) => true
  end.

(** [a && b]. *)
Definition andValue (a b : option json) : option json :=
  if truthy a then b else a.

(** [if (value) target.key = value]: the entry, or none. *)
Definition entryIf (value : option json) : option json :=
  if truthy value then value else None.

Record WorkerConfig : Type := mkWorkerConfig {
  cfg_imageInputName : option json;
  cfg_streamOutputNames : option json;
  cfg_dataOutputNames : option json;
  cfg_workflowParameters : option json;
  cfg_threadPoolWorkers : option json;
  cfg_processingTimeout : option json;
  cfg_iceServers : option json
}.

(** [Object.keys(config).length > 0]. *)
Definition configHasKeys (config : WorkerConfig) : bool :=
  bool_decide (is_Some (cfg_imageInputName config))
  || bool_decide (is_Some (cfg_streamOutputNames config))
  || bool_decide (is_Some (cfg_dataOutputNames config))
  || bool_decide (is_Some (cfg_workflowParameters config))
  || bool_decide (is_Some (cfg_threadPoolWorkers config))
  || bool_decide (is_Some (cfg_processingTimeout config))
  || bool_decide (is_Some (cfg_iceServers config)).

(** The object given to [client.initializeWebrtcWorker]; an entry that is
    [None] is not a key of the object. *)
Record RequestParams : Type := mkRequestParams {
  rp_offer : option json;
  rp_workflowSpec : option json;
  rp_workspaceName : option json;
  rp_workflowId : option json;
  rp_requestedPlan : option json;
  rp_requestedRegion : option json;
  rp_config : option WorkerConfig
}.

(** What the handler does up to the call of the Roboflow client: it
    answers with a status and an error text, it answers 500 from the
    [catch] with the message of an exception, or it calls the client. *)
Inductive handled : Type :=
| RespondError (status : nat) (error : string)
| RespondCaught
| CallClient (requestParams : RequestParams).

Definition initWebrtc (body : option json) (apiKey : option string)
    : handled :=
  match body with
  | None | Some JNull => RespondCaught
  | Some _ =>
      let offer := prop body "offer" in
      let wrtcParams := prop body "wrtcParams" in
      if negb (truthy offer) || negb (truthy (prop offer "sdp"))
         || negb (truthy (prop offer "type"))
      then RespondError 400 "Missing required field: offer with sdp and type"
      else
        let hasWorkflowSpec := prop wrtcParams "workflowSpec" in
        let hasWorkflowIdentifier :=
          andValue (prop wrtcParams "workspaceName")
                   (prop wrtcParams "workflowId") in
        if negb (truthy wrtcParams)
           || (negb (truthy hasWorkflowSpec)
               && negb (truthy hasWorkflowIdentifier))
        then RespondError 400
               "Missing required field: wrtcParams must contain either workflowSpec OR (workspaceName + workflowId)"
        else if negb (truthyString apiKey)
        then RespondError 500
               "Server configuration error: API key not configured"
        else
          let config :=
            mkWorkerConfig
              (entryIf (prop wrtcParams "imageInputName"))
              (entryIf (prop wrtcParams "streamOutputNames"))
              (entryIf (prop wrtcParams "dataOutputNames"))
              (entryIf (prop wrtcParams "workflowParameters"))
              (entryIf (prop wrtcParams "threadPoolWorkers"))
              (entryIf (prop wrtcParams "processingTimeout"))
              (entryIf (prop wrtcParams "iceServers")) in
          CallClient
            (mkRequestParams
               offer
               (if truthy hasWorkflowSpec
                then prop wrtcParams "workflowSpec" else None)
               (if truthy hasWorkflowSpec
                then None else prop wrtcParams "workspaceName")
               (if truthy hasWorkflowSpec
                then None else prop wrtcParams "workflowId")
               (entryIf (prop wrtcParams "requestedPlan"))
               (entryIf (prop wrtcParams "requestedRegion"))
               (if configHasKeys config then Some config else None))
  end.

(** An entry of an object that is either not a key or truthy. *)
Definition absentOrTruthy (entry : option json) : Prop :=
  entry = None \/ truthy entry = true.

(** The validations of the handler, in its order. *)
Definition offerValid (body : option json) : bool :=
  truthy (prop body "offer")
  && truthy (prop (prop body "offer") "sdp")
  && truthy (prop (prop body "offer") "type").

Definition workflowValid (body : option json) : bool :=
  let wrtcParams := prop body "wrtcParams" in
  truthy wrtcParams
  && (truthy (prop wrtcParams "workflowSpec")
      || (truthy (prop wrtcParams "workspaceName")
          && truthy (prop wrtcParams "workflowId"))).

(** * The lists of names of the workflow configuration (lines 76-93) *)

(** A string is the list of its code units.  The definitions hold for any
    type of code units, with the comma and the set of characters that
    [trim] removes (white space and line terminators) as parameters. *)
Section NameLists.

Context {C : Type} `{EqDecision C}.
Variable comma : C.
Variable isWhiteSpace : C -> bool.

(** [String.prototype.trimStart], [trimEnd] and [trim]. *)
Fixpoint trimStart (s : list C) : list C :=
  match s with
  | [] => []
  | c :: rest => if isWhiteSpace c then trimStart rest else s
  end.

Fixpoint trimEnd (s : list C) : list C :=
  match s with
  | [] => []
  | c :: rest =>
      match trimEnd rest with
      | [] => if isWhiteSpace c then [] else [c]
      | kept => c :: kept
      end
  end.

Definition trim (s : list C) : list C := trimEnd (trimStart s).

(** [s.split(",")]: the pieces between the commas; the empty string has
    the one piece that is empty. *)
Fixpoint split (s : list C) : list (list C) :=
  match s with
  | [] => [[]]
  | c :: rest =>
      if decide (c = comma) then [] :: split rest
      else match split rest with
           | piece :: pieces => (c :: piece) :: pieces
           | [] => [[c]]
           end
  end.

(** [names.join(",")]. *)
Fixpoint join (names : list (list C)) : list C :=
  match names with
  | [] => []
  | [name] => name
  | name :: rest => name ++ comma :: join rest
  end.

(** [(input?.value?.trim() || fallback).split(",").map(s => s.trim())
    .filter(Boolean)]; [value] is [None] when the input element or its
    value is missing. *)
Definition namesOf (value : option (list C)) (fallback : list C)
    : list (list C) :=
  let text :=
    match value with
    | Some v => match trim v with [] => fallback | trimmed => trimmed end
    | None => fallback
    end in
  filter (fun s => s <> []) (map trim (split text)).

(** A name as the lists hold them. *)
Definition wellFormedName (name : list C) : Prop :=
  name <> [] /\ (comma ∉ name) /\ trim name = name.

End NameLists.

(** An instance: the characters of the ASCII range, with the white space
    of that range that [trim] removes, and the comma. *)
Definition isAsciiWhiteSpace (c : Ascii.ascii) : bool :=
  match Ascii.nat_of_ascii c with
  | 9%nat | 10%nat | 11%nat | 12%nat | 13%nat | 32%nat => true
  | _ => false
  end.

Definition asciiComma : Ascii.ascii := Ascii.ascii_of_nat 44.

(** * The parameters the page sends (lines 366-378 of [app.js]) *)

(** [const WORKFLOW_SPEC = {}]. *)
Definition WORKFLOW_SPEC : json := JObject [].

Definition jsonStrings (l : list string) : json := JArray (map JString l).

(** [wrtcParams]: the base parameters, then the specification or the
    identifier of the workflow, by the mode of the configuration. *)
Definition wrtcParamsOf (mode imageInputName : string)
    (streamOutputNames dataOutputNames : list string)
    (requestedRegion requestedPlan : string) (processingTimeout : Q) : json :=
  let baseParams :=
    [ ("imageInputName"%string, JString imageInputName);
      ("streamOutputNames"%string, jsonStrings streamOutputNames);
      ("dataOutputNames"%string, jsonStrings dataOutputNames);
      ("requestedRegion"%string, JString requestedRegion);
      ("requestedPlan"%string, JString requestedPlan);
      ("processingTimeout"%string, JNumber processingTimeout) ] in
  if String.eqb mode "local_defined"
  then JObject (baseParams ++ [("workflowSpec"%string, WORKFLOW_SPEC)])
  else JObject (baseParams
                ++ [("workspaceName"%string, JString "workspace-hh1bb");
                    ("workflowId"%string, JString "water-project2")]).

(** The body of the request to [/api/init-webrtc]: the offer and the
    parameters, as the comment of the handler describes it. *)
Definition initRequest (offer wrtcParams : json) : json :=
  JObject [("offer"%string, offer); ("wrtcParams"%string, wrtcParams)].

(** The last [HISTORY_SIZE] entries of a list. *)
Definition lastWindow {A : Type} (l : list A) : list A :=
  drop (length l - HISTORY_SIZE) l.

(** * The same code over IEEE doubles *)

(** The definitions above compute with exact reals.  [Module IEEE] embeds
    the same functions with the numbers the program has: a Number is a
    binary64 [float], [NaN] and the infinities included, and every
    operation rounds as the machine does.  [x ** 2] is taken as the
    correctly rounded product [x * x].  The definitions run under
    [vm_compute]. *)
Module IEEE.

Import PrimFloat.

(** A length or a count as a Number (exact below 2^53). *)
Definition ofZ (z : Z) : float := of_uint63 (Uint63.of_Z z).
Definition lengthNumber (n : nat) : float := ofZ (Z.of_nat n).

(** [Number.isFinite]. *)
Definition isFinite (v : float) : bool :=
  negb (is_nan v) && negb (is_infinity v).

Record FilteredResult : Type := mkFilteredResult {
  average : option float;
  filteredHistory : list float;
  removedCount : nat
}.

Definition calculateFilteredAverage (history : list float) : FilteredResult :=
  let n := length history in
  if Nat.eqb n 0 then
    mkFilteredResult None [] 0
  else if Nat.ltb n 10 then
    let average :=
      (fold_left (fun a b => a + b) history 0 / lengthNumber n)%float in
    mkFilteredResult (Some average) history 0
  else
    let mean :=
      (fold_left (fun s v => s + v) history 0 / lengthNumber n)%float in
    let stdDev :=
      sqrt (fold_left (fun s v => s + (v - mean) * (v - mean)) history 0
            / lengthNumber n)%float in
    let threshold := (2 * stdDev)%float in
    let filteredHistory :=
      List.filter (fun v => (abs (v - mean) <=? threshold)%float) history in
    let removedCount := (n - length filteredHistory)%nat in
    let average :=
      if Nat.eqb (length filteredHistory) 0 then None
      else Some (fold_left (fun s v => s + v) filteredHistory 0
                 / lengthNumber (length filteredHistory))%float in
    mkFilteredResult average filteredHistory removedCount.

Record Bottle : Type := mkBottle {
  percentHistory : list float;
  initialPercent : option float;
  maxAvgPercent : option float;
  capacity : float
}.

Definition HISTORY_SIZE : nat := 10.
Definition BOTTLE_CAPACITY_LITERS : float := 1%float.

(** [percentHistory.filter(v => typeof v === 'number' && !isNaN(v))]. *)
Definition validNumbers (history : list float) : list float :=
  List.filter (fun v => negb (is_nan v)) history.

Definition isPositiveZero (v : float) : bool :=
  match classify v with
  | FloatClass.PZero => true
  | _ => false
  end.

Definition isNegativeZero (v : float) : bool :=
  match classify v with
  | FloatClass.NZero => true
  | _ => false
  end.

(** [Math.max(...args)], as ECMAScript defines it: from [-Infinity], [NaN]
    as soon as an argument is [NaN], [+0] above [-0]. *)
Fixpoint Math_max_from (highest : float) (args : list float) : float :=
  match args with
  | [] => highest
  | number :: rest =>
      if is_nan number then nan
      else
        let highest :=
          if isPositiveZero number && isNegativeZero highest then number
          else if (highest <? number)%float then number
          else highest in
        Math_max_from highest rest
  end.

Definition Math_max (args : list float) : float :=
  Math_max_from neg_infinity args.

Definition nullToNumber (v : option float) : float :=
  match v with
  | Some x => x
  | None => 0%float
  end.

(** [isValidPercent]: [currentPercent != null && !isNaN(currentPercent)],
    on a Number. *)
Definition isValidPercent (currentPercent : float) : bool :=
  negb (is_nan currentPercent).

Definition newBottle (currentPercent : float) : Bottle :=
  if isValidPercent currentPercent
  then mkBottle [currentPercent] (Some currentPercent) None
         BOTTLE_CAPACITY_LITERS
  else mkBottle [] None None BOTTLE_CAPACITY_LITERS.

Definition ratchet (cur : option float) (avgPercent : float) : option float :=
  match cur with
  | None => Some avgPercent
  | Some c => if (c <? avgPercent)%float then Some avgPercent else Some c
  end.

Definition ingestValid (bottle : Bottle) (currentPercent : float) : Bottle :=
  let pushed := percentHistory bottle ++ [currentPercent] in
  let history :=
    if Nat.ltb HISTORY_SIZE (length pushed) then tail pushed else pushed in
  let validHistory := validNumbers history in
  let maxAvg :=
    if Nat.leb HISTORY_SIZE (length validHistory) then
      match average (calculateFilteredAverage validHistory) with
      | Some avgPercent => ratchet (maxAvgPercent bottle) avgPercent
      | None => maxAvgPercent bottle
      end
    else maxAvgPercent bottle in
  let maxPercent := Math_max history in
  let initial :=
    if (nullToNumber (initialPercent bottle) <? maxPercent)%float
    then Some maxPercent
    else initialPercent bottle in
  mkBottle history initial maxAvg (capacity bottle).

Definition ingestInvalid (bottle : Bottle) : Bottle :=
  let history :=
    if Nat.ltb 0 (length (percentHistory bottle))
    then tail (percentHistory bottle)
    else percentHistory bottle in
  let validHistory := validNumbers history in
  let maxAvg :=
    if Nat.leb HISTORY_SIZE (length validHistory) then
      let avgPercent :=
        (fold_left (fun a b => a + b) validHistory 0
         / lengthNumber (length validHistory))%float in
      ratchet (maxAvgPercent bottle) avgPercent
    else if Nat.ltb (length validHistory) HISTORY_SIZE then None
    else maxAvgPercent bottle in
  mkBottle history (initialPercent bottle) maxAvg (capacity bottle).

Definition updateBottle (bottle : Bottle) (currentPercent : float) : Bottle :=
  if isValidPercent currentPercent
  then ingestValid bottle currentPercent
  else ingestInvalid bottle.

Definition ingest (bottlesByColor : gmap string Bottle) (color : string)
    (currentPercent : float) : gmap string Bottle :=
  match bottlesByColor !! color with
  | None => <[color := newBottle currentPercent]> bottlesByColor
  | Some bottle => <[color := updateBottle bottle currentPercent]> bottlesByColor
  end.

Definition ingestAll (m : gmap string Bottle) (color : string)
    (readings : list float) : gmap string Bottle :=
  fold_left (fun m' p => ingest m' color p) readings m.

Inductive reachable : gmap string Bottle -> Prop :=
| reachable_empty : reachable ∅
| reachable_ingest (m : gmap string Bottle) (color : string) (p : float) :
    reachable m -> reachable (ingest m color p).

(** The value of [fill_level_percent] and line 559: a Number is taken as it
    is ([JSON.parse] reads [1e999] as [Infinity]); a string, a boolean, an
    array or an object is given with the Number that [Number(...)] makes
    of it; [Number(null)] is [0] and [Number(undefined)] is [NaN]. *)
Inductive rawPercent : Type :=
| RawNumber (x : float)
| RawConverted (numeric : float)
| RawNull
| RawUndefined.

Definition toCurrentPercent (raw : rawPercent) : float :=
  match raw with
  | RawNumber x => x
  | RawConverted numeric => numeric
  | RawNull => 0%float
  | RawUndefined => nan
  end.

Record bottleFields : Type := mkFields {
  bottle_color : option string;
  fill_level_percent : rawPercent
}.

Inductive jsdata : Type :=
| DNull
| DPrimitive
| DObject (fields : bottleFields).

Inductive scoreItem : Type :=
| ItemString (parsed : option jsdata)
| ItemObject (fields : bottleFields)
| ItemOther.

Inductive outcome : Type :=
| Done (m : gmap string Bottle)
| Thrown (m : gmap string Bottle).

Definition useBottleData (m : gmap string Bottle) (bottleData : jsdata)
    : outcome :=
  match bottleData with
  | DNull => Thrown m
  | DPrimitive => Done m
  | DObject fields =>
      match bottle_color fields with
      | Some color =>
          let currentPercent := toCurrentPercent (fill_level_percent fields) in
          Done (ingest m color currentPercent)
      | None => Done m
      end
  end.

Definition processItem (m : gmap string Bottle) (scoreItem : scoreItem)
    : outcome :=
  match scoreItem with
  | ItemString None => Done m
  | ItemString (Some bottleData) => useBottleData m bottleData
  | ItemObject fields => useBottleData m (DObject fields)
  | ItemOther => Done m
  end.

Fixpoint processItems (m : gmap string Bottle) (scores : list scoreItem)
    : outcome :=
  match scores with
  | [] => Done m
  | scoreItem :: rest =>
      match processItem m scoreItem with
      | Done m' => processItems m' rest
      | Thrown m' => Thrown m'
      end
  end.

Record Row : Type := mkRow {
  currentAverage : option float;
  consumedPercent : option float;
  consumedLiters : option float
}.

(** The row of a bottle; [None] when [avgCurrentPercent.toFixed(1)] raises
    on [null] (line 476). *)
Definition bottleRow (bottle : Bottle) : option Row :=
  let history := validNumbers (percentHistory bottle) in
  let hasValidData := Nat.ltb 0 (length history) in
  let filteredResult :=
    if hasValidData then calculateFilteredAverage history
    else mkFilteredResult None [] 0 in
  if hasValidData then
    match average filteredResult with
    | None => None
    | Some avgCurrentPercent =>
        match maxAvgPercent bottle with
        | Some maxAvg =>
            let consumedPercent :=
              Math_max [0%float; (maxAvg - avgCurrentPercent)%float] in
            let consumedLiters :=
              (consumedPercent / 100 * capacity bottle)%float in
            Some (mkRow (Some avgCurrentPercent) (Some consumedPercent)
                    (Some consumedLiters))
        | None => Some (mkRow (Some avgCurrentPercent) None None)
        end
    end
  else Some (mkRow None None None).

Definition updateBottleTable (m : gmap string Bottle)
    : option (list (string * Row)) :=
  mapM (fun entry => row ← bottleRow entry.2; Some (entry.1, row))
       (map_to_list m).

Definition onData (m : gmap string Bottle) (scores : list scoreItem)
    : outcome :=
  match processItems m scores with
  | Done m' =>
      match updateBottleTable m' with
      | Some _ => Done m'
      | None => Thrown m'
      end
  | Thrown m' => Thrown m'
  end.

(** ** The contract of the filtered average, in the arithmetic of the code *)

(** The sum of the samples, added from the left, each addition rounded. *)
Fixpoint sumFrom (acc : float) (l : list float) : float :=
  match l with
  | [] => acc
  | v :: rest => sumFrom (acc + v)%float rest
  end.

Definition mean (l : list float) : float :=
  (sumFrom 0 l / lengthNumber (length l))%float.

Definition squaredDeviations (l : list float) : list float :=
  map (fun v => ((v - mean l) * (v - mean l))%float) l.

Definition sigma (l : list float) : float :=
  sqrt (sumFrom 0 (squaredDeviations l) / lengthNumber (length l))%float.

Definition within (l : list float) (v : float) : Prop :=
  (abs (v - mean l) <=? 2 * sigma l)%float = true.

#[global] Instance within_dec (l : list float) (v : float) :
  Decision (within l v).
Proof. unfold within. apply _. Defined.

Definition retained (l : list float) : list float := filter (within l) l.
Definition discarded (l : list float) : list float :=
  filter (fun v => ~ within l v) l.

Definition contract (l : list float) : FilteredResult :=
  if decide (length l = 0%nat) then mkFilteredResult None [] 0
  else if decide (length l < 10)%nat then mkFilteredResult (Some (mean l)) l 0
  else mkFilteredResult
         (if decide (retained l = []) then None else Some (mean (retained l)))
         (retained l) (length (discarded l)).

(** ** What the bottles of a reachable registry have in common *)

Record bottleInvariant (b : Bottle) : Prop := mkBottleInvariant {
  inv_numbers : Forall (fun v => is_nan v = false) (percentHistory b);
  inv_bound : (length (percentHistory b) <= HISTORY_SIZE)%nat;
  inv_mark_full :
    is_Some (maxAvgPercent b) -> length (percentHistory b) = HISTORY_SIZE;
  inv_full_mark :
    length (percentHistory b) = HISTORY_SIZE ->
    is_Some (average (calculateFilteredAverage (percentHistory b))) ->
    is_Some (maxAvgPercent b);
  inv_mark_above :
    forall hw cur,
      maxAvgPercent b = Some hw ->
      average (calculateFilteredAverage (percentHistory b)) = Some cur ->
      (hw <? cur)%float = false
}.

(** ** Checks over the whole percentages *)

(** Equality of results, decided ([Leibniz.eqb] tells [0] from [-0] and
    takes [NaN] as equal to itself). *)
Definition optionEqb (a b : option float) : bool :=
  match a, b with
  | Some x, Some y => Leibniz.eqb x y
  | None, None => true
  | _, _ => false
  end.

Fixpoint listEqb (a b : list float) : bool :=
  match a, b with
  | [], [] => true
  | x :: a', y :: b' => Leibniz.eqb x y && listEqb a' b'
  | _, _ => false
  end.

Definition resultEqb (a b : FilteredResult) : bool :=
  optionEqb (average a) (average b)
  && listEqb (filteredHistory a) (filteredHistory b)
  && Nat.eqb (removedCount a) (removedCount b).

(** The whole percentages 0, 1, ..., 100. *)
Definition percentages : list Z := map Z.of_nat (seq 0 101).

(** Samples that are all the same whole percentage: the routine returns
    it, keeps every sample and removes none. *)
Definition constantOk (n : nat) (v : Z) : bool :=
  resultEqb (calculateFilteredAverage (replicate n (ofZ v)))
            (mkFilteredResult (Some (ofZ v)) (replicate n (ofZ v)) 0).

(** Ten samples: nine of [v] and, at position [i], one of [w]. *)
Definition glitched (v w : float) (i : nat) : list float :=
  replicate i v ++ w :: replicate (9 - i) v.

(** The routine removes the one sample that differs and returns the
    common percentage. *)
Definition glitchOk (v w : Z) (i : nat) : bool :=
  resultEqb (calculateFilteredAverage (glitched (ofZ v) (ofZ w) i))
            (mkFilteredResult (Some (ofZ v)) (replicate 9 (ofZ v)) 1).

(** The sum of whole numbers, and the sums that at most ten whole
    percentages can have. *)
Definition sumZ (zs : list Z) : Z := fold_right Z.add 0%Z zs.
Definition sums : list Z := map Z.of_nat (seq 0 1001).
Definition counts : list Z := map Z.of_nat (seq 1 10).

(** Adding a whole percentage to such a sum is exact in doubles. *)
Definition addOk (acc v : Z) : bool :=
  Leibniz.eqb (ofZ acc + ofZ v)%float (ofZ (acc + v)).

(** The rounded quotient of a sum [s] by a count [k] is not below a whole
    percentage [bound] that is at most [s / k], and not above one that is
    at least [s / k]. *)
Definition quotientOk (k s bound : Z) : bool :=
  (negb (k * bound <=? s)%Z || (ofZ bound <=? ofZ s / ofZ k)%float)
  && (negb (s <=? k * bound)%Z || (ofZ s / ofZ k <=? ofZ bound)%float).

(** ** Readings used below *)

Definition five : float := 5%float.
Definition fifty : float := 50%float.

(** The double nearest to [0.1], and a number whose square underflows. *)
Definition tenth : float := (1 / 10)%float.
Definition tiny : float := 0x1p-700%float.

(** The double nearest to [1e308]. *)
Definition huge : float := 0x1.1ccf385ebc8ap+1023%float.

(** The bottle of a colour read ten times at 50. *)
Definition fullOfFifty : Bottle :=
  mkBottle (replicate 10 fifty) (Some fifty) (Some fifty)
    BOTTLE_CAPACITY_LITERS.

(** Eight readings of 70 and two of 73. *)
Definition knife : list Z := [70; 70; 70; 70; 70; 70; 70; 70; 73; 73]%Z.

(** A record of a colour with a fill level. *)
Definition reading (color : string) (raw : rawPercent) : scoreItem :=
  ItemObject (mkFields (Some color) raw).

End IEEE.

(** ** Sums *)

Section Sums.

Lemma reduce_add (f : R -> R) (l : list R) (a : R) :
  fold_left (fun s v => s + f v) l a = a + SpecWords.sum (map f l).
Proof.
  revert a; induction l as [|x l IH]; intros a; simpl.
  - lra.
  - rewrite IH. unfold SpecWords.sum. simpl. lra.
Qed.

Lemma reduce_sum (l : list R) :
  fold_left (fun s v => s + v) l 0 = SpecWords.sum l.
Proof.
  rewrite (reduce_add (fun v => v) l 0), map_id. lra.
Qed.

Lemma reduce_squares (mu : R) (l : list R) :
  fold_left (fun s v => s + (v - mu) ^ 2) l 0
  = SpecWords.sum (map (fun v => (v - mu) ^ 2) l).
Proof.
  rewrite (reduce_add (fun v => (v - mu) ^ 2) l 0). lra.
Qed.

(** Some element is no larger than the average: the least value of [f]
    on a non-empty list, counted [length l] times, is below the sum. *)
Lemma below_average (f : R -> R) (l : list R) :
  l <> [] ->
  exists v, v ∈ l /\ f v * INR (length l) <= SpecWords.sum (map f l).
Proof.
  induction l as [|x l IH]; [congruence|]. intros _.
  destruct l as [|y l].
  - exists x. split; [apply list_elem_of_here|].
    unfold SpecWords.sum; simpl. lra.
  - destruct IH as (v & Hv & Hle); [congruence|].
    change (SpecWords.sum (map f (x :: y :: l)))
      with (f x + SpecWords.sum (map f (y :: l))).
    change (length (x :: y :: l)) with (S (length (y :: l))).
    rewrite S_INR.
    pose proof (pos_INR (length (y :: l))) as Hn.
    destruct (Rle_dec (f x) (f v)) as [Hxv|Hxv].
    + exists x. split; [apply list_elem_of_here|]. nra.
    + exists v. split; [apply list_elem_of_further, Hv|]. nra.
Qed.

Lemma INR_length_pos (l : list R) : l <> [] -> 0 < INR (length l).
Proof.
  destruct l; [congruence|]. intros _. apply lt_0_INR. simpl. lia.
Qed.

(** Whatever the centre [mu], one sample is within twice the root mean
    square deviation from it. *)
Lemma some_sample_within (mu : R) (l : list R) :
  l <> [] ->
  exists v, v ∈ l /\
    Rabs (v - mu)
    <= 2 * sqrt (SpecWords.sum (map (fun v => (v - mu) ^ 2) l)
                 / INR (length l)).
Proof.
  intros Hne.
  destruct (below_average (fun v => (v - mu) ^ 2) l Hne) as (v & Hv & Hle).
  pose proof (INR_length_pos l Hne) as Hn.
  exists v. split; [exact Hv|].
  set (var := SpecWords.sum (map (fun v => (v - mu) ^ 2) l) / INR (length l)).
  assert (Hvar : (v - mu) ^ 2 <= var).
  { apply (Rmult_le_reg_r (INR (length l))); [exact Hn|].
    unfold var, Rdiv. rewrite Rmult_assoc, Rinv_l by lra. lra. }
  assert (Hs : Rabs (v - mu) <= sqrt var).
  { rewrite <- sqrt_Rsqr_abs. apply sqrt_le_1_alt.
    unfold Rsqr. lra. }
  pose proof (sqrt_pos var). lra.
Qed.

End Sums.

(** ** The filtered average *)

Section FilteredAverage.

Lemma filter_complement_length (P : R -> Prop) `{!forall v, Decision (P v)}
    (l : list R) :
  (length l - length (filter P l))%nat
  = length (filter (fun v => ~ P v) l).
Proof.
  induction l as [|x l IH]; [reflexivity|].
  pose proof (length_filter P l) as Hle.
  rewrite !filter_cons.
  destruct (decide (P x)) as [Hx|Hx].
  - rewrite decide_False by tauto. simpl. exact IH.
  - rewrite decide_True by exact Hx. simpl. rewrite <- IH. lia.
Qed.

Lemma filter_keeps_all (P : R -> Prop) `{!forall v, Decision (P v)}
    (l : list R) :
  Forall P l -> filter P l = l.
Proof.
  induction 1 as [|x xs Hx _ IH]; [reflexivity|].
  rewrite filter_cons, decide_True by exact Hx. f_equal. exact IH.
Qed.

Lemma filter_drops_all (P : R -> Prop) `{!forall v, Decision (P v)}
    (l : list R) :
  Forall P l -> filter (fun v => ~ P v) l = [].
Proof.
  induction 1 as [|x xs Hx _ IH]; [reflexivity|].
  rewrite filter_cons, decide_False by tauto. exact IH.
Qed.

Lemma retained_nonempty (l : list R) : l <> [] -> SpecWords.retained l <> [].
Proof.
  intros Hne.
  destruct (some_sample_within (SpecWords.mean l) l Hne) as (v & Hv & Hw).
  intros Hnil.
  assert (Hin : v ∈ SpecWords.retained l).
  { apply list_elem_of_filter. split; [exact Hw|exact Hv]. }
  rewrite Hnil in Hin. inversion Hin.
Qed.

(** The code computes what the contract says, case by case. *)
Lemma calculateFilteredAverage_unfold (l : list R) :
  calculateFilteredAverage l = SpecWords.filteredAverage l.
Proof.
  unfold calculateFilteredAverage, SpecWords.filteredAverage.
  destruct (decide (length l = 0%nat)) as [H0|H0].
  - rewrite H0. reflexivity.
  - destruct (Nat.eqb_neq (length l) 0) as [_ Hneq].
    rewrite (Hneq H0).
    destruct (decide (length l < 10)%nat) as [H10|H10].
    + destruct (Nat.ltb_lt (length l) 10) as [_ Hlt]. rewrite (Hlt H10).
      cbv zeta. rewrite reduce_sum. reflexivity.
    + destruct (Nat.ltb_ge (length l) 10) as [_ Hge].
      rewrite Hge by lia. cbv zeta.
      rewrite !reduce_sum.
      rewrite (reduce_squares (SpecWords.sum l / INR (length l)) l).
      change (filter _ l) with (SpecWords.retained l).
      assert (Hne : l <> []) by (intros ->; simpl in H0; congruence).
      pose proof (retained_nonempty l Hne) as Hret.
      destruct (SpecWords.retained l) as [|r rs] eqn:Er; [congruence|].
      rewrite <- Er.
      replace (length (SpecWords.retained l) =? 0)%nat with false
        by (rewrite Er; reflexivity).
      f_equal.
      unfold SpecWords.retained, SpecWords.discarded.
      apply filter_complement_length.
Qed.

(** With every sample within the threshold nothing is removed. *)
Lemma calculateFilteredAverage_all_within (l : list R) :
  (10 <= length l)%nat ->
  Forall (SpecWords.within l) l ->
  calculateFilteredAverage l = mkFilteredResult (Some (SpecWords.mean l)) l 0.
Proof.
  intros Hlen Hall.
  rewrite calculateFilteredAverage_unfold. unfold SpecWords.filteredAverage.
  rewrite decide_False by lia. rewrite decide_False by lia.
  assert (Hret : SpecWords.retained l = l)
    by (apply filter_keeps_all; exact Hall).
  assert (Hdis : SpecWords.discarded l = [])
    by (apply filter_drops_all; exact Hall).
  rewrite Hret, Hdis. reflexivity.
Qed.

(** A non-empty sample list always has an average. *)
Lemma average_defined (l : list R) :
  l <> [] ->
  exists a, average (calculateFilteredAverage l) = Some a.
Proof.
  intros Hne. rewrite calculateFilteredAverage_unfold.
  unfold SpecWords.filteredAverage.
  destruct l as [|x l]; [congruence|].
  rewrite decide_False by (simpl; lia).
  destruct (decide _); simpl; eauto.
Qed.

End FilteredAverage.

(** ** One bottle *)

Section OneBottle.

Lemma validNumbers_length (history : list jsnum) :
  (length (validNumbers history) <= length history)%nat.
Proof.
  induction history as [|[x|] history IH]; simpl; lia.
Qed.

Lemma tail_length (history : list jsnum) :
  length (tail history) = (length history - 1)%nat.
Proof. destruct history; simpl; lia. Qed.

(** The history after a number: the number at the recent end, the oldest
    entry gone once ten are already held. *)
Lemma ingestValid_history (bottle : Bottle) (x : R) :
  percentHistory (ingestValid bottle x)
  = (if Nat.leb HISTORY_SIZE (length (percentHistory bottle))
     then tail (percentHistory bottle)
     else percentHistory bottle) ++ [Num x].
Proof.
  unfold ingestValid; simpl percentHistory at 1.
  rewrite length_app. simpl length.
  destruct (Nat.leb_spec HISTORY_SIZE (length (percentHistory bottle)))
    as [Hge|Hlt].
  - destruct (Nat.ltb_lt HISTORY_SIZE (length (percentHistory bottle) + 1))
      as [_ H]. rewrite H by lia.
    destruct (percentHistory bottle); [simpl in Hge; unfold HISTORY_SIZE in Hge; lia|].
    reflexivity.
  - destruct (Nat.ltb_ge HISTORY_SIZE (length (percentHistory bottle) + 1))
      as [_ H]. rewrite H by lia. reflexivity.
Qed.

Lemma ingestInvalid_history (bottle : Bottle) :
  percentHistory (ingestInvalid bottle) = tail (percentHistory bottle).
Proof.
  unfold ingestInvalid; simpl.
  destruct (percentHistory bottle); reflexivity.
Qed.

Lemma updateBottle_bound (bottle : Bottle) (p : jsnum) :
  (length (percentHistory bottle) <= HISTORY_SIZE)%nat ->
  (length (percentHistory (updateBottle bottle p)) <= HISTORY_SIZE)%nat.
Proof.
  intros Hb. destruct p as [x|]; unfold updateBottle.
  - rewrite ingestValid_history.
    destruct (Nat.leb_spec HISTORY_SIZE (length (percentHistory bottle)));
      rewrite length_app, ?tail_length; unfold HISTORY_SIZE in *;
      cbn [length]; lia.
  - rewrite ingestInvalid_history, tail_length. lia.
Qed.

Lemma newBottle_bound (p : jsnum) :
  (length (percentHistory (newBottle p)) <= HISTORY_SIZE)%nat.
Proof. destruct p; unfold HISTORY_SIZE; simpl; lia. Qed.

Lemma ratchet_cases (cur : option R) (avgPercent : R) :
  match cur with
  | Some old =>
      exists new, ratchet cur avgPercent = Some new /\ old <= new /\
        (new = old \/ (old < new /\ new = avgPercent))
  | None => ratchet cur avgPercent = Some avgPercent
  end.
Proof.
  destruct cur as [old|]; [|reflexivity]. simpl.
  destruct (decide (avgPercent > old)) as [Hgt|Hle].
  - exists avgPercent. split; [reflexivity|]. split; [lra|]. right. split; [lra|reflexivity].
  - exists old. split; [reflexivity|]. split; [lra|]. left. reflexivity.
Qed.

(** The high-water mark after a number: untouched, or the filtered
    average of the new history. *)
Lemma ingestValid_maxAvg (bottle : Bottle) (x : R) :
  let bottle' := ingestValid bottle x in
  let avg :=
    average (calculateFilteredAverage
               (validNumbers (percentHistory bottle'))) in
  match maxAvgPercent bottle with
  | Some old =>
      exists new, maxAvgPercent bottle' = Some new /\ old <= new /\
        (new = old \/ (old < new /\ avg = Some new))
  | None => maxAvgPercent bottle' = None \/ maxAvgPercent bottle' = avg
  end.
Proof.
  intros bottle' avg.
  assert (Hstep : maxAvgPercent bottle'
    = if Nat.leb HISTORY_SIZE (length (validNumbers (percentHistory bottle')))
      then match avg with
           | Some a => ratchet (maxAvgPercent bottle) a
           | None => maxAvgPercent bottle
           end
      else maxAvgPercent bottle) by reflexivity.
  rewrite Hstep. clear Hstep.
  destruct (Nat.leb _ _), avg as [a|];
    try (destruct (maxAvgPercent bottle) as [old|];
         [exists old; split; [reflexivity|]; split; [lra|]; left; reflexivity
         | left; reflexivity]).
  pose proof (ratchet_cases (maxAvgPercent bottle) a) as Hr.
  destruct (maxAvgPercent bottle) as [old|].
  - destruct Hr as (new & Hn & Hle & [Heq|[Hlt Ha]]); exists new;
      (split; [exact Hn|]); (split; [exact Hle|]).
    + left; exact Heq.
    + right. split; [exact Hlt|]. rewrite Ha. reflexivity.
  - right. exact Hr.
Qed.

(** After a reading that is not a number: the history loses its oldest
    entry, and the mark is cleared when fewer than ten numbers remain. *)
Lemma ingestInvalid_clears (bottle : Bottle) :
  (length (validNumbers (percentHistory (ingestInvalid bottle)))
   < HISTORY_SIZE)%nat ->
  maxAvgPercent (ingestInvalid bottle) = None.
Proof.
  intros Hlt.
  assert (Hstep : maxAvgPercent (ingestInvalid bottle)
    = let validHistory := validNumbers (percentHistory (ingestInvalid bottle)) in
      if Nat.leb HISTORY_SIZE (length validHistory) then
        ratchet (maxAvgPercent bottle)
          (fold_left (fun a b => a + b) validHistory 0
           / INR (length validHistory))
      else if Nat.ltb (length validHistory) HISTORY_SIZE then None
      else maxAvgPercent bottle) by reflexivity.
  rewrite Hstep. cbv zeta.
  destruct (Nat.leb_gt HISTORY_SIZE
    (length (validNumbers (percentHistory (ingestInvalid bottle)))))
    as [_ H1]. rewrite (H1 Hlt).
  destruct (Nat.ltb_lt
    (length (validNumbers (percentHistory (ingestInvalid bottle))))
    HISTORY_SIZE) as [_ H2]. rewrite (H2 Hlt). reflexivity.
Qed.

Lemma ingestInvalid_short (bottle : Bottle) :
  (length (percentHistory bottle) <= HISTORY_SIZE)%nat ->
  (length (validNumbers (percentHistory (ingestInvalid bottle)))
   < HISTORY_SIZE)%nat.
Proof.
  intros Hb.
  pose proof (validNumbers_length (percentHistory (ingestInvalid bottle))) as Hv.
  rewrite ingestInvalid_history in *. rewrite tail_length in Hv.
  unfold HISTORY_SIZE in *. lia.
Qed.

End OneBottle.

(** ** The registry *)

Section Registry.

Implicit Types m : gmap string Bottle.

Lemma ingest_lookup m (color : string) (p : jsnum) :
  ingest m color p !! color
  = Some (match m !! color with
          | Some bottle => updateBottle bottle p
          | None => newBottle p
          end).
Proof.
  unfold ingest. destruct (m !! color); apply lookup_insert_eq.
Qed.

Lemma ingest_lookup_ne m (color other : string) (p : jsnum) :
  color <> other -> ingest m color p !! other = m !! other.
Proof.
  intros Hne. unfold ingest.
  destruct (m !! color); apply lookup_insert_ne; exact Hne.
Qed.

(** No reachable history holds more than ten entries. *)
Lemma reachable_bound m :
  reachable m ->
  forall (color : string) (bottle : Bottle),
    m !! color = Some bottle ->
    (length (percentHistory bottle) <= HISTORY_SIZE)%nat.
Proof.
  induction 1 as [|m c p Hm IH]; intros color bottle Hlook.
  - rewrite lookup_empty in Hlook. discriminate.
  - destruct (decide (c = color)) as [->|Hne].
    + rewrite ingest_lookup in Hlook. injection Hlook as <-.
      destruct (m !! color) as [b|] eqn:Eb.
      * apply updateBottle_bound. exact (IH color b Eb).
      * apply newBottle_bound.
    + rewrite ingest_lookup_ne in Hlook by exact Hne.
      exact (IH color bottle Hlook).
Qed.

End Registry.

(** ** The table row *)

Section Snapshot.

Lemma validNumbers_nonempty (history : list jsnum) :
  Nat.ltb 0 (length (validNumbers history)) = true ->
  validNumbers history <> [].
Proof.
  destruct (validNumbers history); [discriminate|congruence].
Qed.

(** A row is always produced, and its cells are these. *)
Lemma bottleRow_cells (bottle : Bottle) :
  let avg :=
    average (calculateFilteredAverage (validNumbers (percentHistory bottle))) in
  bottleRow bottle
  = Some (match avg, maxAvgPercent bottle with
          | Some a, Some hw =>
              mkRow (Some a) (Some (Rmax 0 (hw - a)))
                    (Some (Rmax 0 (hw - a) / 100 * capacity bottle))
          | Some a, None => mkRow (Some a) None None
          | None, _ => mkRow None None None
          end).
Proof.
  unfold bottleRow. cbv zeta.
  destruct (Nat.ltb 0 (length (validNumbers (percentHistory bottle)))) eqn:Hd.
  - destruct (average_defined _ (validNumbers_nonempty _ Hd)) as (a & Ha).
    rewrite Ha. destruct (maxAvgPercent bottle); reflexivity.
  - destruct (validNumbers (percentHistory bottle)); [reflexivity|discriminate].
Qed.

End Snapshot.

(** ** The initial level *)

Section InitialLevel.

(** After a number, the initial level is the maximum of the history when
    that maximum exceeds the number the old level converts to ([0] for
    an unset level), and is unchanged otherwise. *)
Lemma ingestValid_initial (bottle : Bottle) (x peak : R) :
  Math_max (percentHistory (ingestValid bottle x)) = Finite peak ->
  initialPercent (ingestValid bottle x)
  = if decide (peak > nullToNumber (initialPercent bottle))
    then Some peak
    else initialPercent bottle.
Proof.
  intros Hpeak.
  assert (Hstep : initialPercent (ingestValid bottle x)
    = match Math_max (percentHistory (ingestValid bottle x)) with
      | Finite maxPercent =>
          if decide (maxPercent > nullToNumber (initialPercent bottle))
          then Some maxPercent
          else initialPercent bottle
      | MinusInfinity | NotANumber => initialPercent bottle
      end) by reflexivity.
  rewrite Hstep, Hpeak. reflexivity.
Qed.

(** With a level already set the update is the one of a rising peak. *)
Lemma ingestValid_initial_set (bottle : Bottle) (x peak level : R) :
  Math_max (percentHistory (ingestValid bottle x)) = Finite peak ->
  initialPercent bottle = Some level ->
  initialPercent (ingestValid bottle x)
  = Some (if decide (peak > level) then peak else level).
Proof.
  intros Hpeak Hlevel.
  rewrite (ingestValid_initial bottle x peak Hpeak), Hlevel. simpl.
  destruct (decide (peak > level)); reflexivity.
Qed.

End InitialLevel.

(** ** What the callback raises *)

Section Raises.

Implicit Types m : gmap string Bottle.

Lemma updateBottleTable_total m : is_Some (updateBottleTable m).
Proof.
  unfold updateBottleTable. apply mapM_is_Some, Forall_forall.
  intros [color bottle] _. simpl.
  rewrite bottleRow_cells. simpl. eauto.
Qed.

Lemma processItems_total m (scores : list scoreItem) :
  Forall (fun item => ~ parsesToNull item) scores ->
  exists m', processItems m scores = Done m'.
Proof.
  intros Hall. revert m.
  induction Hall as [|item scores Hitem _ IH]; intros m; simpl.
  - eauto.
  - unfold parsesToNull in Hitem.
    destruct item as [[[| |fields]|]|fields|]; simpl;
      try apply IH; try congruence;
      destruct (bottle_color fields); apply IH.
Qed.

(** A record whose [fill_level_percent] is [null] is taken as the number 0;
    a record without the field as a reading that is not a number. *)
Lemma null_percent_is_zero (m : gmap string Bottle) (color : string) :
  processItem m (ItemObject (mkFields (Some color) RawNull))
  = Done (ingest m color (Num 0)).
Proof. reflexivity. Qed.

Lemma missing_percent_is_invalid (m : gmap string Bottle) (color : string) :
  processItem m (ItemObject (mkFields (Some color) RawUndefined))
  = Done (ingest m color NaN).
Proof. reflexivity. Qed.

(** Without such an item the callback returns. *)
Lemma onData_total m (scores : list scoreItem) :
  Forall (fun item => ~ parsesToNull item) scores ->
  exists m', onData m scores = Done m'.
Proof.
  intros Hall. unfold onData.
  destruct (processItems_total m scores Hall) as (m' & ->).
  destruct (updateBottleTable_total m') as (rows & ->). eauto.
Qed.

End Raises.

(** ** Scenario A *)

Section ScenarioA.

Lemma ingestAll_lookup (readings : list jsnum) (m : gmap string Bottle)
    (color : string) (bottle : Bottle) :
  m !! color = Some bottle ->
  ingestAll m color readings !! color
  = Some (fold_left updateBottle readings bottle).
Proof.
  revert m bottle.
  induction readings as [|p readings IH]; intros m bottle Hlook.
  - exact Hlook.
  - change (ingestAll m color (p :: readings))
      with (ingestAll (ingest m color p) color readings).
    apply IH. rewrite ingest_lookup, Hlook. reflexivity.
Qed.

Lemma scenarioA_mean : SpecWords.mean scenarioA = 55.
Proof. unfold SpecWords.mean, SpecWords.sum, scenarioA. simpl. lra. Qed.

Lemma scenarioA_sigma : SpecWords.sigma scenarioA = sqrt 825.
Proof.
  unfold SpecWords.sigma. rewrite scenarioA_mean. f_equal.
  unfold SpecWords.sum, scenarioA. simpl. lra.
Qed.

Lemma sqrt_825_lower : 28 <= sqrt 825.
Proof.
  rewrite <- (sqrt_square 28) by lra.
  apply sqrt_le_1_alt. lra.
Qed.

Lemma scenarioA_within : Forall (SpecWords.within scenarioA) scenarioA.
Proof.
  pose proof sqrt_825_lower as Hs.
  unfold SpecWords.within. rewrite scenarioA_mean, scenarioA_sigma.
  unfold scenarioA.
  repeat (apply Forall_cons; split; [apply Rabs_le; lra|]).
  apply Forall_nil. exact I.
Qed.

Lemma scenarioA_filtered :
  calculateFilteredAverage scenarioA = mkFilteredResult (Some 55) scenarioA 0.
Proof.
  rewrite calculateFilteredAverage_all_within.
  - rewrite scenarioA_mean. reflexivity.
  - simpl. lia.
  - exact scenarioA_within.
Qed.

Ltac eval_rmax :=
  repeat match goal with
  | |- context [Rmax (IZR ?a) (IZR ?b)] =>
      first [ rewrite (Rmax_right (IZR a) (IZR b)) by lra
            | rewrite (Rmax_left (IZR a) (IZR b)) by lra ]
  end.

Lemma Math_max_snoc (history : list jsnum) (x : R) :
  Math_max (history ++ [Num x])
  = match Math_max history with
    | MinusInfinity => Finite x
    | Finite y => Finite (Rmax y x)
    | NotANumber => NotANumber
    end.
Proof.
  induction history as [|[a|] history IH]; [reflexivity| |reflexivity].
  change (Math_max ((Num a :: history) ++ [Num x]))
    with (match Math_max (history ++ [Num x]) with
          | MinusInfinity => Finite a
          | Finite y => Finite (Rmax a y)
          | NotANumber => NotANumber
          end).
  rewrite IH. cbn [Math_max].
  destruct (Math_max history); try reflexivity.
  rewrite Rmax_assoc. reflexivity.
Qed.

(** A number above the peak so far, pushed on a history of fewer than
    nine entries: it becomes the initial level, nothing else moves. *)
Lemma ingestValid_rising (history : list jsnum) (top x cap : R)
    (mark : option R) :
  (length history < 9)%nat ->
  Math_max history = Finite top ->
  top < x ->
  ingestValid (mkBottle history (Some top) mark cap) x
  = mkBottle (history ++ [Num x]) (Some x) mark cap.
Proof.
  intros Hlen Hmax Hlt.
  unfold ingestValid. cbn [percentHistory initialPercent maxAvgPercent capacity].
  assert (Hpush : Nat.ltb HISTORY_SIZE (length (history ++ [Num x])) = false).
  { apply Nat.ltb_ge. rewrite length_app. unfold HISTORY_SIZE. simpl. lia. }
  rewrite Hpush.
  assert (Hvalid : Nat.leb HISTORY_SIZE
                     (length (validNumbers (history ++ [Num x]))) = false).
  { apply Nat.leb_gt.
    pose proof (validNumbers_length (history ++ [Num x])) as Hv.
    rewrite length_app in Hv. unfold HISTORY_SIZE. simpl in Hv. lia. }
  rewrite Hvalid, Math_max_snoc, Hmax. cbn [nullToNumber].
  rewrite Rmax_right by lra. rewrite decide_True by lra. reflexivity.
Qed.

Ltac rising_step :=
  rewrite ingestValid_rising;
  [ cbn [app]
  | simpl; lia
  | cbn [Math_max]; eval_rmax; reflexivity
  | lra ].

Lemma scenarioA_nine :
  fold_left updateBottle
    (map Num [20; 30; 40; 50; 60; 70; 80; 90]) (newBottle (Num 10))
  = mkBottle (map Num [10; 20; 30; 40; 50; 60; 70; 80; 90])
             (Some 90) None BOTTLE_CAPACITY_LITERS.
Proof.
  unfold newBottle. cbn [map fold_left updateBottle].
  do 8 rising_step. reflexivity.
Qed.

Lemma scenarioA_bottle :
  fold_left updateBottle (map Num (tail scenarioA)) (newBottle (Num 10))
  = mkBottle (map Num scenarioA) (Some 100) (Some 55) BOTTLE_CAPACITY_LITERS.
Proof.
  change (map Num (tail scenarioA))
    with (map Num [20; 30; 40; 50; 60; 70; 80; 90] ++ [Num 100]).
  rewrite fold_left_app, scenarioA_nine. cbn [fold_left].
  unfold updateBottle, ingestValid.
  cbn [percentHistory initialPercent maxAvgPercent capacity map app length
       Nat.ltb Nat.leb HISTORY_SIZE].
  change (validNumbers _) with scenarioA.
  rewrite scenarioA_filtered.
  cbn [average ratchet scenarioA length Nat.leb Math_max nullToNumber].
  eval_rmax. rewrite decide_True by lra. reflexivity.
Qed.

End ScenarioA.

(** * The claims *)

(** C2. A number ingested for a known colour never lowers the high-water
    average: a set mark stays or is replaced by a strictly larger filtered
    average of the new history; an unset mark stays unset or becomes that
    filtered average. *)
Theorem highWater_never_lowered (m : gmap string Bottle) (color : string)
    (bottle : Bottle) (x : R) :
  m !! color = Some bottle ->
  exists bottle',
    ingest m color (Num x) !! color = Some bottle' /\
    let avg :=
      average (calculateFilteredAverage
                 (validNumbers (percentHistory bottle'))) in
    match maxAvgPercent bottle with
    | Some old =>
        exists new, maxAvgPercent bottle' = Some new /\ old <= new /\
          (new = old \/ (old < new /\ avg = Some new))
    | None => maxAvgPercent bottle' = None \/ maxAvgPercent bottle' = avg
    end.
Proof.
  intros Hlook. exists (ingestValid bottle x). split.
  - rewrite ingest_lookup, Hlook. reflexivity.
  - exact (ingestValid_maxAvg bottle x).
Qed.

Lemma highWater_never_lowered_witness :
  exists bottle',
    ingest {[ "green"%string := mkBottle [Num 80] (Some 80) (Some 80) 1 ]}
           "green" (Num 60) !! "green"%string = Some bottle' /\
    exists new, maxAvgPercent bottle' = Some new /\ 80 <= new.
Proof.
  destruct (highWater_never_lowered
              {[ "green"%string := mkBottle [Num 80] (Some 80) (Some 80) 1 ]}
              "green" (mkBottle [Num 80] (Some 80) (Some 80) 1) 60
              (lookup_singleton_eq _ _))
    as (bottle' & Hlook & new & Hnew & Hle & _).
  exists bottle'. split; [exact Hlook|]. exists new. split; [exact Hnew|exact Hle].
Defined.

(** C9. On a non-empty list of samples the routine returns an average:
    some sample lies within two population standard deviations of the
    mean, so the retained list is not empty. *)
Theorem nonempty_samples_have_average (samples : list R) :
  samples <> [] ->
  (exists v, v ∈ samples /\ SpecWords.within samples v) /\
  filteredHistory (calculateFilteredAverage samples) <> [] /\
  exists a, average (calculateFilteredAverage samples) = Some a.
Proof.
  intros Hne. split; [|split].
  - destruct (some_sample_within (SpecWords.mean samples) samples Hne)
      as (v & Hv & Hw).
    exists v. split; [exact Hv|exact Hw].
  - rewrite calculateFilteredAverage_unfold. unfold SpecWords.filteredAverage.
    destruct samples as [|x l]; [congruence|].
    rewrite decide_False by (simpl; lia).
    destruct (decide _); simpl; [congruence|].
    apply retained_nonempty. congruence.
  - apply average_defined. exact Hne.
Qed.

Lemma nonempty_samples_have_average_witness :
  exists a, average (calculateFilteredAverage [1; 2; 3]) = Some a.
Proof.
  apply (nonempty_samples_have_average [1; 2; 3]). discriminate.
Defined.

(** C5 (the code on the failing input). A score item that is the JSON text
    of [null] parses without an exception, and reading [bottle_color] from
    the result raises: the callback is left by an exception, before any
    bottle is touched and before the table is drawn. *)
Theorem null_item_raises :
  onData ∅ [ItemString (Some DNull)] = Thrown ∅.
Proof. reflexivity. Qed.

(** C8 (the code on the failing input). A colour first seen in a record
    without a fill level has no initial level and an empty history; a
    following reading of 0 enters the history, whose maximum is then 0, and
    the initial level stays unset. *)
Theorem zero_reading_leaves_initial_unset :
  exists m',
    processItems ∅ [ItemObject (mkFields (Some "red"%string) RawUndefined);
                    ItemObject (mkFields (Some "red"%string) (RawNumber (Num 0)))]
    = Done m' /\
    m' !! "red"%string
    = Some (mkBottle [Num 0] None None BOTTLE_CAPACITY_LITERS).
Proof.
  eexists. split; [reflexivity|]. cbn [toCurrentPercent fill_level_percent].
  rewrite ingest_lookup, ingest_lookup, lookup_empty.
  unfold updateBottle, newBottle, ingestValid. simpl.
  rewrite decide_False by lra. reflexivity.
Qed.

(** C6. Scenario A: the ten readings 10, 20, ..., 100 of a fresh colour
    leave a history of exactly these readings, whose filtered average is 55
    with nothing removed; the row shows 55 and the high-water average is
    55. *)
Theorem scenario_A :
  exists bottle,
    ingestAll ∅ "red" (map Num scenarioA) !! "red"%string = Some bottle /\
    percentHistory bottle = map Num scenarioA /\
    calculateFilteredAverage (validNumbers (percentHistory bottle))
    = mkFilteredResult (Some 55) scenarioA 0 /\
    (exists row, bottleRow bottle = Some row /\ currentAverage row = Some 55) /\
    maxAvgPercent bottle = Some 55.
Proof.
  eexists. split.
  - change (ingestAll ∅ "red" (map Num scenarioA))
      with (ingestAll (ingest ∅ "red" (Num 10)) "red" (map Num (tail scenarioA))).
    rewrite (ingestAll_lookup _ _ _ (newBottle (Num 10)))
      by (rewrite ingest_lookup, lookup_empty; reflexivity).
    rewrite scenarioA_bottle. reflexivity.
  - cbn [percentHistory maxAvgPercent].
    change (validNumbers (map Num scenarioA)) with scenarioA.
    split; [reflexivity|]. split; [exact scenarioA_filtered|].
    split; [|reflexivity].
    eexists. split.
    + rewrite bottleRow_cells. cbn [percentHistory maxAvgPercent].
      change (validNumbers (map Num scenarioA)) with scenarioA.
      rewrite scenarioA_filtered. reflexivity.
    + reflexivity.
Qed.

(** * Further properties of the filtered average *)

Section FilteredAverageBounds.

Lemma sum_cons (x : R) (l : list R) :
  SpecWords.sum (x :: l) = x + SpecWords.sum l.
Proof. reflexivity. Qed.

Lemma sum_app (k l : list R) :
  SpecWords.sum (k ++ l) = SpecWords.sum k + SpecWords.sum l.
Proof.
  induction k as [|x k IH].
  - unfold SpecWords.sum at 2. simpl. lra.
  - rewrite <- app_comm_cons, !sum_cons, IH. lra.
Qed.

Lemma sum_replicate (n : nat) (v : R) :
  SpecWords.sum (replicate n v) = INR n * v.
Proof.
  induction n as [|n IH].
  - unfold SpecWords.sum. simpl. lra.
  - rewrite S_INR. cbn [replicate]. rewrite sum_cons, IH. lra.
Qed.

(** The sum of a list lies between [length] times a lower and an upper
    bound of its elements. *)
Lemma sum_between (lo hi : R) (l : list R) :
  Forall (fun v => lo <= v <= hi) l ->
  lo * INR (length l) <= SpecWords.sum l <= hi * INR (length l).
Proof.
  induction 1 as [|x l Hx _ IH].
  - unfold SpecWords.sum. simpl. lra.
  - rewrite sum_cons. cbn [length]. rewrite S_INR. lra.
Qed.

Lemma mean_between (lo hi : R) (l : list R) :
  l <> [] ->
  Forall (fun v => lo <= v <= hi) l ->
  lo <= SpecWords.mean l <= hi.
Proof.
  intros Hne Hall.
  pose proof (sum_between lo hi l Hall) as [Hlo Hhi].
  pose proof (INR_length_pos l Hne) as Hn.
  unfold SpecWords.mean. split.
  - apply (Rmult_le_reg_r (INR (length l))); [exact Hn|].
    unfold Rdiv. rewrite Rmult_assoc, Rinv_l by lra. lra.
  - apply (Rmult_le_reg_r (INR (length l))); [exact Hn|].
    unfold Rdiv. rewrite Rmult_assoc, Rinv_l by lra. lra.
Qed.

(** A list whose elements all exceed [c] under [f] sums to more than
    [length] times [c]. *)
Lemma sum_above (f : R -> R) (c : R) (l : list R) :
  l <> [] ->
  Forall (fun v => c < f v) l ->
  c * INR (length l) < SpecWords.sum (map f l).
Proof.
  intros Hne Hall. induction Hall as [|x l Hx Hall IH]; [congruence|].
  cbn [map length]. rewrite sum_cons, S_INR.
  destruct l as [|y l].
  - unfold SpecWords.sum. simpl. lra.
  - assert (Hl : y :: l <> []) by congruence. specialize (IH Hl). lra.
Qed.

(** Dropping elements of a list of non-negative terms cannot raise the
    sum. *)
Lemma sum_filter_le (f : R -> R) (P : R -> Prop) `{!forall v, Decision (P v)}
    (l : list R) :
  (forall v, 0 <= f v) ->
  SpecWords.sum (map f (filter P l)) <= SpecWords.sum (map f l).
Proof.
  intros Hf. induction l as [|x l IH].
  - apply Rle_refl.
  - rewrite filter_cons. cbn [map]. rewrite sum_cons.
    destruct (decide (P x)).
    + cbn [map]. rewrite sum_cons. lra.
    + pose proof (Hf x). lra.
Qed.

Lemma sum_nonneg (f : R -> R) (l : list R) :
  (forall v, 0 <= f v) -> 0 <= SpecWords.sum (map f l).
Proof.
  intros Hf. induction l as [|x l IH].
  - unfold SpecWords.sum. simpl. lra.
  - cbn [map]. rewrite sum_cons. pose proof (Hf x). lra.
Qed.

Lemma square_nonneg (mu v : R) : 0 <= (v - mu) ^ 2.
Proof. apply pow2_ge_0. Qed.

Lemma variance_nonneg (l : list R) : l <> [] -> 0 <= variance l.
Proof.
  intros Hne. pose proof (INR_length_pos l Hne) as Hn.
  unfold variance. apply Rmult_le_pos.
  - apply sum_nonneg. intros v. apply square_nonneg.
  - left. apply Rinv_0_lt_compat. exact Hn.
Qed.

Lemma sigma_variance (l : list R) : SpecWords.sigma l = sqrt (variance l).
Proof. reflexivity. Qed.

(** A discarded sample has a squared deviation above four times the
    variance. *)
Lemma discarded_square (l : list R) (v : R) :
  l <> [] ->
  ~ SpecWords.within l v ->
  4 * variance l < (v - SpecWords.mean l) ^ 2.
Proof.
  intros Hne Hout. unfold SpecWords.within in Hout.
  rewrite sigma_variance in Hout.
  pose proof (variance_nonneg l Hne) as Hvar.
  pose proof (sqrt_pos (variance l)) as Hs.
  pose proof (sqrt_sqrt (variance l) Hvar) as Hsq.
  assert (Habs : 2 * sqrt (variance l) < Rabs (v - SpecWords.mean l)) by lra.
  assert (Hd : (v - SpecWords.mean l) ^ 2 = Rabs (v - SpecWords.mean l) * Rabs (v - SpecWords.mean l)).
  { simpl. rewrite Rmult_1_r.
    unfold Rabs. destruct (Rcase_abs _); lra. }
  rewrite Hd. nra.
Qed.

Lemma discarded_quarter (l : list R) :
  l <> [] ->
  4 * INR (length (SpecWords.discarded l)) < INR (length l).
Proof.
  intros Hne. pose proof (INR_length_pos l Hne) as Hn.
  destruct (SpecWords.discarded l) as [|d ds] eqn:Ed; [simpl; lra|].
  rewrite <- Ed.
  set (f := fun v => (v - SpecWords.mean l) ^ 2).
  assert (Hall : Forall (fun v => 4 * variance l < f v) (SpecWords.discarded l)).
  { apply Forall_forall. intros v Hv.
    apply list_elem_of_filter in Hv. destruct Hv as [Hout _].
    apply discarded_square; assumption. }
  assert (Hnd : SpecWords.discarded l <> []) by (rewrite Ed; congruence).
  pose proof (sum_above f (4 * variance l) _ Hnd Hall) as Habove.
  pose proof (sum_filter_le f (fun v => ~ SpecWords.within l v) l
                (fun v => square_nonneg _ v)) as Hle.
  fold (SpecWords.discarded l) in Hle.
  assert (Hsum : SpecWords.sum (map f l) = variance l * INR (length l)).
  { unfold variance, Rdiv. fold f. rewrite Rmult_assoc, Rinv_l by lra. lra. }
  pose proof (variance_nonneg l Hne) as Hvar.
  pose proof (pos_INR (length (SpecWords.discarded l))) as Hr.
  assert (Hpos : 0 < variance l) by nra.
  nra.
Qed.

End FilteredAverageBounds.

(** X1. On a non-empty list of samples fewer than a quarter of the samples
    are removed, and the removed and the retained samples together are all
    the samples. *)
Theorem fewer_than_a_quarter_removed (samples : list R) :
  samples <> [] ->
  (4 * removedCount (calculateFilteredAverage samples) < length samples)%nat /\
  (removedCount (calculateFilteredAverage samples)
   + length (filteredHistory (calculateFilteredAverage samples))
   = length samples)%nat.
Proof.
  intros Hne. rewrite calculateFilteredAverage_unfold.
  unfold SpecWords.filteredAverage.
  destruct samples as [|x l]; [congruence|].
  rewrite decide_False by (simpl; lia).
  destruct (decide _) as [Hlt|Hge]; cbn [removedCount filteredHistory].
  - split; simpl; lia.
  - split.
    + pose proof (discarded_quarter (x :: l) Hne) as Hq.
      apply INR_lt. rewrite mult_INR. simpl (INR 4). lra.
    + unfold SpecWords.discarded, SpecWords.retained.
      rewrite <- filter_complement_length.
      pose proof (length_filter (SpecWords.within (x :: l)) (x :: l)). lia.
Qed.

Lemma fewer_than_a_quarter_removed_witness :
  (4 * removedCount (calculateFilteredAverage [1%R; 2%R; 3%R]) < 3)%nat.
Proof.
  apply (fewer_than_a_quarter_removed [1; 2; 3]). discriminate.
Defined.

Section FilteredAverageValues.

Lemma retained_subset (l : list R) (P : R -> Prop) :
  Forall P l -> Forall P (SpecWords.retained l).
Proof.
  intros Hall. apply Forall_forall. intros v Hv.
  apply list_elem_of_filter in Hv. destruct Hv as [_ Hin].
  rewrite Forall_forall in Hall. exact (Hall v Hin).
Qed.

Lemma mean_replicate (n : nat) (v : R) :
  (0 < n)%nat -> SpecWords.mean (replicate n v) = v.
Proof.
  intros Hn. unfold SpecWords.mean.
  rewrite sum_replicate, length_replicate.
  assert (0 < INR n) by (apply lt_0_INR; exact Hn).
  field. lra.
Qed.

Lemma replicate_nonempty (n : nat) (v : R) :
  (0 < n)%nat -> replicate n v <> [].
Proof. destruct n; [lia|discriminate]. Qed.

Lemma filter_replicate (P : R -> Prop) `{!forall v, Decision (P v)}
    (n : nat) (v : R) :
  filter P (replicate n v) = if decide (P v) then replicate n v else [].
Proof.
  induction n as [|n IH]; [destruct (decide (P v)); reflexivity|].
  cbn [replicate]. rewrite filter_cons, IH.
  destruct (decide (P v)); reflexivity.
Qed.

Lemma filter_one_out (P : R -> Prop) `{!forall x, Decision (P x)}
    (v w : R) (i k : nat) :
  P v -> ~ P w ->
  filter P (replicate i v ++ w :: replicate k v) = replicate (i + k) v.
Proof.
  intros Hv Hw.
  assert (Hkeep : forall n, filter P (replicate n v) = replicate n v)
    by (intros n; rewrite filter_replicate, decide_True by exact Hv; reflexivity).
  rewrite filter_app, filter_cons, !Hkeep, decide_False by exact Hw.
  rewrite replicate_add. reflexivity.
Qed.

Lemma filter_only_out (P : R -> Prop) `{!forall x, Decision (P x)}
    (v w : R) (i k : nat) :
  P v -> ~ P w ->
  filter (fun x => ~ P x) (replicate i v ++ w :: replicate k v) = [w].
Proof.
  intros Hv Hw.
  assert (Hdrop : forall n, filter (fun x => ~ P x) (replicate n v) = [])
    by (intros n; rewrite filter_replicate, decide_False by tauto; reflexivity).
  rewrite filter_app, filter_cons, !Hdrop, decide_True by exact Hw.
  reflexivity.
Qed.

End FilteredAverageValues.

(** In exact arithmetic an average returned by the routine lies between
    any lower and upper bound of the samples.  Doubles can leave the bounds
    by a rounding error: see [rounded_average_leaves_bounds]. *)
Lemma average_between_bounds (samples : list R) (lo hi a : R) :
  Forall (fun v => lo <= v <= hi) samples ->
  average (calculateFilteredAverage samples) = Some a ->
  lo <= a <= hi.
Proof.
  intros Hall. rewrite calculateFilteredAverage_unfold.
  unfold SpecWords.filteredAverage.
  destruct (decide _) as [H0|H0]; [discriminate|].
  assert (Hne : samples <> []) by (intros ->; simpl in H0; congruence).
  destruct (decide _); cbn [average]; intros [= <-].
  - apply mean_between; assumption.
  - apply mean_between.
    + apply retained_nonempty. exact Hne.
    + apply retained_subset. exact Hall.
Qed.

Lemma average_between_bounds_witness : 10 <= 25 <= 40.
Proof.
  apply (average_between_bounds [10; 40; 25; 25] 10 40 25).
  - repeat (apply Forall_cons; split; [lra|]). apply Forall_nil. exact I.
  - rewrite calculateFilteredAverage_unfold.
    unfold SpecWords.filteredAverage, SpecWords.mean, SpecWords.sum. simpl.
    f_equal. lra.
Defined.

(** In exact arithmetic, on one or more samples that are all the same
    value the routine returns that value, keeps every sample and removes
    none.  In doubles the average of equal samples can differ from them in
    the last place: see [rounded_average_of_equal_samples]. *)
Lemma constant_samples_average (n : nat) (v : R) :
  (0 < n)%nat ->
  calculateFilteredAverage (replicate n v)
  = mkFilteredResult (Some v) (replicate n v) 0.
Proof.
  intros Hn.
  destruct (le_lt_dec 10 n) as [Hge|Hlt].
  - rewrite calculateFilteredAverage_all_within.
    + rewrite mean_replicate by exact Hn. reflexivity.
    + rewrite length_replicate. exact Hge.
    + apply Forall_forall. intros x Hx.
      apply elem_of_replicate in Hx. destruct Hx as [-> _].
      unfold SpecWords.within. rewrite mean_replicate by exact Hn.
      pose proof (sqrt_pos (variance (replicate n v))) as Hs.
      rewrite sigma_variance.
      replace (v - v) with 0 by lra. rewrite Rabs_R0. lra.
  - rewrite calculateFilteredAverage_unfold. unfold SpecWords.filteredAverage.
    rewrite length_replicate.
    rewrite decide_False by lia. rewrite decide_True by lia.
    rewrite mean_replicate by exact Hn. reflexivity.
Qed.

Lemma constant_samples_average_witness :
  calculateFilteredAverage (replicate 12 50)
  = mkFilteredResult (Some 50) (replicate 12 50) 0.
Proof. apply (constant_samples_average 12 50). lia. Defined.

Section SingleGlitch.

Variables (v w : R) (i : nat).
Hypothesis Hi : (i <= 9)%nat.

(** Ten readings: nine times [v], and [w] at position [i]. *)
Let glitched : list R := replicate i v ++ w :: replicate (9 - i) v.

Lemma map_replicate (f : R -> R) (n : nat) (x : R) :
  map f (replicate n x) = replicate n (f x).
Proof. induction n as [|n IH]; [reflexivity|]. simpl. rewrite IH. reflexivity. Qed.

Lemma glitched_length : length glitched = 10%nat.
Proof.
  unfold glitched. rewrite length_app, length_cons, !length_replicate. lia.
Qed.

Lemma glitched_counts : INR i + INR (9 - i) = 9.
Proof.
  rewrite <- plus_INR. replace (i + (9 - i))%nat with 9%nat by lia.
  simpl. lra.
Qed.

Lemma glitched_sum_map (f : R -> R) :
  SpecWords.sum (map f glitched) = 9 * f v + f w.
Proof.
  unfold glitched. rewrite map_app. cbn [map].
  rewrite sum_app, sum_cons, !map_replicate, !sum_replicate.
  pose proof glitched_counts. nra.
Qed.

Lemma glitched_mean : SpecWords.mean glitched = v + (w - v) / 10.
Proof.
  unfold SpecWords.mean. rewrite glitched_length.
  rewrite <- (map_id glitched) at 1.
  rewrite (glitched_sum_map (fun x => x)).
  simpl (INR 10). field.
Qed.

Lemma glitched_sigma : SpecWords.sigma glitched = 3 / 10 * Rabs (w - v).
Proof.
  unfold SpecWords.sigma. rewrite glitched_sum_map, glitched_mean, glitched_length.
  replace ((9 * (v - (v + (w - v) / 10)) ^ 2 + (w - (v + (w - v) / 10)) ^ 2)
           / INR 10)
    with (Rsqr (3 / 10 * (w - v))) by (unfold Rsqr; simpl (INR 10); field).
  rewrite sqrt_Rsqr_abs, Rabs_mult. rewrite (Rabs_pos_eq (3 / 10)) by lra.
  reflexivity.
Qed.

Lemma glitched_keeps : SpecWords.within glitched v.
Proof.
  unfold SpecWords.within. rewrite glitched_mean, glitched_sigma.
  replace (v - (v + (w - v) / 10)) with (- (1 / 10) * (w - v)) by field.
  rewrite Rabs_mult, Rabs_Ropp. rewrite (Rabs_pos_eq (1 / 10)) by lra.
  pose proof (Rabs_pos (w - v)). lra.
Qed.

Lemma glitched_drops : w <> v -> ~ SpecWords.within glitched w.
Proof.
  intros Hw. unfold SpecWords.within. rewrite glitched_mean, glitched_sigma.
  replace (w - (v + (w - v) / 10)) with (9 / 10 * (w - v)) by field.
  rewrite Rabs_mult. rewrite (Rabs_pos_eq (9 / 10)) by lra.
  assert (0 < Rabs (w - v)) by (apply Rabs_pos_lt; lra). lra.
Qed.

Lemma glitched_retained : w <> v -> SpecWords.retained glitched = replicate 9 v.
Proof.
  intros Hw. unfold SpecWords.retained, glitched at 2.
  rewrite (filter_one_out _ v w i (9 - i) glitched_keeps (glitched_drops Hw)).
  f_equal. lia.
Qed.

Lemma glitched_discarded : w <> v -> SpecWords.discarded glitched = [w].
Proof.
  intros Hw. unfold SpecWords.discarded, glitched at 2.
  apply (filter_only_out _ v w i (9 - i) glitched_keeps (glitched_drops Hw)).
Qed.

Lemma glitched_result :
  w <> v ->
  calculateFilteredAverage glitched = mkFilteredResult (Some v) (replicate 9 v) 1.
Proof.
  intros Hw. rewrite calculateFilteredAverage_unfold.
  unfold SpecWords.filteredAverage. rewrite glitched_length.
  rewrite decide_False by lia. rewrite decide_False by lia.
  rewrite glitched_retained, glitched_discarded by exact Hw.
  rewrite mean_replicate by lia. reflexivity.
Qed.

End SingleGlitch.

(** In exact arithmetic, among ten readings of which nine are the same
    value and one, at any position, is different, the different one is
    removed and the average is the common value.  In doubles a difference
    whose square underflows removes all ten: see
    [rounded_glitch_removes_all]. *)
Lemma single_glitch_removed (v w : R) (i : nat) :
  (i <= 9)%nat ->
  w <> v ->
  calculateFilteredAverage (replicate i v ++ w :: replicate (9 - i) v)
  = mkFilteredResult (Some v) (replicate 9 v) 1.
Proof. intros Hi Hw. exact (glitched_result v w i Hi Hw). Qed.

Lemma single_glitch_removed_witness :
  calculateFilteredAverage (replicate 3 80 ++ 20 :: replicate (9 - 3) 80)
  = mkFilteredResult (Some 80) (replicate 9 80) 1.
Proof. apply (single_glitch_removed 80 20 3); [lia|lra]. Defined.

(** * What every reachable bottle satisfies *)

Section ReachableBottles.

Lemma validNumbers_map_Num (xs : list R) : validNumbers (map Num xs) = xs.
Proof.
  induction xs as [|x xs IH]; [reflexivity|].
  cbn. unfold validNumbers in IH. rewrite IH. reflexivity.
Qed.

Lemma allNumbers_map_Num (xs : list R) : allNumbers (map Num xs).
Proof. unfold allNumbers. rewrite validNumbers_map_Num. reflexivity. Qed.

Lemma tail_map_Num (xs : list R) : tail (map Num xs) = map Num (tail xs).
Proof. destruct xs; reflexivity. Qed.

Lemma Forall_tail (P : R -> Prop) (xs : list R) :
  Forall P xs -> Forall P (tail xs).
Proof. destruct 1; [constructor|assumption]. Qed.

(** On numbers only, [Math.max] is a number and bounds them all. *)
Lemma Math_max_numbers (xs : list R) :
  xs <> [] ->
  exists peak,
    Math_max (map Num xs) = Finite peak /\ Forall (fun x => x <= peak) xs.
Proof.
  induction xs as [|x xs IH]; [congruence|]. intros _.
  destruct xs as [|y xs].
  - exists x. split; [reflexivity|]. constructor; [lra|constructor].
  - destruct IH as (peak & Hmax & Hall); [congruence|].
    exists (Rmax x peak). split.
    + change (Math_max (map Num (x :: y :: xs)))
        with (match Math_max (map Num (y :: xs)) with
              | MinusInfinity => Finite x
              | Finite z => Finite (Rmax x z)
              | NotANumber => NotANumber
              end).
      rewrite Hmax. reflexivity.
    + constructor; [apply Rmax_l|].
      eapply Forall_impl; [exact Hall|]. simpl. intros z Hz.
      pose proof (Rmax_r x peak). lra.
Qed.

Lemma window_length (l : list R) (x : R) :
  (length l <= HISTORY_SIZE)%nat ->
  length ((if Nat.leb HISTORY_SIZE (length l) then tail l else l) ++ [x])
  = if Nat.leb HISTORY_SIZE (length l) then HISTORY_SIZE else S (length l).
Proof.
  intros Hb. rewrite length_app.
  destruct (Nat.leb_spec HISTORY_SIZE (length l)) as [Hge|Hlt].
  - destruct l; simpl in *; unfold HISTORY_SIZE in *; lia.
  - simpl. lia.
Qed.

Lemma ratchet_above (cur : option R) (avgPercent : R) :
  exists hw, ratchet cur avgPercent = Some hw /\ avgPercent <= hw.
Proof.
  destruct cur as [c|]; simpl.
  - destruct (decide (avgPercent > c)); eexists; (split; [reflexivity|lra]).
  - eexists; split; [reflexivity|lra].
Qed.

Lemma newBottle_invariant (p : jsnum) : bottleInvariant (newBottle p).
Proof.
  destruct p as [x|]; constructor; simpl.
  - reflexivity.
  - unfold HISTORY_SIZE. lia.
  - split; [intros [? [=]]|unfold HISTORY_SIZE; discriminate].
  - discriminate.
  - intros level [= <-]. constructor; [lra|constructor].
  - reflexivity.
  - reflexivity.
  - unfold HISTORY_SIZE. lia.
  - split; [intros [? [=]]|unfold HISTORY_SIZE; discriminate].
  - discriminate.
  - discriminate.
  - reflexivity.
Qed.

Lemma ingestInvalid_invariant (b : Bottle) :
  bottleInvariant b -> bottleInvariant (ingestInvalid b).
Proof.
  intros [Hnum Hbound Hfull Habove Hinit Hcap].
  pose proof (ingestInvalid_short b Hbound) as Hshort.
  pose proof (ingestInvalid_clears b Hshort) as Hclear.
  pose proof (ingestInvalid_history b) as Hhist.
  assert (Hlen : (length (percentHistory (ingestInvalid b)) < HISTORY_SIZE)%nat).
  { rewrite Hhist, tail_length. unfold HISTORY_SIZE in *.
    destruct (percentHistory b); simpl in *; lia. }
  constructor.
  - rewrite Hhist. unfold allNumbers in *. rewrite <- Hnum.
    rewrite tail_map_Num, validNumbers_map_Num. reflexivity.
  - lia.
  - rewrite Hclear. split; [intros [? [=]]|lia].
  - rewrite Hclear. discriminate.
  - intros level Hlevel. rewrite Hhist.
    change (initialPercent (ingestInvalid b)) with (initialPercent b) in Hlevel.
    specialize (Hinit level Hlevel).
    unfold allNumbers in Hnum. rewrite <- Hnum.
    rewrite tail_map_Num, validNumbers_map_Num.
    apply Forall_tail. exact Hinit.
  - exact Hcap.
Qed.

Lemma ingestValid_invariant (b : Bottle) (x : R) :
  bottleInvariant b -> bottleInvariant (ingestValid b x).
Proof.
  intros [Hnum Hbound Hfull Habove Hinit Hcap].
  set (xs := validNumbers (percentHistory b)) in *.
  set (xs' := (if Nat.leb HISTORY_SIZE (length xs) then tail xs else xs) ++ [x]).
  assert (Hlenxs : length (percentHistory b) = length xs).
  { unfold allNumbers in Hnum. rewrite <- Hnum. fold xs. apply length_map. }
  assert (Hhist : percentHistory (ingestValid b x) = map Num xs').
  { rewrite ingestValid_history, Hlenxs. unfold allNumbers in Hnum.
    rewrite <- Hnum. fold xs. unfold xs'.
    rewrite map_app. destruct (Nat.leb _ _); [rewrite tail_map_Num|]; reflexivity. }
  assert (Hvalid : validNumbers (percentHistory (ingestValid b x)) = xs')
    by (rewrite Hhist; apply validNumbers_map_Num).
  assert (Hlen' : length xs'
                  = if Nat.leb HISTORY_SIZE (length xs) then HISTORY_SIZE
                    else S (length xs)).
  { apply window_length. rewrite <- Hlenxs. exact Hbound. }
  assert (Hne' : xs' <> []).
  { intros Hnil. apply (f_equal length) in Hnil. unfold xs' in Hnil.
    rewrite length_app in Hnil. simpl in Hnil. lia. }
  assert (Hmark : maxAvgPercent (ingestValid b x)
    = if Nat.leb HISTORY_SIZE (length xs')
      then match average (calculateFilteredAverage xs') with
           | Some a => ratchet (maxAvgPercent b) a
           | None => maxAvgPercent b
           end
      else maxAvgPercent b).
  { rewrite <- Hvalid. reflexivity. }
  destruct (average_defined xs' Hne') as (a & Ha).
  destruct (ratchet_above (maxAvgPercent b) a) as (hw' & Hhw' & Hle').
  rewrite Ha, Hhw' in Hmark.
  constructor.
  - rewrite Hhist. apply allNumbers_map_Num.
  - rewrite Hhist, length_map, Hlen'.
    destruct (Nat.leb_spec HISTORY_SIZE (length xs)); unfold HISTORY_SIZE in *; lia.
  - rewrite Hhist, length_map, Hmark.
    destruct (Nat.leb_spec HISTORY_SIZE (length xs')) as [Hge|Hlt].
    + split; [|eauto]. intros _. rewrite Hlen' in *.
      destruct (Nat.leb_spec HISTORY_SIZE (length xs));
        unfold HISTORY_SIZE in *; lia.
    + assert (Hnot : ~ is_Some (maxAvgPercent b)).
      { rewrite Hfull, Hlenxs. rewrite Hlen' in Hlt.
        destruct (Nat.leb_spec HISTORY_SIZE (length xs)); lia. }
      split; [tauto|lia].
  - intros hw Hhw. rewrite Hvalid, Ha. rewrite Hmark in Hhw.
    destruct (Nat.leb_spec HISTORY_SIZE (length xs')) as [Hge|Hlt].
    + exists a. split; [reflexivity|]. congruence.
    + exfalso.
      assert (Hnot : ~ is_Some (maxAvgPercent b)).
      { rewrite Hfull, Hlenxs. rewrite Hlen' in Hlt.
        destruct (Nat.leb_spec HISTORY_SIZE (length xs)); lia. }
      apply Hnot. eauto.
  - intros level Hlevel. rewrite Hvalid.
    destruct (Math_max_numbers xs' Hne') as (peak & Hpeak & Hall).
    rewrite <- Hhist in Hpeak.
    rewrite (ingestValid_initial b x peak Hpeak) in Hlevel.
    destruct (decide (peak > nullToNumber (initialPercent b))) as [Hgt|Hngt].
    + injection Hlevel as <-. exact Hall.
    + rewrite Hlevel in Hngt. simpl in Hngt.
      eapply Forall_impl; [exact Hall|]. simpl. intros z Hz. lra.
  - exact Hcap.
Qed.

Lemma updateBottle_invariant (b : Bottle) (p : jsnum) :
  bottleInvariant b -> bottleInvariant (updateBottle b p).
Proof.
  destruct p; [apply ingestValid_invariant|apply ingestInvalid_invariant].
Qed.

Lemma reachable_invariant (m : gmap string Bottle) :
  reachable m ->
  forall (color : string) (bottle : Bottle),
    m !! color = Some bottle -> bottleInvariant bottle.
Proof.
  induction 1 as [|m c p Hm IH]; intros color bottle Hlook.
  - rewrite lookup_empty in Hlook. discriminate.
  - destruct (decide (c = color)) as [->|Hne].
    + rewrite ingest_lookup in Hlook. injection Hlook as <-.
      destruct (m !! color) as [b|] eqn:Eb.
      * apply updateBottle_invariant. exact (IH color b Eb).
      * apply newBottle_invariant.
    + rewrite ingest_lookup_ne in Hlook by exact Hne.
      exact (IH color bottle Hlook).
Qed.

Lemma reachable_ingestAll (readings : list jsnum) (m : gmap string Bottle)
    (color : string) :
  reachable m -> reachable (ingestAll m color readings).
Proof.
  revert m. induction readings as [|p readings IH]; intros m Hm; [exact Hm|].
  apply (IH (ingest m color p)). apply reachable_ingest. exact Hm.
Qed.

End ReachableBottles.

(** X5. In a reachable registry every history holds numbers only: the
    filter on [typeof] and [isNaN] that [onData] and [updateBottleTable]
    apply to a history keeps every entry. *)
Theorem reachable_history_holds_numbers (m : gmap string Bottle)
    (color : string) (bottle : Bottle) :
  reachable m ->
  m !! color = Some bottle ->
  map Num (validNumbers (percentHistory bottle)) = percentHistory bottle /\
  length (validNumbers (percentHistory bottle)) = length (percentHistory bottle).
Proof.
  intros Hm Hlook.
  destruct (reachable_invariant m Hm color bottle Hlook) as [Hnum _ _ _ _ _].
  split; [exact Hnum|].
  unfold allNumbers in Hnum. rewrite <- Hnum at 2. rewrite length_map. reflexivity.
Qed.

Lemma reachable_history_holds_numbers_witness :
  map Num (validNumbers (percentHistory (newBottle (Num 5))))
  = percentHistory (newBottle (Num 5)) /\
  length (validNumbers (percentHistory (newBottle (Num 5))))
  = length (percentHistory (newBottle (Num 5))).
Proof.
  apply (reachable_history_holds_numbers (ingest ∅ "red" (Num 5)) "red").
  - apply reachable_ingest, reachable_empty.
  - rewrite ingest_lookup, lookup_empty. reflexivity.
Defined.

(** X8. In a reachable registry an initial level that is set bounds every
    reading of the history from above. *)
Theorem initial_level_bounds_history (m : gmap string Bottle)
    (color : string) (bottle : Bottle) (level : R) :
  reachable m ->
  m !! color = Some bottle ->
  initialPercent bottle = Some level ->
  forall x, Num x ∈ percentHistory bottle -> x <= level.
Proof.
  intros Hm Hlook Hlevel x Hx.
  destruct (reachable_invariant m Hm color bottle Hlook)
    as [Hnum _ _ _ Hinit _].
  specialize (Hinit level Hlevel). rewrite Forall_forall in Hinit.
  apply Hinit. unfold allNumbers in Hnum. rewrite <- Hnum in Hx.
  apply list_elem_of_fmap in Hx. destruct Hx as (y & [= ->] & Hy). exact Hy.
Qed.

Lemma initial_level_bounds_history_witness : 5 <= 5.
Proof.
  apply (initial_level_bounds_history (ingest ∅ "red" (Num 5)) "red"
           (newBottle (Num 5)) 5).
  - apply reachable_ingest, reachable_empty.
  - rewrite ingest_lookup, lookup_empty. reflexivity.
  - reflexivity.
  - apply list_elem_of_here.
Defined.

(** X9. A reading, number or not, never lowers and never unsets an initial
    level that is set. *)
Theorem initial_level_never_lowered (bottle : Bottle) (p : jsnum) (level : R) :
  initialPercent bottle = Some level ->
  exists level',
    initialPercent (updateBottle bottle p) = Some level' /\ level <= level'.
Proof.
  intros Hlevel. destruct p as [x|]; unfold updateBottle.
  - destruct (Math_max (percentHistory (ingestValid bottle x))) as [|peak|] eqn:Hmax.
    + exists level. split; [|lra].
      change (initialPercent (ingestValid bottle x))
        with (match Math_max (percentHistory (ingestValid bottle x)) with
              | Finite maxPercent =>
                  if decide (maxPercent > nullToNumber (initialPercent bottle))
                  then Some maxPercent
                  else initialPercent bottle
              | MinusInfinity | NotANumber => initialPercent bottle
              end).
      rewrite Hmax. exact Hlevel.
    + rewrite (ingestValid_initial_set bottle x peak level Hmax Hlevel).
      eexists. split; [reflexivity|].
      destruct (decide (peak > level)); lra.
    + exists level. split; [|lra].
      change (initialPercent (ingestValid bottle x))
        with (match Math_max (percentHistory (ingestValid bottle x)) with
              | Finite maxPercent =>
                  if decide (maxPercent > nullToNumber (initialPercent bottle))
                  then Some maxPercent
                  else initialPercent bottle
              | MinusInfinity | NotANumber => initialPercent bottle
              end).
      rewrite Hmax. exact Hlevel.
  - exists level. split; [exact Hlevel|lra].
Qed.

Lemma initial_level_never_lowered_witness :
  exists level',
    initialPercent (updateBottle (mkBottle [Num 80] (Some 80) None 1) (Num 20))
    = Some level' /\ 80 <= level'.
Proof.
  apply (initial_level_never_lowered (mkBottle [Num 80] (Some 80) None 1)
           (Num 20) 80).
  reflexivity.
Defined.

(** * Batches of score items *)

Section Batches.

Implicit Types m : gmap string Bottle.

Lemma processItems_app m (before after : list scoreItem) :
  processItems m (before ++ after)
  = match processItems m before with
    | Done m' => processItems m' after
    | Thrown m' => Thrown m'
    end.
Proof.
  revert m. induction before as [|item before IH]; intros m; [reflexivity|].
  simpl. destruct (processItem m item); [apply IH|reflexivity].
Qed.

Lemma processItem_frame m (item : scoreItem) (color : string) :
  itemColor item <> Some color ->
  registryOf (processItem m item) !! color = m !! color.
Proof.
  intros Hc.
  destruct item as [[[| |fields]|]|fields|]; simpl in *; try reflexivity;
    destruct (bottle_color fields) as [c|]; simpl; try reflexivity;
    apply ingest_lookup_ne; congruence.
Qed.

Lemma processItem_keeps m (item : scoreItem) (color : string) :
  is_Some (m !! color) ->
  is_Some (registryOf (processItem m item) !! color).
Proof.
  intros Hsome.
  destruct item as [[[| |fields]|]|fields|]; simpl in *; try exact Hsome;
    destruct (bottle_color fields) as [c|]; simpl; try exact Hsome;
    (destruct (decide (c = color)) as [->|Hne];
     [rewrite ingest_lookup; eauto
     |rewrite ingest_lookup_ne by exact Hne; exact Hsome]).
Qed.

End Batches.

(** X10. When a score item of a batch is the JSON text of [null], the
    items before it are applied, the callback is left by the exception,
    and neither the items after it nor the table are reached. *)
Theorem items_after_null_are_lost (m m' : gmap string Bottle)
    (before after : list scoreItem) :
  processItems m before = Done m' ->
  onData m (before ++ ItemString (Some DNull) :: after) = Thrown m'.
Proof.
  intros Hbefore. unfold onData.
  rewrite processItems_app, Hbefore. reflexivity.
Qed.

Lemma items_after_null_are_lost_witness :
  onData ∅ ([ItemObject (mkFields (Some "red"%string) (RawNumber (Num 5)))]
            ++ ItemString (Some DNull)
            :: [ItemObject (mkFields (Some "blue"%string) (RawNumber (Num 7)))])
  = Thrown (ingest ∅ "red" (Num 5)).
Proof.
  apply (items_after_null_are_lost ∅ (ingest ∅ "red" (Num 5))). reflexivity.
Defined.

(** X11. A batch changes only the bottles of the colours its items name,
    and it removes no bottle, whether it raises or not. *)
Theorem batch_touches_only_its_colours (m : gmap string Bottle)
    (scores : list scoreItem) (color : string) :
  (Forall (fun item => itemColor item <> Some color) scores ->
   registryOf (processItems m scores) !! color = m !! color) /\
  (is_Some (m !! color) ->
   is_Some (registryOf (processItems m scores) !! color)).
Proof.
  split.
  - intros Hall. revert m.
    induction Hall as [|item scores Hitem _ IH]; intros m; [reflexivity|].
    simpl. pose proof (processItem_frame m item color Hitem) as Hf.
    destruct (processItem m item) as [m1|m1]; simpl in Hf.
    + rewrite IH. exact Hf.
    + exact Hf.
  - revert m. induction scores as [|item scores IH]; intros m Hsome; [exact Hsome|].
    simpl. pose proof (processItem_keeps m item color Hsome) as Hk.
    destruct (processItem m item) as [m1|m1]; simpl in Hk.
    + apply IH. exact Hk.
    + exact Hk.
Qed.

Lemma batch_touches_only_its_colours_witness :
  registryOf (processItems (ingest ∅ "blue" (Num 7))
                [ItemObject (mkFields (Some "red"%string) (RawNumber (Num 5)))])
    !! "blue"%string
  = ingest ∅ "blue" (Num 7) !! "blue"%string.
Proof.
  apply (batch_touches_only_its_colours (ingest ∅ "blue" (Num 7))).
  apply Forall_cons. split; [simpl; congruence|apply Forall_nil; exact I].
Defined.

(** X12. Over any run of numbers the high-water average of a bottle that
    has one only rises or stays. *)
Theorem highWater_over_valid_run (readings : list R) (bottle : Bottle) (hw : R) :
  maxAvgPercent bottle = Some hw ->
  exists hw',
    maxAvgPercent (fold_left updateBottle (map Num readings) bottle) = Some hw' /\
    hw <= hw'.
Proof.
  revert bottle hw. induction readings as [|x readings IH]; intros bottle hw Hhw.
  - exists hw. split; [exact Hhw|lra].
  - cbn [map fold_left updateBottle].
    pose proof (ingestValid_maxAvg bottle x) as Hstep. cbv zeta in Hstep.
    rewrite Hhw in Hstep. destruct Hstep as (mid & Hmid & Hle & _).
    destruct (IH (ingestValid bottle x) mid Hmid) as (hw' & Hhw' & Hle').
    exists hw'. split; [exact Hhw'|lra].
Qed.

Lemma highWater_over_valid_run_witness :
  exists hw',
    maxAvgPercent (fold_left updateBottle (map Num [60; 60])
                     (mkBottle [Num 80] (Some 80) (Some 80) 1)) = Some hw' /\
    80 <= hw'.
Proof.
  apply (highWater_over_valid_run [60; 60]
           (mkBottle [Num 80] (Some 80) (Some 80) 1) 80).
  reflexivity.
Defined.

(** * Camera options *)

Section ResolutionOptions.

Lemma orN_nonzero (value : option N) (fallback : N) :
  fallback <> 0%N -> orN value fallback <> 0%N.
Proof.
  intros Hf. destruct value as [n|]; simpl; [|exact Hf].
  destruct (N.eqb_spec n 0); assumption.
Qed.

Lemma hasResolution_true (w h : N) (l : list Resolution) :
  hasResolution w h l = true <->
  exists r, r ∈ l /\ res_w r = w /\ res_h r = h.
Proof.
  unfold hasResolution. rewrite existsb_exists. split.
  - intros (r & Hin & Hr). apply andb_true_iff in Hr. destruct Hr as [Hw Hh].
    apply N.eqb_eq in Hw, Hh. exists r. split; [apply list_elem_of_In; exact Hin|].
    split; assumption.
  - intros (r & Hin & Hw & Hh). exists r. split; [apply list_elem_of_In; exact Hin|].
    apply andb_true_iff. split; apply N.eqb_eq; assumption.
Qed.

(** With a maximum that is one of the common resolutions and admitted by
    the minimum, the filter starts with it. *)
Lemma filter_starts_with_maximum (minW minH maxW maxH : N) (r : Resolution) :
  r ∈ commonResolutions ->
  res_w r = maxW -> res_h r = maxH ->
  (minW <= maxW)%N -> (minH <= maxH)%N ->
  exists rest,
    filter (fun res =>
              (minW <= res_w res)%N /\ (res_w res <= maxW)%N /\
              (minH <= res_h res)%N /\ (res_h res <= maxH)%N)
           commonResolutions
    = r :: rest.
Proof.
  intros Hin Hw Hh HminW HminH. unfold commonResolutions in *.
  repeat (apply elem_of_cons in Hin; destruct Hin as [->|Hin]);
    [..|inversion Hin]; simpl in Hw, Hh; subst maxW maxH;
    repeat (rewrite filter_cons, decide_False by (simpl; lia));
    rewrite filter_cons, decide_True by (simpl; lia);
    eexists; reflexivity.
Qed.

Lemma resolutionsInRange_head (capabilities : Capabilities) :
  exists label rest,
    resolutionsInRange capabilities
    = mkResolution (maxWidth capabilities) (maxHeight capabilities) label :: rest.
Proof.
  unfold resolutionsInRange. cbv zeta.
  pose proof (orN_nonzero (cap_width capabilities ≫= ulong_max) 1920) as HW.
  pose proof (orN_nonzero (cap_height capabilities ≫= ulong_max) 1080) as HH.
  fold (maxWidth capabilities) in HW. fold (maxHeight capabilities) in HH.
  match goal with
  | |- context [filter ?Q commonResolutions] => set (P := Q)
  end.
  destruct (hasResolution _ _ (filter P commonResolutions)) eqn:Estd.
  - simpl. apply hasResolution_true in Estd.
    destruct Estd as (r & Hin & Hw & Hh).
    apply list_elem_of_filter in Hin. destruct Hin as [HP Hin].
    unfold P in HP. destruct HP as (H1 & H2 & H3 & H4).
    destruct (filter_starts_with_maximum (minWidth capabilities)
                (minHeight capabilities) (maxWidth capabilities)
                (maxHeight capabilities) r Hin Hw Hh) as (rest & Hrest);
      [lia|lia|].
    fold P in Hrest. rewrite Hrest.
    destruct r as [w h label]. simpl in Hw, Hh. subst w h. eauto.
  - destruct (N.eqb_spec (maxWidth capabilities) 0) as [E|_]; [lia|].
    destruct (N.eqb_spec (maxHeight capabilities) 0) as [E|_]; [lia|].
    simpl. eauto.
Qed.

Lemma resolutionOptions_inRange (capabilities : Capabilities) :
  resolutionOptions capabilities = resolutionsInRange capabilities.
Proof.
  unfold resolutionOptions. cbv zeta.
  destruct (resolutionsInRange_head capabilities) as (label & rest & ->).
  reflexivity.
Qed.

End ResolutionOptions.

(** X14. The resolution select is never empty and its first option is the
    largest resolution the camera reports (1920 by 1080 for what it does
    not report); the VGA fallback for an empty list is never used. *)
Theorem first_resolution_is_maximum (capabilities : Capabilities) :
  resolutionOptions capabilities = resolutionsInRange capabilities /\
  exists label rest,
    resolutionOptions capabilities
    = mkResolution (maxWidth capabilities) (maxHeight capabilities) label :: rest.
Proof.
  split; [apply resolutionOptions_inRange|].
  rewrite resolutionOptions_inRange. apply resolutionsInRange_head.
Qed.

Section ResolutionOptionsFit.

Lemma commonResolutions_distinct : NoDup (map sizeOf commonResolutions).
Proof. apply (bool_decide_unpack _). vm_compute. exact I. Qed.

Lemma NoDup_map_filter (P : Resolution -> Prop)
    `{!forall r, Decision (P r)} (l : list Resolution) :
  NoDup (map sizeOf l) -> NoDup (map sizeOf (filter P l)).
Proof.
  induction l as [|r l IH]; [intros _; constructor|].
  cbn [map]. intros Hnd. apply NoDup_cons in Hnd. destruct Hnd as [Hnotin Hnd].
  rewrite filter_cons. destruct (decide (P r)); [|exact (IH Hnd)].
  cbn [map]. apply NoDup_cons. split; [|exact (IH Hnd)].
  intros Hin. apply Hnotin.
  apply list_elem_of_fmap in Hin. destruct Hin as (r' & Heq & Hr').
  apply list_elem_of_filter in Hr'. destruct Hr' as [_ Hr'].
  apply list_elem_of_fmap. exists r'. split; assumption.
Qed.

End ResolutionOptionsFit.

(** X15. No option of the resolution select exceeds the largest width or
    height of the camera, and no width and height is offered twice. *)
Theorem resolution_options_fit (capabilities : Capabilities) :
  Forall (fun r => (res_w r <= maxWidth capabilities)%N /\
                   (res_h r <= maxHeight capabilities)%N)
         (resolutionOptions capabilities) /\
  NoDup (map sizeOf (resolutionOptions capabilities)).
Proof.
  rewrite resolutionOptions_inRange. unfold resolutionsInRange. cbv zeta.
  match goal with
  | |- context [filter ?Q commonResolutions] => set (P := Q)
  end.
  assert (Hfit : Forall (fun r => (res_w r <= maxWidth capabilities)%N /\
                                  (res_h r <= maxHeight capabilities)%N)
                        (filter P commonResolutions)).
  { apply Forall_forall. intros r Hr. apply list_elem_of_filter in Hr.
    destruct Hr as [(_ & H2 & _ & H4) _]. split; assumption. }
  pose proof (NoDup_map_filter P commonResolutions commonResolutions_distinct)
    as Hnd.
  destruct (hasResolution _ _ (filter P commonResolutions)) eqn:Estd.
  - simpl. split; assumption.
  - destruct (negb _ && _ && _); [|split; assumption].
    split.
    + constructor; [simpl; lia|exact Hfit].
    + cbn [map]. apply NoDup_cons. split; [|exact Hnd].
      intros Hin. apply list_elem_of_fmap in Hin.
      destruct Hin as (r & Heq & Hr). unfold sizeOf in Heq. simpl in Heq.
      injection Heq as Hw Hh.
      assert (Htrue : hasResolution (maxWidth capabilities)
                        (maxHeight capabilities) (filter P commonResolutions)
                      = true).
      { apply hasResolution_true. exists r. split; [exact Hr|]. split; congruence. }
      congruence.
Qed.

(** X16. A value the code assigns to a select is one of the options of
    that select: the resolution it assigns (the current settings, or 1280
    by 720) is the width and height of a resolution option, and the frame
    rate it assigns (the rounded current rate, or 30) is a frame-rate
    option. *)
Theorem selected_values_are_offered (capabilities : Capabilities)
    (currentSettings : Settings) :
  (forall w h,
     selectedResolution capabilities currentSettings = Some (w, h) ->
     exists r, r ∈ resolutionOptions capabilities /\ sizeOf r = (w, h)) /\
  (forall fps,
     selectedFrameRate capabilities currentSettings = Some fps ->
     fps ∈ frameRateOptions capabilities).
Proof.
  split.
  - intros w h. unfold selectedResolution. cbv zeta.
    destruct (set_width currentSettings) as [cw|],
             (set_height currentSettings) as [ch|]; simpl.
    1: destruct (hasResolution cw ch _) eqn:Ecur;
       [intros [= <- <-]; apply hasResolution_true in Ecur;
        destruct Ecur as (r & Hr & <- & <-); exists r; split; [exact Hr|reflexivity]|].
    all: destruct (hasResolution 1280 720 _) eqn:E720; [|discriminate];
         intros [= <- <-]; apply hasResolution_true in E720;
         destruct E720 as (r & Hr & Hw & Hh); exists r; split; [exact Hr|];
         unfold sizeOf; congruence.
  - intros fps. unfold selectedFrameRate. cbv zeta.
    destruct (set_frameRate currentSettings) as [rate|].
    + destruct (bool_decide (Math_round rate ∈ _)) eqn:Ecur.
      * intros [= <-]. apply bool_decide_eq_true in Ecur. exact Ecur.
      * destruct (bool_decide (30%Z ∈ _)) eqn:E30; [|discriminate].
        intros [= <-]. apply bool_decide_eq_true in E30. exact E30.
    + destruct (bool_decide (30%Z ∈ _)) eqn:E30; [|discriminate].
      intros [= <-]. apply bool_decide_eq_true in E30. exact E30.
Qed.

Lemma selected_values_are_offered_witness :
  exists r,
    r ∈ resolutionOptions
          (mkCapabilities (Some (mkULongRange (Some 320%N) (Some 1280%N)))
             (Some (mkULongRange (Some 240%N) (Some 720%N))) None) /\
    sizeOf r = (640%N, 480%N).
Proof.
  apply (selected_values_are_offered _
           (mkSettings (Some 640%N) (Some 480%N) None)).
  vm_compute. reflexivity.
Defined.

Section FrameRateOptions.

#[local] Instance flip_Zle_total : Total (flip Z.le).
Proof. intros x y. unfold flip. lia. Qed.

#[local] Instance flip_Zle_trans : Transitive (flip Z.le).
Proof. intros x y z. unfold flip. lia. Qed.

Lemma sortDescending_sorted (l : list Z) :
  StronglySorted (flip Z.le) (sortDescending l).
Proof. apply StronglySorted_merge_sort; typeclasses eauto. Qed.

Lemma sortDescending_perm (l : list Z) : sortDescending l ≡ₚ l.
Proof. apply merge_sort_Permutation. Qed.

Lemma strictly_descending (l : list Z) :
  StronglySorted (flip Z.le) l -> NoDup l ->
  StronglySorted (fun a b => (b < a)%Z) l.
Proof.
  induction 1 as [|x l Hs IH Hall]; intros Hnd; [constructor|].
  apply NoDup_cons in Hnd. destruct Hnd as [Hnotin Hnd].
  constructor; [exact (IH Hnd)|].
  rewrite Forall_forall in *. intros y Hy.
  specialize (Hall y Hy). unfold flip in Hall.
  assert (y <> x) by (intros ->; exact (Hnotin Hy)). lia.
Qed.

Lemma ratesBeforeSort_distinct (capabilities : Capabilities) :
  NoDup (ratesBeforeSort capabilities).
Proof.
  unfold ratesBeforeSort. cbv zeta.
  match goal with
  | |- context [filter ?Q commonFps] => set (P := Q)
  end.
  assert (Hnd : NoDup (filter P commonFps)).
  { apply NoDup_filter. apply (bool_decide_unpack _). vm_compute. exact I. }
  destruct (bool_decide (Qfloor _ ∈ filter P commonFps)) eqn:Ein; simpl;
    [exact Hnd|].
  destruct (bool_decide (0 < _)%Q); simpl; [|exact Hnd].
  apply NoDup_cons. split; [|exact Hnd].
  apply bool_decide_eq_false in Ein. exact Ein.
Qed.

Lemma ratesBeforeSort_below (capabilities : Capabilities) (fps : Z) :
  fps ∈ ratesBeforeSort capabilities ->
  (fps <= Qfloor (maxFrameRate capabilities))%Z.
Proof.
  unfold ratesBeforeSort. cbv zeta.
  match goal with
  | |- context [filter ?Q commonFps] => set (P := Q)
  end.
  assert (Hfilter : forall f, f ∈ filter P commonFps ->
                              (f <= Qfloor (maxFrameRate capabilities))%Z).
  { intros f Hf. apply list_elem_of_filter in Hf. destruct Hf as [[_ Hle] _].
    rewrite <- (Qfloor_Z f). apply Qfloor_resp_le. exact Hle. }
  destruct (negb _ && _); [|apply Hfilter].
  intros Hin. apply elem_of_cons in Hin. destruct Hin as [->|Hin]; [lia|].
  apply Hfilter. exact Hin.
Qed.

Lemma ratesBeforeSort_has_floor (capabilities : Capabilities) :
  (0 < maxFrameRate capabilities)%Q ->
  Qfloor (maxFrameRate capabilities) ∈ ratesBeforeSort capabilities.
Proof.
  intros Hpos. unfold ratesBeforeSort. cbv zeta.
  match goal with
  | |- context [filter ?Q commonFps] => set (P := Q)
  end.
  rewrite (bool_decide_eq_true_2 _ Hpos), andb_true_r.
  destruct (bool_decide (Qfloor _ ∈ filter P commonFps)) eqn:Ein; simpl.
  - apply bool_decide_eq_true in Ein. exact Ein.
  - apply list_elem_of_here.
Qed.

End FrameRateOptions.

(** X17. The frame-rate select is never empty, and its options go strictly
    down: the largest comes first and none is offered twice. *)
Theorem frame_rate_options_descend (capabilities : Capabilities) :
  frameRateOptions capabilities <> [] /\
  StronglySorted (fun a b => (b < a)%Z) (frameRateOptions capabilities).
Proof.
  unfold frameRateOptions. cbv zeta.
  pose proof (sortDescending_sorted (ratesBeforeSort capabilities)) as Hs.
  pose proof (sortDescending_perm (ratesBeforeSort capabilities)) as Hp.
  pose proof (ratesBeforeSort_distinct capabilities) as Hnd.
  rewrite <- Hp in Hnd.
  destruct (sortDescending (ratesBeforeSort capabilities)) as [|x l]; simpl.
  - split; [discriminate|]. repeat constructor.
  - split; [discriminate|]. apply strictly_descending; assumption.
Qed.

(** X18. When the largest frame rate of the camera is positive, the first
    option of the select is that rate rounded down, and no option exceeds
    the rate. *)
Theorem first_frame_rate_is_floor_of_maximum (capabilities : Capabilities) :
  (0 < maxFrameRate capabilities)%Q ->
  (exists rest,
     frameRateOptions capabilities
     = Qfloor (maxFrameRate capabilities) :: rest) /\
  Forall (fun fps => (inject_Z fps <= maxFrameRate capabilities)%Q)
         (frameRateOptions capabilities).
Proof.
  intros Hpos. unfold frameRateOptions. cbv zeta.
  pose proof (sortDescending_sorted (ratesBeforeSort capabilities)) as Hs.
  pose proof (sortDescending_perm (ratesBeforeSort capabilities)) as Hp.
  pose proof (ratesBeforeSort_has_floor capabilities Hpos) as Hfloor.
  assert (Hbelow : forall fps,
            fps ∈ sortDescending (ratesBeforeSort capabilities) ->
            (fps <= Qfloor (maxFrameRate capabilities))%Z).
  { intros fps Hin. rewrite Hp in Hin.
    apply ratesBeforeSort_below. exact Hin. }
  rewrite <- Hp in Hfloor.
  destruct (sortDescending (ratesBeforeSort capabilities)) as [|x l];
    [inversion Hfloor|]. simpl.
  assert (Hx : x = Qfloor (maxFrameRate capabilities)).
  { pose proof (Hbelow x (list_elem_of_here x l)) as Hle.
    apply elem_of_cons in Hfloor. destruct Hfloor as [Heq|Hin]; [congruence|].
    apply StronglySorted_inv in Hs. destruct Hs as [_ Hall].
    rewrite Forall_forall in Hall. specialize (Hall _ Hin). unfold flip in Hall.
    lia. }
  split; [exists l; rewrite Hx; reflexivity|].
  apply Forall_forall. intros fps Hin.
  apply Qle_trans with (inject_Z (Qfloor (maxFrameRate capabilities))).
  - rewrite <- Zle_Qle. apply Hbelow. exact Hin.
  - apply Qfloor_le.
Qed.

Lemma first_frame_rate_is_floor_of_maximum_witness :
  exists rest,
    frameRateOptions
      (mkCapabilities None None
         (Some (mkDoubleRange (Some 1%Q) (Some (59 # 2)%Q))))
    = 29%Z :: rest.
Proof.
  apply (first_frame_rate_is_floor_of_maximum
           (mkCapabilities None None
              (Some (mkDoubleRange (Some 1%Q) (Some (59 # 2)%Q))))).
  vm_compute. reflexivity.
Defined.

(** * The proxy server *)

(** The object of the headers, copied and redacted: the names are kept,
    the two spellings of the authorization header show the placeholder or
    an empty value, and the other headers are as they were. *)
Lemma redactHeaders_fields (headersObj : gmap string string)
    (name : string) :
  (is_Some (redactHeaders headersObj !! name) <-> is_Some (headersObj !! name)) /\
  (name = "Authorization"%string \/ name = "authorization"%string ->
   forall value, redactHeaders headersObj !! name = Some value ->
     value = REDACTED \/ value = ""%string) /\
  (name <> "Authorization"%string -> name <> "authorization"%string ->
   redactHeaders headersObj !! name = headersObj !! name).
Proof.
  unfold redactHeaders. cbv zeta.
  assert (Hempty : forall v : option string,
             truthyString v = false -> forall s, v = Some s -> s = ""%string).
  { intros [s'|] Hv s [= <-]. simpl in Hv.
    destruct (String.eqb_spec s' ""); [assumption|discriminate]. }
  assert (Hsome : forall v : option string, truthyString v = true -> is_Some v).
  { intros [s'|]; [eauto|discriminate]. }
  destruct (truthyString (headersObj !! "Authorization"%string)) eqn:EA.
  - rewrite lookup_insert_ne by discriminate.
    destruct (truthyString (headersObj !! "authorization"%string)) eqn:Ea.
    + split; [|split].
      * destruct (decide (name = "authorization"%string)) as [->|Hn1];
          [rewrite lookup_insert_eq; split; eauto|].
        rewrite lookup_insert_ne by congruence.
        destruct (decide (name = "Authorization"%string)) as [->|Hn2];
          [rewrite lookup_insert_eq; split; eauto|].
        rewrite lookup_insert_ne by congruence. reflexivity.
      * intros [->| ->] value.
        -- rewrite lookup_insert_ne by discriminate. rewrite lookup_insert_eq.
           intros [= <-]. left. reflexivity.
        -- rewrite lookup_insert_eq. intros [= <-]. left. reflexivity.
      * intros H1 H2. rewrite !lookup_insert_ne by congruence. reflexivity.
    + split; [|split].
      * destruct (decide (name = "Authorization"%string)) as [->|Hn2];
          [rewrite lookup_insert_eq; split; eauto|].
        rewrite lookup_insert_ne by congruence. reflexivity.
      * intros [->| ->] value.
        -- rewrite lookup_insert_eq. intros [= <-]. left. reflexivity.
        -- rewrite lookup_insert_ne by discriminate. intros Hv. right.
           exact (Hempty _ Ea _ Hv).
      * intros H1 H2. rewrite !lookup_insert_ne by congruence. reflexivity.
  - destruct (truthyString (headersObj !! "authorization"%string)) eqn:Ea.
    + split; [|split].
      * destruct (decide (name = "authorization"%string)) as [->|Hn1];
          [rewrite lookup_insert_eq; split; eauto|].
        rewrite lookup_insert_ne by congruence. reflexivity.
      * intros [->| ->] value.
        -- rewrite lookup_insert_ne by discriminate. intros Hv. right.
           exact (Hempty _ EA _ Hv).
        -- rewrite lookup_insert_eq. intros [= <-]. left. reflexivity.
      * intros H1 H2. rewrite !lookup_insert_ne by congruence. reflexivity.
    + split; [reflexivity|]. split; [|reflexivity].
      intros [->| ->] value Hv; right.
      * exact (Hempty _ EA _ Hv).
      * exact (Hempty _ Ea _ Hv).
Qed.

(** X19. Of headers given as a [Headers] instance or as a record from
    names to strings, the log shows the same names; under the names
    [Authorization] and [authorization] it shows the placeholder or an
    empty value, never another value; every other header is logged as it
    is.  Of headers given as a sequence of [[name, value]] pairs the log
    shows every pair as it is, the value of an authorization header
    included. *)
Theorem authorization_redacted_unless_pairs (headers : HeadersInit) :
  match headers with
  | HeadersInstance fields | HeadersRecord fields =>
      exists redacted,
        loggedHeaders (Some headers) = Some (LoggedFields redacted) /\
        forall name : string,
          (is_Some (redacted !! name) <-> is_Some (fields !! name)) /\
          (name = "Authorization"%string \/ name = "authorization"%string ->
           forall value, redacted !! name = Some value ->
             value = REDACTED \/ value = ""%string) /\
          (name <> "Authorization"%string -> name <> "authorization"%string ->
           redacted !! name = fields !! name)
  | HeadersPairs pairs =>
      loggedHeaders (Some headers) = Some (LoggedPairs pairs)
  end.
Proof.
  destruct headers as [fields|fields|pairs]; [| |reflexivity];
    (exists (redactHeaders fields); split; [reflexivity|]);
    intros name; apply redactHeaders_fields.
Qed.

Lemma authorization_redacted_unless_pairs_witness :
  loggedHeaders
    (Some (HeadersPairs [("Authorization"%string, "Bearer secret"%string)]))
  = Some (LoggedPairs [("Authorization"%string, "Bearer secret"%string)]).
Proof.
  exact (authorization_redacted_unless_pairs
           (HeadersPairs [("Authorization"%string, "Bearer secret"%string)])).
Defined.

Section InitWebrtc.

Lemma entryIf_absentOrTruthy (value : option json) :
  absentOrTruthy (entryIf value).
Proof.
  unfold absentOrTruthy, entryIf.
  destruct (truthy value) eqn:E; [right; exact E|left; reflexivity].
Qed.

Lemma andValue_truthy (a b : option json) :
  truthy (andValue a b) = truthy a && truthy b.
Proof.
  unfold andValue. destruct (truthy a) eqn:E; [reflexivity|exact E].
Qed.

(** The handler, by the outcome of its three tests. *)
Lemma initWebrtc_cases (body : option json) (apiKey : option string) :
  body <> None -> body <> Some JNull ->
  initWebrtc body apiKey
  = let wrtcParams := prop body "wrtcParams" in
    if negb (offerValid body)
    then RespondError 400 "Missing required field: offer with sdp and type"
    else if negb (workflowValid body)
    then RespondError 400
           "Missing required field: wrtcParams must contain either workflowSpec OR (workspaceName + workflowId)"
    else if negb (truthyString apiKey)
    then RespondError 500 "Server configuration error: API key not configured"
    else
      let config :=
        mkWorkerConfig
          (entryIf (prop wrtcParams "imageInputName"))
          (entryIf (prop wrtcParams "streamOutputNames"))
          (entryIf (prop wrtcParams "dataOutputNames"))
          (entryIf (prop wrtcParams "workflowParameters"))
          (entryIf (prop wrtcParams "threadPoolWorkers"))
          (entryIf (prop wrtcParams "processingTimeout"))
          (entryIf (prop wrtcParams "iceServers")) in
      CallClient
        (mkRequestParams
           (prop body "offer")
           (if truthy (prop wrtcParams "workflowSpec")
            then prop wrtcParams "workflowSpec" else None)
           (if truthy (prop wrtcParams "workflowSpec")
            then None else prop wrtcParams "workspaceName")
           (if truthy (prop wrtcParams "workflowSpec")
            then None else prop wrtcParams "workflowId")
           (entryIf (prop wrtcParams "requestedPlan"))
           (entryIf (prop wrtcParams "requestedRegion"))
           (if configHasKeys config then Some config else None)).
Proof.
  intros Hnone Hnull.
  assert (Hbody : initWebrtc body apiKey
    = let offer := prop body "offer" in
      let wrtcParams := prop body "wrtcParams" in
      if negb (truthy offer) || negb (truthy (prop offer "sdp"))
         || negb (truthy (prop offer "type"))
      then RespondError 400 "Missing required field: offer with sdp and type"
      else
        let hasWorkflowSpec := prop wrtcParams "workflowSpec" in
        let hasWorkflowIdentifier :=
          andValue (prop wrtcParams "workspaceName")
                   (prop wrtcParams "workflowId") in
        if negb (truthy wrtcParams)
           || (negb (truthy hasWorkflowSpec)
               && negb (truthy hasWorkflowIdentifier))
        then RespondError 400
               "Missing required field: wrtcParams must contain either workflowSpec OR (workspaceName + workflowId)"
        else if negb (truthyString apiKey)
        then RespondError 500
               "Server configuration error: API key not configured"
        else
          let config :=
            mkWorkerConfig
              (entryIf (prop wrtcParams "imageInputName"))
              (entryIf (prop wrtcParams "streamOutputNames"))
              (entryIf (prop wrtcParams "dataOutputNames"))
              (entryIf (prop wrtcParams "workflowParameters"))
              (entryIf (prop wrtcParams "threadPoolWorkers"))
              (entryIf (prop wrtcParams "processingTimeout"))
              (entryIf (prop wrtcParams "iceServers")) in
          CallClient
            (mkRequestParams
               offer
               (if truthy hasWorkflowSpec
                then prop wrtcParams "workflowSpec" else None)
               (if truthy hasWorkflowSpec
                then None else prop wrtcParams "workspaceName")
               (if truthy hasWorkflowSpec
                then None else prop wrtcParams "workflowId")
               (entryIf (prop wrtcParams "requestedPlan"))
               (entryIf (prop wrtcParams "requestedRegion"))
               (if configHasKeys config then Some config else None))).
  { destruct body as [[]|]; try congruence; reflexivity. }
  rewrite Hbody. cbv zeta. unfold offerValid, workflowValid. cbv zeta.
  rewrite andValue_truthy.
  destruct (truthy (prop body "offer")),
           (truthy (prop (prop body "offer") "sdp")),
           (truthy (prop (prop body "offer") "type")); try reflexivity.
  cbn [negb orb andb].
  destruct (truthy (prop body "wrtcParams")),
           (truthy (prop (prop body "wrtcParams") "workflowSpec")),
           (truthy (prop (prop body "wrtcParams") "workspaceName")),
           (truthy (prop (prop body "wrtcParams") "workflowId")); reflexivity.
Qed.

End InitWebrtc.

(** X20. The handler calls the Roboflow client only for a request with an
    offer that has an [sdp] and a [type], with a workflow specification or
    a workspace name and workflow id, and with an API key configured; the
    call carries the offer as received, and either the specification alone
    or the identifier alone, the specification winning when both are
    sent. *)
Theorem client_called_only_for_valid_requests (body : option json)
    (apiKey : option string) (rp : RequestParams) :
  initWebrtc body apiKey = CallClient rp ->
  offerValid body = true /\ workflowValid body = true /\
  truthyString apiKey = true /\
  rp_offer rp = prop body "offer" /\
  let wrtcParams := prop body "wrtcParams" in
  if truthy (prop wrtcParams "workflowSpec")
  then rp_workflowSpec rp = prop wrtcParams "workflowSpec" /\
       rp_workspaceName rp = None /\ rp_workflowId rp = None
  else rp_workflowSpec rp = None /\
       rp_workspaceName rp = prop wrtcParams "workspaceName" /\
       rp_workflowId rp = prop wrtcParams "workflowId" /\
       truthy (rp_workspaceName rp) = true /\ truthy (rp_workflowId rp) = true.
Proof.
  intros Hcall.
  assert (Hnone : body <> None) by (intros ->; discriminate).
  assert (Hnull : body <> Some JNull) by (intros ->; discriminate).
  rewrite (initWebrtc_cases body apiKey Hnone Hnull) in Hcall. cbv zeta in Hcall.
  destruct (offerValid body); [|discriminate].
  destruct (workflowValid body) eqn:Ework; [|discriminate].
  destruct (truthyString apiKey); [|discriminate].
  simpl in Hcall. injection Hcall as <-. simpl.
  repeat (split; [reflexivity|]).
  unfold workflowValid in Ework. cbv zeta in Ework.
  destruct (truthy (prop (prop body "wrtcParams") "workflowSpec")).
  - repeat split.
  - rewrite orb_false_l in Ework.
    apply andb_true_iff in Ework. destruct Ework as [_ Ework].
    apply andb_true_iff in Ework. destruct Ework as [Hname Hid].
    repeat split; assumption.
Qed.

Lemma client_called_only_for_valid_requests_witness :
  truthyString (Some "key"%string) = true.
Proof.
  apply (client_called_only_for_valid_requests
           (Some (JObject
              [("offer"%string,
                JObject [("sdp"%string, JString "v=0");
                         ("type"%string, JString "offer")]);
               ("wrtcParams"%string,
                JObject [("workspaceName"%string, JString "workspace-hh1bb");
                         ("workflowId"%string, JString "water-project2")])]))
           (Some "key"%string)
           (mkRequestParams
              (Some (JObject [("sdp"%string, JString "v=0");
                              ("type"%string, JString "offer")]))
              None
              (Some (JString "workspace-hh1bb"))
              (Some (JString "water-project2"))
              None None None)).
  vm_compute. reflexivity.
Defined.

(** X21. The object given to the Roboflow client has no falsy setting: a
    requested plan, a requested region and every entry of its [config]
    are present only with a truthy value, and [config] is present only
    with at least one entry. *)
Theorem request_has_no_falsy_setting (body : option json)
    (apiKey : option string) (rp : RequestParams) :
  initWebrtc body apiKey = CallClient rp ->
  absentOrTruthy (rp_requestedPlan rp) /\
  absentOrTruthy (rp_requestedRegion rp) /\
  forall config, rp_config rp = Some config ->
    configHasKeys config = true /\
    absentOrTruthy (cfg_imageInputName config) /\
    absentOrTruthy (cfg_streamOutputNames config) /\
    absentOrTruthy (cfg_dataOutputNames config) /\
    absentOrTruthy (cfg_workflowParameters config) /\
    absentOrTruthy (cfg_threadPoolWorkers config) /\
    absentOrTruthy (cfg_processingTimeout config) /\
    absentOrTruthy (cfg_iceServers config).
Proof.
  intros Hcall.
  assert (Hnone : body <> None) by (intros ->; discriminate).
  assert (Hnull : body <> Some JNull) by (intros ->; discriminate).
  rewrite (initWebrtc_cases body apiKey Hnone Hnull) in Hcall. cbv zeta in Hcall.
  destruct (offerValid body); [|discriminate].
  destruct (workflowValid body); [|discriminate].
  destruct (truthyString apiKey); [|discriminate].
  simpl in Hcall. injection Hcall as <-. cbn [rp_requestedPlan rp_requestedRegion rp_config].
  split; [apply entryIf_absentOrTruthy|].
  split; [apply entryIf_absentOrTruthy|].
  intros config Hconfig.
  destruct (configHasKeys _) eqn:Ekeys; [|discriminate].
  injection Hconfig as <-.
  split; [exact Ekeys|].
  cbn. repeat split; apply entryIf_absentOrTruthy.
Qed.

Lemma request_has_no_falsy_setting_witness :
  absentOrTruthy (Some (JString "eu")).
Proof.
  apply (request_has_no_falsy_setting
           (Some (JObject
              [("offer"%string,
                JObject [("sdp"%string, JString "v=0");
                         ("type"%string, JString "offer")]);
               ("wrtcParams"%string,
                JObject [("workflowSpec"%string, JObject []);
                         ("requestedRegion"%string, JString "eu");
                         ("processingTimeout"%string, JNumber 0)])]))
           (Some "key"%string)
           (mkRequestParams
              (Some (JObject [("sdp"%string, JString "v=0");
                              ("type"%string, JString "offer")]))
              (Some (JObject []))
              None None None
              (Some (JString "eu"))
              None)).
  vm_compute. reflexivity.
Defined.

(** X22. The answer to an invalid request does not depend on the API key:
    a request answered with 400 is answered so with any key or none, and
    the answer 500 for a missing key goes only to a request that passes
    both validations. *)
Theorem validation_precedes_key_check (body : option json)
    (apiKey : option string) (error : string) :
  (initWebrtc body apiKey = RespondError 400 error ->
   forall otherKey, initWebrtc body otherKey = RespondError 400 error) /\
  (initWebrtc body apiKey = RespondError 500 error ->
   truthyString apiKey = false /\
   offerValid body = true /\ workflowValid body = true /\
   forall key, truthyString (Some key) = true ->
     exists rp, initWebrtc body (Some key) = CallClient rp).
Proof.
  assert (Hcase : body = None \/ body = Some JNull
                  \/ (body <> None /\ body <> Some JNull)).
  { destruct body as [[]|]; auto; right; right; split; discriminate. }
  destruct Hcase as [->|[->|[Hnone Hnull]]]; [split; discriminate..|].
  rewrite (initWebrtc_cases body apiKey Hnone Hnull). cbv zeta.
  split.
  - intros Hresp otherKey.
    rewrite (initWebrtc_cases body otherKey Hnone Hnull). cbv zeta.
    destruct (offerValid body); [|exact Hresp].
    destruct (workflowValid body); [|exact Hresp].
    simpl in Hresp. destruct (truthyString apiKey); discriminate.
  - intros Hresp.
    destruct (offerValid body) eqn:Eo; [|discriminate].
    destruct (workflowValid body) eqn:Ew; [|discriminate].
    destruct (truthyString apiKey); [discriminate|].
    repeat (split; [reflexivity|]).
    intros key Hkey.
    rewrite (initWebrtc_cases body (Some key) Hnone Hnull). cbv zeta.
    rewrite Eo, Ew, Hkey. simpl. eauto.
Qed.

Lemma validation_precedes_key_check_witness :
  initWebrtc (Some (JObject [])) (Some "key"%string)
  = RespondError 400 "Missing required field: offer with sdp and type".
Proof.
  apply (validation_precedes_key_check (Some (JObject [])) None).
  vm_compute. reflexivity.
Defined.

(** * The lists of names of the workflow configuration *)

Section NameListFacts.

Context {C : Type} `{EqDecision C}.
Variable comma : C.
Variable isWhiteSpace : C -> bool.

#[local] Abbreviation trimS := (trimStart isWhiteSpace).
#[local] Abbreviation trimE := (trimEnd isWhiteSpace).
#[local] Abbreviation trimW := (trim isWhiteSpace).
#[local] Abbreviation splitC := (split comma).
#[local] Abbreviation joinC := (join comma).

Lemma trimStart_head (s : list C) (c : C) (r : list C) :
  trimS s = c :: r -> isWhiteSpace c = false.
Proof.
  induction s as [|x s IH]; [discriminate|]. simpl.
  destruct (isWhiteSpace x) eqn:Ex; [exact IH|].
  intros [= <- _]. exact Ex.
Qed.

Lemma trimStart_fixed (c : C) (r : list C) :
  isWhiteSpace c = false -> trimS (c :: r) = c :: r.
Proof. intros Hc. simpl. rewrite Hc. reflexivity. Qed.

Lemma trimEnd_idem (s : list C) : trimE (trimE s) = trimE s.
Proof.
  induction s as [|c s IH]; [reflexivity|]. simpl.
  destruct (trimE s) as [|k kept] eqn:Ek.
  - destruct (isWhiteSpace c) eqn:Ec; [reflexivity|].
    simpl. rewrite Ec. reflexivity.
  - change (trimE (c :: k :: kept))
      with (match trimE (k :: kept) with
            | [] => if isWhiteSpace c then [] else [c]
            | kept' => c :: kept'
            end).
    rewrite IH. reflexivity.
Qed.

Lemma trimEnd_head (s : list C) (c : C) (r : list C) :
  trimE s = c :: r -> exists r', s = c :: r'.
Proof.
  destruct s as [|x s]; [discriminate|]. simpl.
  destruct (trimE s); [destruct (isWhiteSpace x)|];
    intros [= <- _]; eauto.
Qed.

Lemma trim_idem (s : list C) : trimW (trimW s) = trimW s.
Proof.
  unfold trim. destruct (trimE (trimS s)) as [|c r] eqn:Et;
    [reflexivity|].
  destruct (trimEnd_head _ _ _ Et) as (r' & Hs).
  rewrite trimStart_fixed by (exact (trimStart_head _ _ _ Hs)).
  rewrite <- Et. apply trimEnd_idem.
Qed.

Lemma trimStart_elem (s : list C) (x : C) : x ∈ trimS s -> x ∈ s.
Proof.
  induction s as [|c s IH]; [trivial|]. simpl.
  destruct (isWhiteSpace c); [|trivial].
  intros Hx. apply list_elem_of_further. exact (IH Hx).
Qed.

Lemma trimEnd_elem (s : list C) (x : C) : x ∈ trimE s -> x ∈ s.
Proof.
  induction s as [|c s IH]; [trivial|]. simpl.
  destruct (trimE s) as [|k kept].
  - destruct (isWhiteSpace c); intros Hx; [inversion Hx|].
    apply elem_of_cons in Hx. destruct Hx as [->|Hx]; [|inversion Hx].
    apply list_elem_of_here.
  - intros Hx. apply elem_of_cons in Hx. destruct Hx as [->|Hx].
    + apply list_elem_of_here.
    + apply list_elem_of_further. exact (IH Hx).
Qed.

Lemma trim_elem (s : list C) (x : C) : x ∈ trimW s -> x ∈ s.
Proof. intros Hx. apply trimStart_elem, trimEnd_elem. exact Hx. Qed.

Lemma split_no_comma (s piece : list C) :
  piece ∈ splitC s -> comma ∉ piece.
Proof.
  revert piece. induction s as [|c s IH]; intros piece; simpl.
  - intros Hp. apply list_elem_of_singleton in Hp. subst piece.
    apply not_elem_of_nil.
  - destruct (decide (c = comma)) as [->|Hc].
    + intros Hp. apply elem_of_cons in Hp. destruct Hp as [->|Hp].
      * apply not_elem_of_nil.
      * exact (IH piece Hp).
    + destruct (split comma s) as [|p ps] eqn:Es.
      * intros Hp. apply list_elem_of_singleton in Hp. subst piece.
        intros Hin. apply list_elem_of_singleton in Hin. congruence.
      * intros Hp. apply elem_of_cons in Hp. destruct Hp as [->|Hp].
        -- intros Hin. apply elem_of_cons in Hin. destruct Hin as [Heq|Hin];
             [congruence|].
           exact (IH p (list_elem_of_here p ps) Hin).
        -- apply IH. apply list_elem_of_further. exact Hp.
Qed.

Lemma split_plain (n : list C) : comma ∉ n -> splitC n = [n].
Proof.
  induction n as [|c n IH]; [reflexivity|]. intros Hn. simpl.
  rewrite decide_False by (intros ->; apply Hn, list_elem_of_here).
  rewrite IH; [reflexivity|].
  intros Hin. apply Hn, list_elem_of_further. exact Hin.
Qed.

Lemma split_app_comma (n rest : list C) :
  comma ∉ n -> splitC (n ++ comma :: rest) = n :: splitC rest.
Proof.
  induction n as [|c n IH]; intros Hn; simpl.
  - rewrite decide_True by reflexivity. reflexivity.
  - rewrite decide_False by (intros ->; apply Hn, list_elem_of_here).
    rewrite IH; [reflexivity|].
    intros Hin. apply Hn, list_elem_of_further. exact Hin.
Qed.

Lemma split_join (names : list (list C)) :
  names <> [] ->
  Forall (fun name => comma ∉ name) names ->
  splitC (joinC names) = names.
Proof.
  intros Hne Hall. induction Hall as [|n rest Hn Hrest IH]; [congruence|].
  destruct rest as [|m rest].
  - simpl. apply split_plain. exact Hn.
  - change (joinC (n :: m :: rest)) with (n ++ comma :: joinC (m :: rest)).
    rewrite split_app_comma by exact Hn. rewrite IH by discriminate.
    reflexivity.
Qed.

Lemma trimEnd_app (a b : list C) :
  b <> [] -> trimE b = b -> trimE (a ++ b) = a ++ b.
Proof.
  intros Hb Hfix. induction a as [|x a IH]; [exact Hfix|].
  simpl. rewrite IH. destruct (a ++ b) eqn:Eab; [|reflexivity].
  apply app_eq_nil in Eab. destruct Eab as [_ ->]. congruence.
Qed.

Lemma wellFormed_head (name : list C) :
  wellFormedName comma isWhiteSpace name ->
  exists c r, name = c :: r /\ isWhiteSpace c = false.
Proof.
  intros (Hne & _ & Htrim). destruct name as [|c r]; [congruence|].
  exists c, r. split; [reflexivity|].
  unfold trim in Htrim.
  destruct (trimEnd_head _ _ _ Htrim) as (r' & Hs).
  exact (trimStart_head _ _ _ Hs).
Qed.

Lemma wellFormed_trimEnd (name : list C) :
  wellFormedName comma isWhiteSpace name -> trimE name = name.
Proof.
  intros (_ & _ & Htrim). rewrite <- Htrim at 1.
  unfold trim. rewrite trimEnd_idem. exact Htrim.
Qed.

Lemma join_head (names : list (list C)) :
  names <> [] ->
  Forall (wellFormedName comma isWhiteSpace) names ->
  exists c r, joinC names = c :: r /\ isWhiteSpace c = false.
Proof.
  intros Hne Hall. destruct Hall as [|n rest Hn _]; [congruence|].
  destruct (wellFormed_head n Hn) as (c & r & -> & Hc).
  destruct rest; simpl; eauto.
Qed.

Lemma join_trimEnd (names : list (list C)) :
  names <> [] ->
  Forall (wellFormedName comma isWhiteSpace) names ->
  trimE (joinC names) = joinC names.
Proof.
  intros Hne Hall. induction Hall as [|n rest Hn Hrest IH]; [congruence|].
  destruct rest as [|m rest].
  - simpl. apply wellFormed_trimEnd. exact Hn.
  - change (joinC (n :: m :: rest)) with (n ++ comma :: joinC (m :: rest)).
    change (n ++ comma :: joinC (m :: rest))
      with (n ++ [comma] ++ joinC (m :: rest)).
    rewrite app_assoc. apply trimEnd_app; [|apply IH; discriminate].
    destruct (join_head (m :: rest)) as (c & r & -> & _);
      [discriminate|exact Hrest|discriminate].
Qed.

Lemma trim_join (names : list (list C)) :
  names <> [] ->
  Forall (wellFormedName comma isWhiteSpace) names ->
  trimW (joinC names) = joinC names.
Proof.
  intros Hne Hall. unfold trim.
  destruct (join_head names Hne Hall) as (c & r & Hj & Hc).
  rewrite Hj, trimStart_fixed by exact Hc. rewrite <- Hj.
  apply join_trimEnd; assumption.
Qed.

End NameListFacts.

(** X23. Every name of a list read from the configuration form is not
    empty, holds no comma and has no white space at either end, whatever
    the text of the form and the fallback. *)
Theorem names_are_well_formed {C : Type} `{EqDecision C} (comma : C)
    (isWhiteSpace : C -> bool) (value : option (list C))
    (fallback name : list C) :
  name ∈ namesOf comma isWhiteSpace value fallback ->
  wellFormedName comma isWhiteSpace name.
Proof.
  unfold namesOf. cbv zeta. intros Hin.
  apply list_elem_of_filter in Hin. destruct Hin as [Hne Hin].
  apply list_elem_of_fmap in Hin. destruct Hin as (piece & -> & Hpiece).
  split; [exact Hne|]. split.
  - intros Hcomma. apply trim_elem in Hcomma.
    exact (split_no_comma comma _ _ Hpiece Hcomma).
  - apply trim_idem.
Qed.

Lemma names_are_well_formed_witness :
  wellFormedName asciiComma isAsciiWhiteSpace (String.list_ascii_of_string "b").
Proof.
  apply (names_are_well_formed asciiComma isAsciiWhiteSpace
           (Some (String.list_ascii_of_string " a , b,, "))
           (String.list_ascii_of_string "output_image")).
  vm_compute. apply list_elem_of_further, list_elem_of_here.
Defined.

(** X24. Reading back a list of names that was joined with commas gives
    the list again: on a non-empty list of names that are not empty, hold
    no comma and have no white space at either end, joining and reading
    are inverse. *)
Theorem names_round_trip {C : Type} `{EqDecision C} (comma : C)
    (isWhiteSpace : C -> bool) (names : list (list C)) (fallback : list C) :
  names <> [] ->
  Forall (wellFormedName comma isWhiteSpace) names ->
  namesOf comma isWhiteSpace (Some (join comma names)) fallback = names.
Proof.
  intros Hne Hall. unfold namesOf. cbv zeta.
  rewrite (trim_join comma isWhiteSpace names Hne Hall).
  destruct (join_head comma isWhiteSpace names Hne Hall) as (c & r & Hj & _).
  rewrite Hj. rewrite <- Hj.
  rewrite split_join; [|exact Hne|].
  - assert (Hmap : map (trim isWhiteSpace) names = names).
    { clear Hne Hj. induction Hall as [|n rest (_ & _ & Hn) _ IH]; [reflexivity|].
      simpl. rewrite Hn, IH. reflexivity. }
    rewrite Hmap. clear Hmap Hne Hj.
    induction Hall as [|n rest (Hn & _) _ IH]; [reflexivity|].
    rewrite filter_cons, decide_True by exact Hn. rewrite IH. reflexivity.
  - eapply Forall_impl; [exact Hall|]. intros n (_ & Hn & _). exact Hn.
Qed.

Lemma names_round_trip_witness :
  namesOf asciiComma isAsciiWhiteSpace
    (Some (join asciiComma [String.list_ascii_of_string "output_image";
                          String.list_ascii_of_string "overlay"]))
    (String.list_ascii_of_string "image")
  = [String.list_ascii_of_string "output_image"; String.list_ascii_of_string "overlay"].
Proof.
  apply (names_round_trip asciiComma isAsciiWhiteSpace).
  - discriminate.
  - repeat (apply Forall_cons; split;
            [split; [discriminate|split; [|vm_compute; reflexivity]]|]).
    + apply (bool_decide_unpack _). vm_compute. exact I.
    + apply (bool_decide_unpack _). vm_compute. exact I.
    + apply Forall_nil. exact I.
Defined.

(** X25. When the form has no text for a list of names, or only white
    space, the list is the fallback name alone. *)
Theorem blank_input_gives_fallback {C : Type} `{EqDecision C} (comma : C)
    (isWhiteSpace : C -> bool) (value : option (list C)) (fallback : list C) :
  wellFormedName comma isWhiteSpace fallback ->
  match value with
  | Some v => trim isWhiteSpace v = []
  | None => True
  end ->
  namesOf comma isWhiteSpace value fallback = [fallback].
Proof.
  intros Hfb Hblank.
  assert (Hnames : namesOf comma isWhiteSpace value fallback
                   = filter (fun s => s <> [])
                       (map (trim isWhiteSpace) (split comma fallback))).
  { unfold namesOf. cbv zeta. destruct value as [v|]; [rewrite Hblank|];
      reflexivity. }
  destruct Hfb as (Hne & Hcomma & Htrim).
  rewrite Hnames, (split_plain comma fallback Hcomma). cbn [map].
  rewrite Htrim, filter_cons, decide_True by exact Hne. reflexivity.
Qed.

Lemma blank_input_gives_fallback_witness :
  namesOf asciiComma isAsciiWhiteSpace
    (Some (String.list_ascii_of_string "   "))
    (String.list_ascii_of_string "percentage")
  = [String.list_ascii_of_string "percentage"].
Proof.
  apply (blank_input_gives_fallback asciiComma isAsciiWhiteSpace).
  - split; [discriminate|]. split; [|vm_compute; reflexivity].
    apply (bool_decide_unpack _). vm_compute. exact I.
  - vm_compute. reflexivity.
Defined.

(** X26. A request made of an offer with an [sdp] and a [type] and of the
    parameters the page builds passes both validations of the handler in
    either mode of the page; with an API key the client is called with
    the specification in the mode [local_defined] and with the workspace
    and workflow of the page in any other mode. *)
Theorem page_request_is_forwarded (mode imageInputName : string)
    (streamOutputNames dataOutputNames : list string)
    (requestedRegion requestedPlan : string) (processingTimeout : Q)
    (offer : json) (apiKey : string) :
  truthy (prop (Some offer) "sdp") = true ->
  truthy (prop (Some offer) "type") = true ->
  apiKey <> ""%string ->
  exists rp,
    initWebrtc
      (Some (initRequest offer
               (wrtcParamsOf mode imageInputName streamOutputNames
                  dataOutputNames requestedRegion requestedPlan
                  processingTimeout)))
      (Some apiKey)
    = CallClient rp /\
    rp_offer rp = Some offer /\
    if String.eqb mode "local_defined"
    then rp_workflowSpec rp = Some WORKFLOW_SPEC /\
         rp_workspaceName rp = None /\ rp_workflowId rp = None
    else rp_workflowSpec rp = None /\
         rp_workspaceName rp = Some (JString "workspace-hh1bb") /\
         rp_workflowId rp = Some (JString "water-project2").
Proof.
  intros Hsdp Htype Hkey.
  assert (Hoffer : truthy (Some offer) = true).
  { destruct offer; try discriminate; reflexivity. }
  assert (Hk : truthyString (Some apiKey) = true).
  { simpl. destruct (String.eqb_spec apiKey ""); [congruence|reflexivity]. }
  rewrite initWebrtc_cases by discriminate. cbv zeta.
  set (params := wrtcParamsOf _ _ _ _ _ _ _).
  assert (Ho : prop (Some (initRequest offer params)) "offer" = Some offer)
    by reflexivity.
  assert (Hw : prop (Some (initRequest offer params)) "wrtcParams" = Some params)
    by reflexivity.
  unfold offerValid, workflowValid. cbv zeta.
  rewrite Ho, Hw, Hoffer, Hsdp, Htype, Hk.
  unfold params, wrtcParamsOf. cbv zeta.
  destruct (String.eqb mode "local_defined"); cbn; eexists; repeat split.
Qed.

Lemma page_request_is_forwarded_witness :
  exists rp,
    initWebrtc
      (Some (initRequest
               (JObject [("sdp"%string, JString "v=0");
                         ("type"%string, JString "offer")])
               (wrtcParamsOf "custom" "image" ["output_image"%string]
                  ["percentage"%string] "eu" "webrtc-gpu-small" 30)))
      (Some "key"%string)
    = CallClient rp /\
    rp_workspaceName rp = Some (JString "workspace-hh1bb").
Proof.
  destruct (page_request_is_forwarded "custom" "image" ["output_image"%string]
              ["percentage"%string] "eu" "webrtc-gpu-small" 30
              (JObject [("sdp"%string, JString "v=0");
                        ("type"%string, JString "offer")])
              "key") as (rp & Hcall & _ & _ & Hname & _);
    [reflexivity|reflexivity|discriminate|].
  exists rp. split; [exact Hcall|exact Hname].
Defined.

(** * Runs of numbers *)

Section Window.

Lemma lastWindow_length {A : Type} (l : list A) :
  (length (lastWindow l) <= HISTORY_SIZE)%nat.
Proof. unfold lastWindow. rewrite length_drop. unfold HISTORY_SIZE. lia. Qed.

Lemma lastWindow_short {A : Type} (l : list A) :
  (length l <= HISTORY_SIZE)%nat -> lastWindow l = l.
Proof.
  intros Hl. unfold lastWindow.
  replace (length l - HISTORY_SIZE)%nat with 0%nat by lia. reflexivity.
Qed.

Lemma lastWindow_snoc {A : Type} (l : list A) (x : A) :
  lastWindow (lastWindow l ++ [x]) = lastWindow (l ++ [x]).
Proof.
  unfold lastWindow. rewrite !length_app, length_drop. cbn [length].
  unfold HISTORY_SIZE.
  destruct (le_lt_dec 10 (length l)) as [Hge|Hlt].
  - replace (length l - (length l - 10) + 1 - 10)%nat with 1%nat by lia.
    replace (length l + 1 - 10)%nat with (S (length l - 10)) by lia.
    rewrite (drop_app_le l [x] (S (length l - 10))) by lia.
    rewrite (drop_app_le (drop (length l - 10) l) [x] 1)
      by (rewrite length_drop; lia).
    rewrite drop_drop. f_equal. f_equal. lia.
  - replace (length l - 10)%nat with 0%nat by lia.
    replace (length l - 0 + 1 - 10)%nat with 0%nat by lia.
    replace (length l + 1 - 10)%nat with 0%nat by lia. reflexivity.
Qed.

Lemma ingestValid_window (bottle : Bottle) (x : R) :
  (length (percentHistory bottle) <= HISTORY_SIZE)%nat ->
  percentHistory (ingestValid bottle x)
  = lastWindow (percentHistory bottle ++ [Num x]).
Proof.
  intros Hb. rewrite ingestValid_history. unfold lastWindow.
  rewrite length_app. cbn [length]. unfold HISTORY_SIZE in *.
  destruct (Nat.leb_spec 10 (length (percentHistory bottle))) as [Hge|Hlt].
  - replace (length (percentHistory bottle) + 1 - 10)%nat with 1%nat by lia.
    destruct (percentHistory bottle); [simpl in Hge; lia|reflexivity].
  - replace (length (percentHistory bottle) + 1 - 10)%nat with 0%nat by lia.
    reflexivity.
Qed.

Lemma run_window (readings : list R) (bottle : Bottle) (past : list jsnum) :
  percentHistory bottle = lastWindow past ->
  percentHistory (fold_left updateBottle (map Num readings) bottle)
  = lastWindow (past ++ map Num readings).
Proof.
  revert bottle past.
  induction readings as [|x readings IH]; intros bottle past Hpast.
  - rewrite app_nil_r. exact Hpast.
  - cbn [map fold_left updateBottle].
    rewrite (IH (ingestValid bottle x) (past ++ [Num x])).
    + rewrite <- app_assoc. reflexivity.
    + rewrite ingestValid_window
        by (rewrite Hpast; apply lastWindow_length).
      rewrite Hpast. apply lastWindow_snoc.
Qed.

End Window.

(** X27. Over any run of numbers the history of a bottle is the last ten
    entries of its history before the run followed by the run. *)
Theorem history_is_last_ten (readings : list R) (bottle : Bottle) :
  (length (percentHistory bottle) <= HISTORY_SIZE)%nat ->
  percentHistory (fold_left updateBottle (map Num readings) bottle)
  = lastWindow (percentHistory bottle ++ map Num readings).
Proof.
  intros Hb. apply run_window. symmetry. apply lastWindow_short. exact Hb.
Qed.

Lemma history_is_last_ten_witness :
  percentHistory
    (fold_left updateBottle (map Num [1; 2; 3])
       (mkBottle (map Num scenarioA) (Some 100) (Some 55) 1))
  = map Num [40; 50; 60; 70; 80; 90; 100; 1; 2; 3].
Proof.
  rewrite (history_is_last_ten [1; 2; 3]
             (mkBottle (map Num scenarioA) (Some 100) (Some 55) 1)).
  - reflexivity.
  - unfold HISTORY_SIZE. simpl. lia.
Defined.
(** * The code over IEEE doubles *)

Section IEEEFloats.

Lemma float_ltb_irrefl (x : PrimFloat.float) : PrimFloat.ltb x x = false.
Proof.
  rewrite FloatAxioms.ltb_spec. unfold SpecFloat.SFltb.
  destruct (FloatOps.Prim2SF x) as [s|s| |s m e]; simpl;
    try (destruct s; reflexivity); try reflexivity.
  rewrite Z.compare_refl.
  assert (Hm : PosDef.Pos.compare_cont Eq m m = Eq)
    by (apply Pos.compare_cont_refl).
  rewrite Hm. destruct s; reflexivity.
Qed.

Lemma float_ltb_leb (x y : PrimFloat.float) :
  PrimFloat.ltb x y = true -> PrimFloat.leb x y = true.
Proof.
  rewrite FloatAxioms.ltb_spec, FloatAxioms.leb_spec.
  unfold SpecFloat.SFltb, SpecFloat.SFleb.
  destruct (SpecFloat.SFcompare _ _) as [[| |]|]; congruence.
Qed.

(** [Math.max(0, d)]: [NaN] for [NaN], [d] when [0 < d], [0] otherwise. *)
Lemma Math_max_zero (d : PrimFloat.float) :
  IEEE.Math_max [PrimFloat.zero; d]
  = if PrimFloat.is_nan d then PrimFloat.nan
    else if PrimFloat.ltb PrimFloat.zero d then d else PrimFloat.zero.
Proof.
  unfold IEEE.Math_max. cbn [IEEE.Math_max_from].
  change (PrimFloat.is_nan PrimFloat.zero) with false. cbv iota.
  change (IEEE.isPositiveZero PrimFloat.zero) with true.
  change (IEEE.isNegativeZero PrimFloat.neg_infinity) with false.
  change (PrimFloat.ltb PrimFloat.neg_infinity PrimFloat.zero) with true.
  cbn [andb]. cbv iota zeta.
  change (IEEE.isNegativeZero PrimFloat.zero) with false.
  rewrite andb_false_r. reflexivity.
Qed.

Lemma Math_max_zero_nonneg (d : PrimFloat.float) :
  PrimFloat.is_nan d = false ->
  PrimFloat.leb PrimFloat.zero (IEEE.Math_max [PrimFloat.zero; d]) = true.
Proof.
  intros Hd. rewrite Math_max_zero, Hd.
  destruct (PrimFloat.ltb PrimFloat.zero d) eqn:Hlt.
  - apply float_ltb_leb. exact Hlt.
  - reflexivity.
Qed.

End IEEEFloats.

(** ** The filtered average *)

Section IEEEFilteredAverage.

Import PrimFloat.

Lemma fold_left_sumFrom (l : list PrimFloat.float) (acc : PrimFloat.float) :
  fold_left (fun s v => PrimFloat.add s v) l acc = IEEE.sumFrom acc l.
Proof.
  revert acc. induction l as [|x l IH]; intros acc; [reflexivity|].
  simpl. apply IH.
Qed.

Lemma fold_left_squaredDeviations (l : list PrimFloat.float)
    (mu acc : PrimFloat.float) :
  fold_left
    (fun s v => PrimFloat.add s (PrimFloat.mul (PrimFloat.sub v mu)
                                               (PrimFloat.sub v mu))) l acc
  = IEEE.sumFrom acc
      (map (fun v => PrimFloat.mul (PrimFloat.sub v mu) (PrimFloat.sub v mu)) l).
Proof.
  revert acc. induction l as [|x l IH]; intros acc; [reflexivity|].
  simpl. apply IH.
Qed.

(** The [filter] of the source, on a test that decides [P]. *)
Lemma List_filter_decide {A : Type} (f : A -> bool) (P : A -> Prop)
    `{!forall v, Decision (P v)} (l : list A) :
  (forall v, f v = true <-> P v) ->
  List.filter f l = filter P l.
Proof.
  intros Hf. induction l as [|x l IH]; [reflexivity|].
  simpl. rewrite filter_cons. destruct (decide (P x)) as [Hx|Hx].
  - apply Hf in Hx. rewrite Hx. f_equal. exact IH.
  - destruct (f x) eqn:Efx; [|exact IH].
    apply Hf in Efx. contradiction.
Qed.

Lemma filter_rest_length {A : Type} (P : A -> Prop)
    `{!forall v, Decision (P v)} (l : list A) :
  (length l - length (filter P l))%nat
  = length (filter (fun v => ~ P v) l).
Proof.
  induction l as [|x l IH]; [reflexivity|].
  pose proof (length_filter P l) as Hle.
  rewrite !filter_cons.
  destruct (decide (P x)) as [Hx|Hx].
  - rewrite decide_False by tauto. simpl. exact IH.
  - rewrite decide_True by exact Hx. simpl. rewrite <- IH. lia.
Qed.

Lemma ieee_calculateFilteredAverage_contract (l : list PrimFloat.float) :
  IEEE.calculateFilteredAverage l = IEEE.contract l.
Proof.
  unfold IEEE.calculateFilteredAverage, IEEE.contract. cbv zeta.
  destruct (decide (length l = 0%nat)) as [H0|H0].
  { rewrite H0. reflexivity. }
  destruct (Nat.eqb_spec (length l) 0) as [|_]; [contradiction|].
  destruct (decide (length l < 10)%nat) as [Hlt|Hge].
  { destruct (Nat.ltb_spec (length l) 10) as [_|Hge]; [|lia].
    rewrite fold_left_sumFrom. reflexivity. }
  destruct (Nat.ltb_spec (length l) 10) as [Hlt|_]; [lia|].
  rewrite !fold_left_sumFrom, fold_left_squaredDeviations.
  change (PrimFloat.div (IEEE.sumFrom 0%float l) (IEEE.lengthNumber (length l)))
    with (IEEE.mean l).
  change (map (fun v => PrimFloat.mul (PrimFloat.sub v (IEEE.mean l))
                                      (PrimFloat.sub v (IEEE.mean l))) l)
    with (IEEE.squaredDeviations l).
  change (PrimFloat.sqrt
            (PrimFloat.div (IEEE.sumFrom 0%float (IEEE.squaredDeviations l))
                           (IEEE.lengthNumber (length l))))
    with (IEEE.sigma l).
  assert (Hfilter :
    List.filter
      (fun v => PrimFloat.leb (PrimFloat.abs (PrimFloat.sub v (IEEE.mean l)))
                              (PrimFloat.mul 2%float (IEEE.sigma l))) l
    = IEEE.retained l).
  { unfold IEEE.retained. apply List_filter_decide.
    intros v. unfold IEEE.within. reflexivity. }
  rewrite Hfilter.
  assert (Hcount : (length l - length (IEEE.retained l))%nat
                   = length (IEEE.discarded l)).
  { unfold IEEE.retained, IEEE.discarded. apply filter_rest_length. }
  rewrite Hcount.
  destruct (decide (IEEE.retained l = [])) as [Hnil|Hne].
  - rewrite Hnil. reflexivity.
  - destruct (Nat.eqb_spec (length (IEEE.retained l)) 0) as [Hz|_].
    + destruct (IEEE.retained l); [contradiction|discriminate].
    + reflexivity.
Qed.

End IEEEFilteredAverage.

(** ** One bottle *)

Section IEEEBottle.

Import PrimFloat.

Lemma ieee_validNumbers_id (l : list float) :
  Forall (fun v => is_nan v = false) l -> IEEE.validNumbers l = l.
Proof.
  induction 1 as [|x l Hx _ IH]; [reflexivity|].
  unfold IEEE.validNumbers in *. simpl. rewrite Hx. simpl. f_equal. exact IH.
Qed.

Lemma ieee_isValidPercent_true (p : float) :
  IEEE.isValidPercent p = true <-> is_nan p = false.
Proof. unfold IEEE.isValidPercent. destruct (is_nan p); simpl; split; congruence. Qed.

Lemma ieee_updateBottle_valid (b : IEEE.Bottle) (p : float) :
  is_nan p = false -> IEEE.updateBottle b p = IEEE.ingestValid b p.
Proof.
  intros Hp. unfold IEEE.updateBottle, IEEE.isValidPercent. rewrite Hp.
  reflexivity.
Qed.

Lemma ieee_updateBottle_invalid (b : IEEE.Bottle) (p : float) :
  is_nan p = true -> IEEE.updateBottle b p = IEEE.ingestInvalid b.
Proof.
  intros Hp. unfold IEEE.updateBottle, IEEE.isValidPercent. rewrite Hp.
  reflexivity.
Qed.

(** Push, then shift when the bound is exceeded. *)
Lemma ieee_pushed_window (h : list float) (x : float) :
  (length h <= 10)%nat ->
  (if Nat.ltb IEEE.HISTORY_SIZE (length (h ++ [x]))
   then tail (h ++ [x]) else h ++ [x])
  = (if Nat.eqb (length h) 10 then tail h else h) ++ [x].
Proof.
  intros Hle. rewrite length_app. simpl. unfold IEEE.HISTORY_SIZE.
  destruct (Nat.eqb_spec (length h) 10) as [Heq|Hne].
  - destruct (Nat.ltb_spec 10 (length h + 1)) as [_|Hc]; [|lia].
    destruct h; [discriminate|reflexivity].
  - destruct (Nat.ltb_spec 10 (length h + 1)) as [Hc|_]; [lia|reflexivity].
Qed.

Lemma ieee_ingestValid_history (b : IEEE.Bottle) (x : float) :
  (length (IEEE.percentHistory b) <= 10)%nat ->
  IEEE.percentHistory (IEEE.ingestValid b x)
  = (if Nat.eqb (length (IEEE.percentHistory b)) 10
     then tail (IEEE.percentHistory b) else IEEE.percentHistory b) ++ [x].
Proof. intros Hle. unfold IEEE.ingestValid. cbn. apply ieee_pushed_window. exact Hle. Qed.

Lemma ieee_ingestValid_mark (b : IEEE.Bottle) (x : float) :
  Forall (fun v => is_nan v = false) (IEEE.percentHistory (IEEE.ingestValid b x)) ->
  IEEE.maxAvgPercent (IEEE.ingestValid b x)
  = if Nat.leb 10 (length (IEEE.percentHistory (IEEE.ingestValid b x)))
    then match IEEE.average (IEEE.calculateFilteredAverage
                               (IEEE.percentHistory (IEEE.ingestValid b x))) with
         | Some avgPercent => IEEE.ratchet (IEEE.maxAvgPercent b) avgPercent
         | None => IEEE.maxAvgPercent b
         end
    else IEEE.maxAvgPercent b.
Proof.
  intros Hall. unfold IEEE.ingestValid in *. cbn in *.
  rewrite ieee_validNumbers_id by exact Hall. reflexivity.
Qed.

Lemma ieee_ingestInvalid_history (b : IEEE.Bottle) :
  IEEE.percentHistory (IEEE.ingestInvalid b) = tail (IEEE.percentHistory b).
Proof.
  unfold IEEE.ingestInvalid. cbn.
  destruct (IEEE.percentHistory b); reflexivity.
Qed.

Lemma ieee_validNumbers_length (l : list float) :
  (length (IEEE.validNumbers l) <= length l)%nat.
Proof. unfold IEEE.validNumbers. apply List.filter_length_le. Qed.

Lemma ieee_ingestInvalid_mark (b : IEEE.Bottle) :
  (length (IEEE.percentHistory b) <= 10)%nat ->
  IEEE.maxAvgPercent (IEEE.ingestInvalid b) = None.
Proof.
  intros Hle. unfold IEEE.ingestInvalid. cbv zeta.
  cbn [IEEE.maxAvgPercent].
  set (h := if Nat.ltb 0 (length (IEEE.percentHistory b))
            then tail (IEEE.percentHistory b) else IEEE.percentHistory b).
  assert (Hh : (length h <= 9)%nat).
  { subst h. destruct (IEEE.percentHistory b) as [|y ys]; simpl in *; lia. }
  pose proof (ieee_validNumbers_length h) as Hv.
  unfold IEEE.HISTORY_SIZE.
  destruct (Nat.leb_spec 10 (length (IEEE.validNumbers h))) as [Hc|_]; [lia|].
  destruct (Nat.ltb_spec (length (IEEE.validNumbers h)) 10) as [_|Hc]; [|lia].
  reflexivity.
Qed.

Lemma ieee_ratchet_is_Some (cur : option float) (a : float) :
  is_Some (IEEE.ratchet cur a).
Proof. destruct cur as [c|]; simpl; [destruct (c <? a)%float|]; eauto. Qed.

Lemma ieee_ratchet_above (cur : option float) (a hw : float) :
  IEEE.ratchet cur a = Some hw -> (hw <? a)%float = false.
Proof.
  destruct cur as [c|]; simpl.
  - destruct (c <? a)%float eqn:Hlt; intros [= <-].
    + apply float_ltb_irrefl.
    + exact Hlt.
  - intros [= <-]. apply float_ltb_irrefl.
Qed.

Lemma ieee_newBottle_invariant (p : float) :
  IEEE.bottleInvariant (IEEE.newBottle p).
Proof.
  unfold IEEE.newBottle, IEEE.isValidPercent.
  destruct (is_nan p) eqn:Hp; simpl.
  - constructor; simpl.
    + constructor.
    + unfold IEEE.HISTORY_SIZE; lia.
    + intros [? [=]].
    + discriminate.
    + intros hw cur [=].
  - constructor; simpl.
    + constructor; [exact Hp|constructor].
    + unfold IEEE.HISTORY_SIZE; lia.
    + intros [? [=]].
    + discriminate.
    + intros hw cur [=].
Qed.

Lemma ieee_ingestInvalid_invariant (b : IEEE.Bottle) :
  IEEE.bottleInvariant b -> IEEE.bottleInvariant (IEEE.ingestInvalid b).
Proof.
  intros [Hnum Hbound Hmf Hfm Habove].
  unfold IEEE.HISTORY_SIZE in *.
  assert (Hlen : (length (tail (IEEE.percentHistory b)) <= 9)%nat).
  { destruct (IEEE.percentHistory b); simpl in *; lia. }
  constructor; rewrite ?ieee_ingestInvalid_history,
                 ?(ieee_ingestInvalid_mark b Hbound).
  - destruct (IEEE.percentHistory b); simpl; [constructor|].
    inversion Hnum; assumption.
  - unfold IEEE.HISTORY_SIZE. lia.
  - intros [? [=]].
  - unfold IEEE.HISTORY_SIZE. lia.
  - intros hw cur [=].
Qed.

Lemma ieee_ingestValid_invariant (b : IEEE.Bottle) (x : float) :
  is_nan x = false ->
  IEEE.bottleInvariant b -> IEEE.bottleInvariant (IEEE.ingestValid b x).
Proof.
  intros Hx [Hnum Hbound Hmf Hfm Habove].
  unfold IEEE.HISTORY_SIZE in *.
  pose proof (ieee_ingestValid_history b x Hbound) as Hh.
  assert (Hall : Forall (fun v => is_nan v = false)
                   (IEEE.percentHistory (IEEE.ingestValid b x))).
  { rewrite Hh. apply Forall_app. split; [|constructor; [exact Hx|constructor]].
    destruct (Nat.eqb (length (IEEE.percentHistory b)) 10); [|exact Hnum].
    destruct (IEEE.percentHistory b); simpl; [constructor|].
    inversion Hnum; assumption. }
  assert (Hlen : length (IEEE.percentHistory (IEEE.ingestValid b x))
                 = if Nat.eqb (length (IEEE.percentHistory b)) 10 then 10%nat
                   else S (length (IEEE.percentHistory b))).
  { rewrite Hh, length_app. simpl.
    destruct (Nat.eqb_spec (length (IEEE.percentHistory b)) 10) as [E|E].
    - destruct (IEEE.percentHistory b); simpl in *; lia.
    - lia. }
  pose proof (ieee_ingestValid_mark b x Hall) as Hmark.
  set (b' := IEEE.ingestValid b x) in *.
  assert (Hle' : (length (IEEE.percentHistory b') <= 10)%nat).
  { rewrite Hlen. destruct (Nat.eqb_spec (length (IEEE.percentHistory b)) 10); lia. }
  constructor; unfold IEEE.HISTORY_SIZE.
  - exact Hall.
  - exact Hle'.
  - intros Hsome. rewrite Hmark in Hsome.
    destruct (Nat.leb_spec 10 (length (IEEE.percentHistory b'))) as [Hge|Hlt];
      [lia|].
    apply Hmf in Hsome. rewrite Hlen in Hlt.
    rewrite Hsome in Hlt. simpl in Hlt. lia.
  - intros Hfull Havg. rewrite Hmark.
    destruct (Nat.leb_spec 10 (length (IEEE.percentHistory b'))) as [_|Hlt];
      [|lia].
    destruct Havg as [a Ha]. rewrite Ha. apply ieee_ratchet_is_Some.
  - intros hw cur Hhw Hcur. rewrite Hmark in Hhw.
    destruct (Nat.leb_spec 10 (length (IEEE.percentHistory b'))) as [_|Hlt].
    + rewrite Hcur in Hhw. apply (ieee_ratchet_above _ _ _ Hhw).
    + assert (Hsome : is_Some (IEEE.maxAvgPercent b)) by eauto.
      apply Hmf in Hsome. rewrite Hlen in Hlt.
      rewrite Hsome in Hlt. simpl in Hlt. lia.
Qed.

Lemma ieee_updateBottle_invariant (b : IEEE.Bottle) (p : float) :
  IEEE.bottleInvariant b -> IEEE.bottleInvariant (IEEE.updateBottle b p).
Proof.
  intros Hb. destruct (is_nan p) eqn:Hp.
  - rewrite ieee_updateBottle_invalid by exact Hp.
    apply ieee_ingestInvalid_invariant. exact Hb.
  - rewrite ieee_updateBottle_valid by exact Hp.
    apply ieee_ingestValid_invariant; assumption.
Qed.

Lemma ieee_ingest_lookup (m : gmap string IEEE.Bottle) (color : string)
    (p : float) :
  IEEE.ingest m color p !! color
  = Some (match m !! color with
          | None => IEEE.newBottle p
          | Some bottle => IEEE.updateBottle bottle p
          end).
Proof.
  unfold IEEE.ingest. destruct (m !! color); apply lookup_insert_eq.
Qed.

Lemma ieee_ingest_lookup_ne (m : gmap string IEEE.Bottle)
    (color other : string) (p : float) :
  other <> color -> IEEE.ingest m color p !! other = m !! other.
Proof.
  intros Hne. unfold IEEE.ingest.
  destruct (m !! color); apply lookup_insert_ne; congruence.
Qed.

Lemma ieee_reachable_invariant (m : gmap string IEEE.Bottle) :
  IEEE.reachable m ->
  forall color b, m !! color = Some b -> IEEE.bottleInvariant b.
Proof.
  induction 1 as [|m c p Hm IH]; intros color b Hlook.
  - rewrite lookup_empty in Hlook. discriminate.
  - destruct (decide (color = c)) as [->|Hne].
    + rewrite ieee_ingest_lookup in Hlook. injection Hlook as <-.
      destruct (m !! c) as [b0|] eqn:E.
      * apply ieee_updateBottle_invariant. apply (IH c). exact E.
      * apply ieee_newBottle_invariant.
    + rewrite ieee_ingest_lookup_ne in Hlook by exact Hne.
      apply (IH color). exact Hlook.
Qed.

Lemma ieee_reachable_ingestAll (m : gmap string IEEE.Bottle) (color : string)
    (readings : list float) :
  IEEE.reachable m -> IEEE.reachable (IEEE.ingestAll m color readings).
Proof.
  revert m. induction readings as [|p readings IH]; intros m Hm; [exact Hm|].
  simpl. apply IH. constructor. exact Hm.
Qed.

End IEEEBottle.

(** ** Runs and rows *)

Section IEEERuns.

Import PrimFloat.

Lemma ieee_ingestAll_lookup (m : gmap string IEEE.Bottle) (color : string)
    (b : IEEE.Bottle) (readings : list float) :
  m !! color = Some b ->
  IEEE.ingestAll m color readings !! color
  = Some (fold_left IEEE.updateBottle readings b).
Proof.
  revert m b. induction readings as [|p readings IH]; intros m b Hlook.
  - exact Hlook.
  - simpl. apply IH. rewrite ieee_ingest_lookup, Hlook. reflexivity.
Qed.

(** Numbers pushed on a history that has room for them. *)
Lemma ieee_short_run (readings : list float) (b : IEEE.Bottle) :
  Forall (fun v => is_nan v = false) readings ->
  (length (IEEE.percentHistory b) + length readings <= 10)%nat ->
  IEEE.percentHistory (fold_left IEEE.updateBottle readings b)
  = IEEE.percentHistory b ++ readings.
Proof.
  revert b. induction readings as [|p readings IH]; intros b Hall Hlen.
  - simpl. rewrite app_nil_r. reflexivity.
  - inversion Hall as [|? ? Hp Hrest]; subst. simpl in Hlen |- *.
    rewrite ieee_updateBottle_valid by exact Hp.
    assert (Hb : IEEE.percentHistory (IEEE.ingestValid b p)
                 = IEEE.percentHistory b ++ [p]).
    { rewrite ieee_ingestValid_history by lia.
      destruct (Nat.eqb_spec (length (IEEE.percentHistory b)) 10); [lia|].
      reflexivity. }
    rewrite IH.
    + rewrite Hb, <- app_assoc. reflexivity.
    + exact Hrest.
    + rewrite Hb, length_app. simpl. lia.
Qed.

Lemma ieee_bottleRow_no_data (b : IEEE.Bottle) :
  IEEE.validNumbers (IEEE.percentHistory b) = [] ->
  IEEE.bottleRow b = Some (IEEE.mkRow None None None).
Proof. intros Hnil. unfold IEEE.bottleRow. rewrite Hnil. reflexivity. Qed.

Lemma ieee_bottleRow_data (b : IEEE.Bottle) :
  IEEE.validNumbers (IEEE.percentHistory b) <> [] ->
  IEEE.bottleRow b
  = match IEEE.average (IEEE.calculateFilteredAverage
                          (IEEE.validNumbers (IEEE.percentHistory b))) with
    | None => None
    | Some avgCurrentPercent =>
        match IEEE.maxAvgPercent b with
        | Some maxAvg =>
            Some (IEEE.mkRow (Some avgCurrentPercent)
                    (Some (IEEE.Math_max [0; maxAvg - avgCurrentPercent]))
                    (Some (IEEE.Math_max [0; maxAvg - avgCurrentPercent]
                           / 100 * IEEE.capacity b)))%float
        | None => Some (IEEE.mkRow (Some avgCurrentPercent) None None)
        end
    end.
Proof.
  intros Hne. unfold IEEE.bottleRow. cbv zeta.
  destruct (IEEE.validNumbers (IEEE.percentHistory b)) as [|y ys];
    [contradiction|].
  reflexivity.
Qed.

(** The row is not produced exactly when the readings give no average. *)
Lemma ieee_bottleRow_raises (b : IEEE.Bottle) :
  IEEE.bottleRow b = None
  <-> IEEE.validNumbers (IEEE.percentHistory b) <> [] /\
      IEEE.average (IEEE.calculateFilteredAverage
                      (IEEE.validNumbers (IEEE.percentHistory b))) = None.
Proof.
  destruct (decide (IEEE.validNumbers (IEEE.percentHistory b) = []))
    as [Hnil|Hne].
  - rewrite ieee_bottleRow_no_data by exact Hnil. split; [discriminate|].
    intros [Hne _]. contradiction.
  - rewrite ieee_bottleRow_data by exact Hne.
    destruct (IEEE.average _) as [a|].
    + split; [|intros [_ [=]]].
      destruct (IEEE.maxAvgPercent b); discriminate.
    + split; [intros _; split; [exact Hne|reflexivity]|reflexivity].
Qed.

(** What a produced row holds. *)
Lemma ieee_bottleRow_cells (b : IEEE.Bottle) (row : IEEE.Row) :
  IEEE.bottleRow b = Some row ->
  IEEE.currentAverage row
  = IEEE.average (IEEE.calculateFilteredAverage
                    (IEEE.validNumbers (IEEE.percentHistory b))) /\
  match IEEE.currentAverage row, IEEE.maxAvgPercent b with
  | Some cur, Some hw =>
      IEEE.consumedPercent row = Some (IEEE.Math_max [0; hw - cur])%float /\
      IEEE.consumedLiters row
      = Some (IEEE.Math_max [0; hw - cur] / 100 * IEEE.capacity b)%float
  | _, _ => IEEE.consumedPercent row = None /\ IEEE.consumedLiters row = None
  end.
Proof.
  destruct (decide (IEEE.validNumbers (IEEE.percentHistory b) = []))
    as [Hnil|Hne].
  - rewrite ieee_bottleRow_no_data by exact Hnil. intros [= <-].
    rewrite Hnil. simpl. auto.
  - rewrite ieee_bottleRow_data by exact Hne.
    destruct (IEEE.average _) as [a|]; [|discriminate].
    destruct (IEEE.maxAvgPercent b) as [hw|]; intros [= <-]; simpl; auto.
Qed.

End IEEERuns.

(** * Where doubles leave exact arithmetic *)

(** Three readings of 0.1: their average in doubles is
    0.10000000000000002, above every sample. *)
Lemma rounded_average_leaves_bounds :
  exists a,
    IEEE.average (IEEE.calculateFilteredAverage (replicate 3 IEEE.tenth))
    = Some a /\
    PrimFloat.ltb IEEE.tenth a = true.
Proof. eexists. split; vm_compute; reflexivity. Qed.

(** Ten readings of 0.1 have the average 0.09999999999999999 in doubles;
    ten readings of [0.1 * 2^-700], whose mean is rounded the same way and
    whose squared deviations underflow to 0, are all removed and have no
    average. *)
Lemma rounded_average_of_equal_samples :
  (exists a,
     IEEE.average (IEEE.calculateFilteredAverage (replicate 10 IEEE.tenth))
     = Some a /\
     PrimFloat.ltb a IEEE.tenth = true) /\
  IEEE.calculateFilteredAverage
    (replicate 10 (PrimFloat.mul IEEE.tenth IEEE.tiny))
  = IEEE.mkFilteredResult None [] 10.
Proof.
  split; [eexists; split; vm_compute; reflexivity|].
  vm_compute. reflexivity.
Qed.

(** Nine readings of 0 and one of [2^-700]: the squared deviations
    underflow, the threshold is 0, and all ten readings are removed. *)
Lemma rounded_glitch_removes_all :
  IEEE.calculateFilteredAverage
    (replicate 9 PrimFloat.zero ++ [IEEE.tiny])
  = IEEE.mkFilteredResult None [] 10.
Proof. vm_compute. reflexivity. Qed.

(** * The filtered average of whole percentages, in doubles *)

Section WholePercentages.

Lemma optionEqb_eq (a b : option PrimFloat.float) :
  IEEE.optionEqb a b = true -> a = b.
Proof.
  destruct a as [x|], b as [y|]; simpl; try discriminate; [|reflexivity].
  intros H. apply FloatAxioms.Leibniz.eqb_spec in H. congruence.
Qed.

Lemma listEqb_eq (a b : list PrimFloat.float) :
  IEEE.listEqb a b = true -> a = b.
Proof.
  revert b. induction a as [|x a IH]; intros [|y b]; simpl;
    try discriminate; [reflexivity|].
  intros H. apply andb_prop in H. destruct H as [Hxy Hab].
  apply FloatAxioms.Leibniz.eqb_spec in Hxy. apply IH in Hab. congruence.
Qed.

Lemma resultEqb_eq (a b : IEEE.FilteredResult) :
  IEEE.resultEqb a b = true -> a = b.
Proof.
  unfold IEEE.resultEqb. intros H.
  apply andb_prop in H. destruct H as [H Hn].
  apply andb_prop in H. destruct H as [Ha Hl].
  apply optionEqb_eq in Ha. apply listEqb_eq in Hl.
  apply Nat.eqb_eq in Hn.
  destruct a, b. simpl in *. congruence.
Qed.

Lemma percentages_in (v : Z) :
  (0 <= v <= 100)%Z -> In v IEEE.percentages.
Proof.
  intros Hv. unfold IEEE.percentages. apply in_map_iff.
  exists (Z.to_nat v). split; [lia|]. apply in_seq. lia.
Qed.

Lemma forallb_In {A : Type} (f : A -> bool) (l : list A) (x : A) :
  forallb f l = true -> In x l -> f x = true.
Proof. intros H. rewrite forallb_forall in H. apply H. Qed.

(** Every number of samples from 1 to 10 and every whole percentage. *)
Lemma constant_checked :
  forallb (fun n => forallb (IEEE.constantOk n) IEEE.percentages) (seq 1 10)
  = true.
Proof. vm_compute. reflexivity. Qed.

(** Every two whole percentages that differ and every position. *)
Lemma glitch_checked :
  forallb (fun v =>
    forallb (fun w => Z.eqb w v || forallb (IEEE.glitchOk v w) (seq 0 10))
      IEEE.percentages)
    IEEE.percentages
  = true.
Proof. vm_compute. reflexivity. Qed.

End WholePercentages.

Section WholePercentageBounds.

Import PrimFloat.

Lemma add_checked :
  forallb (fun acc => forallb (IEEE.addOk acc) IEEE.percentages) IEEE.sums
  = true.
Proof. vm_compute. reflexivity. Qed.

Lemma quotient_checked :
  forallb (fun k =>
    forallb (fun s => forallb (IEEE.quotientOk k s) IEEE.percentages)
      IEEE.sums)
    IEEE.counts
  = true.
Proof. vm_compute. reflexivity. Qed.

Lemma sums_in (s : Z) : (0 <= s <= 1000)%Z -> In s IEEE.sums.
Proof.
  intros Hs. unfold IEEE.sums. apply in_map_iff.
  exists (Z.to_nat s). split; [lia|]. apply in_seq. lia.
Qed.

Lemma counts_in (k : Z) : (1 <= k <= 10)%Z -> In k IEEE.counts.
Proof.
  intros Hk. unfold IEEE.counts. apply in_map_iff.
  exists (Z.to_nat k). split; [lia|]. apply in_seq. lia.
Qed.

Lemma ofZ_add (acc v : Z) :
  (0 <= acc <= 1000)%Z -> (0 <= v <= 100)%Z ->
  (IEEE.ofZ acc + IEEE.ofZ v)%float = IEEE.ofZ (acc + v).
Proof.
  intros Hacc Hv. apply FloatAxioms.Leibniz.eqb_spec.
  pose proof (forallb_In _ _ acc add_checked (sums_in acc Hacc)) as Hrow.
  cbv beta in Hrow.
  exact (forallb_In _ _ v Hrow (percentages_in v Hv)).
Qed.

Lemma sumZ_bounds (zs : list Z) (lo hi : Z) :
  Forall (fun v => (lo <= v <= hi)%Z) zs ->
  (Z.of_nat (length zs) * lo <= IEEE.sumZ zs <= Z.of_nat (length zs) * hi)%Z.
Proof.
  induction 1 as [|v zs Hv _ IH]; [simpl; lia|].
  cbn [length IEEE.sumZ fold_right].
  fold (IEEE.sumZ zs). lia.
Qed.

(** The sum of at most ten whole percentages, added from the left in
    doubles, is their sum. *)
Lemma sumFrom_whole (zs : list Z) (acc : Z) :
  Forall (fun v => (0 <= v <= 100)%Z) zs ->
  (0 <= acc)%Z ->
  (acc + 100 * Z.of_nat (length zs) <= 1000)%Z ->
  IEEE.sumFrom (IEEE.ofZ acc) (map IEEE.ofZ zs) = IEEE.ofZ (acc + IEEE.sumZ zs).
Proof.
  intros Hall. revert acc.
  induction Hall as [|v zs Hv _ IH]; intros acc Hacc Hroom.
  - simpl. rewrite Z.add_0_r. reflexivity.
  - cbn [map IEEE.sumFrom length IEEE.sumZ fold_right] in *.
    fold (IEEE.sumZ zs).
    rewrite ofZ_add by lia.
    rewrite IH by lia. f_equal. lia.
Qed.

Lemma mean_whole (zs : list Z) :
  Forall (fun v => (0 <= v <= 100)%Z) zs ->
  (length zs <= 10)%nat ->
  IEEE.mean (map IEEE.ofZ zs)
  = (IEEE.ofZ (IEEE.sumZ zs) / IEEE.ofZ (Z.of_nat (length zs)))%float.
Proof.
  intros Hall Hlen. unfold IEEE.mean, IEEE.lengthNumber.
  rewrite length_map.
  change 0%float with (IEEE.ofZ 0).
  rewrite sumFrom_whole by (try assumption; lia).
  reflexivity.
Qed.

Lemma mean_whole_bounds (zs : list Z) (lo hi : Z) :
  zs <> [] ->
  (length zs <= 10)%nat ->
  (0 <= lo)%Z -> (hi <= 100)%Z ->
  Forall (fun v => (lo <= v <= hi)%Z) zs ->
  (IEEE.ofZ lo <=? IEEE.mean (map IEEE.ofZ zs))%float = true /\
  (IEEE.mean (map IEEE.ofZ zs) <=? IEEE.ofZ hi)%float = true.
Proof.
  intros Hne Hlen Hlo Hhi Hall.
  assert (Hlohi : (lo <= hi)%Z).
  { destruct zs as [|v zs]; [contradiction|].
    inversion Hall; subst. lia. }
  assert (Hrange : Forall (fun v => (0 <= v <= 100)%Z) zs).
  { eapply Forall_impl; [exact Hall|]. simpl. intros v Hv. lia. }
  rewrite mean_whole by assumption.
  pose proof (sumZ_bounds zs lo hi Hall) as Hsum.
  set (k := Z.of_nat (length zs)) in *.
  set (s := IEEE.sumZ zs) in *.
  assert (Hk : (1 <= k <= 10)%Z).
  { subst k. destruct zs; [contradiction|]. simpl length in *. lia. }
  assert (Hs : (0 <= s <= 1000)%Z) by nia.
  pose proof (forallb_In _ _ k quotient_checked (counts_in k Hk)) as H1.
  cbv beta in H1.
  pose proof (forallb_In _ _ s H1 (sums_in s Hs)) as H2.
  split.
  - pose proof (forallb_In _ _ lo H2 (percentages_in lo ltac:(lia))) as H3.
    unfold IEEE.quotientOk in H3.
    apply andb_prop in H3. destruct H3 as [H3 _].
    destruct (Z.leb_spec (k * lo) s) as [_|Hc]; [|lia].
    exact H3.
  - pose proof (forallb_In _ _ hi H2 (percentages_in hi ltac:(lia))) as H3.
    unfold IEEE.quotientOk in H3.
    apply andb_prop in H3. destruct H3 as [_ H3].
    destruct (Z.leb_spec s (k * hi)) as [_|Hc]; [|lia].
    exact H3.
Qed.

Lemma filter_map_ofZ (P : float -> Prop) `{!forall v, Decision (P v)}
    (zs : list Z) :
  filter P (map IEEE.ofZ zs)
  = map IEEE.ofZ (filter (fun z => P (IEEE.ofZ z)) zs).
Proof.
  induction zs as [|z zs IH]; [reflexivity|].
  cbn [map]. rewrite !filter_cons.
  destruct (decide (P (IEEE.ofZ z))); cbn [map]; rewrite IH; reflexivity.
Qed.

End WholePercentageBounds.

(** X2. For at most ten samples that are whole percentages, all between
    two whole percentages [lo] and [hi] from 0 to 100, an average that the
    routine returns, in doubles, lies between [lo] and [hi]: for readings
    in 0..100 the average shown is in 0..100.  (Not so for every Number:
    see [rounded_average_leaves_bounds].) *)
Theorem ieee_average_between_bounds (samples : list Z) (lo hi : Z)
    (a : PrimFloat.float) :
  (length samples <= 10)%nat ->
  (0 <= lo)%Z ->
  (hi <= 100)%Z ->
  Forall (fun v => (lo <= v <= hi)%Z) samples ->
  IEEE.average (IEEE.calculateFilteredAverage (map IEEE.ofZ samples)) = Some a ->
  PrimFloat.leb (IEEE.ofZ lo) a = true /\ PrimFloat.leb a (IEEE.ofZ hi) = true.
Proof.
  intros Hlen Hlo Hhi Hall.
  rewrite ieee_calculateFilteredAverage_contract. unfold IEEE.contract.
  rewrite length_map.
  destruct (decide (length samples = 0%nat)) as [H0|H0]; [discriminate|].
  destruct (decide (length samples < 10)%nat) as [Hlt|Hge]; cbn [IEEE.average].
  - intros [= <-]. apply mean_whole_bounds; try assumption.
    intros ->. simpl in H0. congruence.
  - destruct (decide (IEEE.retained (map IEEE.ofZ samples) = []))
      as [Hnil|Hne]; [discriminate|].
    intros [= <-]. unfold IEEE.retained in *.
    rewrite filter_map_ofZ in Hne |- *.
    set (P := fun z => IEEE.within (map IEEE.ofZ samples) (IEEE.ofZ z)) in *.
    apply mean_whole_bounds; try assumption.
    + intros Hnil. rewrite Hnil in Hne. apply Hne. reflexivity.
    + pose proof (length_filter P samples). lia.
    + apply Forall_forall. intros z Hz.
      apply list_elem_of_filter in Hz. destruct Hz as [_ Hz].
      rewrite Forall_forall in Hall. apply Hall. exact Hz.
Qed.

Lemma ieee_average_between_bounds_witness :
  PrimFloat.leb (IEEE.ofZ 70) (IEEE.ofZ 70) = true /\
  PrimFloat.leb (IEEE.ofZ 70) (IEEE.ofZ 73) = true.
Proof.
  apply (ieee_average_between_bounds IEEE.knife 70 73 (IEEE.ofZ 70)).
  - simpl. lia.
  - lia.
  - lia.
  - unfold IEEE.knife. repeat (apply Forall_cons; split; [lia|]).
    apply Forall_nil. exact I.
  - vm_compute. reflexivity.
Defined.

(** X3. One to ten samples that are all the same whole percentage, from 0
    to 100: the routine, in doubles, returns that percentage as the
    average, keeps every sample and removes none.  (Not so for every
    Number: see [rounded_average_of_equal_samples].) *)
Theorem ieee_constant_samples_average (n : nat) (v : Z) :
  (1 <= n <= 10)%nat ->
  (0 <= v <= 100)%Z ->
  IEEE.calculateFilteredAverage (replicate n (IEEE.ofZ v))
  = IEEE.mkFilteredResult (Some (IEEE.ofZ v)) (replicate n (IEEE.ofZ v)) 0.
Proof.
  intros Hn Hv. apply resultEqb_eq.
  assert (Hin : In n (seq 1 10)) by (apply in_seq; lia).
  pose proof (forallb_In _ _ n constant_checked Hin) as Hrow.
  cbv beta in Hrow.
  exact (forallb_In _ _ v Hrow (percentages_in v Hv)).
Qed.

Lemma ieee_constant_samples_average_witness :
  IEEE.calculateFilteredAverage (replicate 10 (IEEE.ofZ 50))
  = IEEE.mkFilteredResult (Some (IEEE.ofZ 50)) (replicate 10 (IEEE.ofZ 50)) 0.
Proof. apply (ieee_constant_samples_average 10 50); lia. Defined.

(** X4. Ten samples of which nine are the same whole percentage and one,
    at any position, is another whole percentage, both from 0 to 100: the
    routine, in doubles, removes exactly the other one and returns the
    common percentage.  (Not so for every Number: see
    [rounded_glitch_removes_all].) *)
Theorem ieee_single_glitch_removed (v w : Z) (i : nat) :
  (0 <= v <= 100)%Z ->
  (0 <= w <= 100)%Z ->
  w <> v ->
  (i <= 9)%nat ->
  IEEE.calculateFilteredAverage (IEEE.glitched (IEEE.ofZ v) (IEEE.ofZ w) i)
  = IEEE.mkFilteredResult (Some (IEEE.ofZ v)) (replicate 9 (IEEE.ofZ v)) 1.
Proof.
  intros Hv Hw Hne Hi. apply resultEqb_eq.
  pose proof (forallb_In _ _ v glitch_checked (percentages_in v Hv)) as H1.
  cbv beta in H1.
  pose proof (forallb_In _ _ w H1 (percentages_in w Hw)) as H2.
  cbv beta in H2.
  destruct (orb_prop _ _ H2) as [Heq|H3].
  - apply Z.eqb_eq in Heq. contradiction.
  - assert (Hin : In i (seq 0 10)) by (apply in_seq; lia).
    exact (forallb_In _ _ i H3 Hin).
Qed.

Lemma ieee_single_glitch_removed_witness :
  IEEE.calculateFilteredAverage
    (IEEE.glitched (IEEE.ofZ 80) (IEEE.ofZ 20) 3)
  = IEEE.mkFilteredResult (Some (IEEE.ofZ 80)) (replicate 9 (IEEE.ofZ 80)) 1.
Proof. apply (ieee_single_glitch_removed 80 20 3); lia. Defined.

(** * The claims that depend on the arithmetic of doubles *)

Section KnifeEdge.

Lemma knife_mean : SpecWords.mean (map IZR IEEE.knife) = 706 / 10.
Proof. unfold SpecWords.mean, SpecWords.sum, IEEE.knife. simpl. lra. Qed.

Lemma knife_sigma : SpecWords.sigma (map IZR IEEE.knife) = 12 / 10.
Proof.
  unfold SpecWords.sigma. rewrite knife_mean.
  rewrite <- (sqrt_square (12 / 10)) by lra. f_equal.
  unfold SpecWords.sum, IEEE.knife. simpl. lra.
Qed.

Lemma knife_within :
  Forall (SpecWords.within (map IZR IEEE.knife)) (map IZR IEEE.knife).
Proof.
  unfold SpecWords.within. rewrite knife_mean, knife_sigma.
  unfold IEEE.knife. simpl.
  repeat (apply Forall_cons; split; [apply Rabs_le; lra|]).
  apply Forall_nil. exact I.
Qed.

Lemma knife_contract :
  SpecWords.filteredAverage (map IZR IEEE.knife)
  = mkFilteredResult (Some (706 / 10)) (map IZR IEEE.knife) 0.
Proof.
  unfold SpecWords.filteredAverage.
  rewrite decide_False by (simpl; lia).
  rewrite decide_False by (simpl; lia).
  unfold SpecWords.retained, SpecWords.discarded.
  rewrite (filter_keeps_all _ _ knife_within).
  rewrite (filter_drops_all _ _ knife_within).
  rewrite knife_mean. reflexivity.
Qed.

End KnifeEdge.

(** C1 (counterexample).  Eight readings of 70 and two of 73.  By the
    contract as the claim words it, with the real mean 70.6 and the real
    standard deviation 1.2, both readings of 73 lie on the threshold
    (|73 - 70.6| = 2.4 = 2 * 1.2) and are retained: average 70.6, nothing
    removed.  The code, in doubles, gets the mean 70.599999999999994, finds
    73 outside the threshold, removes two samples and returns 70. *)
Lemma knife_edge_removes_two :
  IEEE.calculateFilteredAverage (map IEEE.ofZ IEEE.knife)
  = IEEE.mkFilteredResult (Some (IEEE.ofZ 70)) (replicate 8 (IEEE.ofZ 70)) 2 /\
  SpecWords.filteredAverage (map IZR IEEE.knife)
  = mkFilteredResult (Some (706 / 10)) (map IZR IEEE.knife) 0 /\
  IEEE.removedCount (IEEE.calculateFilteredAverage (map IEEE.ofZ IEEE.knife))
  <> removedCount (SpecWords.filteredAverage (map IZR IEEE.knife)).
Proof.
  split; [vm_compute; reflexivity|].
  split; [exact knife_contract|].
  rewrite knife_contract. vm_compute. discriminate.
Qed.

(** C1 (amended).  In the arithmetic of the code the routine follows the
    contract on every list of samples: no average, nothing retained and
    nothing removed for no sample; the mean of all samples, none removed,
    for fewer than ten; from ten samples on, the mean of exactly the
    samples [v] for which [|v - mu| <= 2 * sigma] holds, no average when
    none is retained, and as many removed as are discarded.  The mean is
    the sum added from the left over the count, [sigma] the square root of
    the mean squared deviation, and every operation rounds to a double. *)
Theorem ieee_filtered_average_contract (samples : list PrimFloat.float) :
  IEEE.calculateFilteredAverage samples = IEEE.contract samples.
Proof. apply ieee_calculateFilteredAverage_contract. Qed.

(** C3 (the code on the failing input).  Ten readings of 50 for one colour,
    then the reading [Infinity] (the JSON number [1e999]).  [Infinity] is
    not [NaN], so the reading goes down the branch of valid readings and
    is pushed: the history then holds nine finite readings and [Infinity],
    and the high-water average is still 50. *)
Theorem infinity_reading_keeps_highWater :
  exists m b,
    IEEE.processItems ∅
      (replicate 10 (IEEE.reading "red" (IEEE.RawNumber IEEE.fifty))
       ++ [IEEE.reading "red" (IEEE.RawNumber PrimFloat.infinity)])
    = IEEE.Done m /\
    m !! "red"%string = Some b /\
    IEEE.percentHistory b = replicate 9 IEEE.fifty ++ [PrimFloat.infinity] /\
    length (List.filter IEEE.isFinite (IEEE.percentHistory b)) = 9%nat /\
    IEEE.maxAvgPercent b = Some IEEE.fifty.
Proof.
  eexists. eexists. split; [reflexivity|].
  split; [vm_compute; reflexivity|].
  split; [reflexivity|]. split; reflexivity.
Qed.

(** C7 (the code on the failing input).  A colour read at 5, then a record
    of that colour whose [fill_level_percent] is [null].  [Number(null)] is
    [0], which is not [NaN]: the reading without a level is not eroded but
    appended to the history as the number 0. *)
Theorem null_reading_is_appended :
  exists m b,
    IEEE.processItems ∅
      [IEEE.reading "red" (IEEE.RawNumber IEEE.five);
       IEEE.reading "red" IEEE.RawNull]
    = IEEE.Done m /\
    m !! "red"%string = Some b /\
    IEEE.percentHistory b = [IEEE.five; PrimFloat.zero].
Proof.
  eexists. eexists. split; [reflexivity|].
  split; [vm_compute; reflexivity|]. reflexivity.
Qed.

(** C10 (the code on the failing input).  Ten readings of 50 for one colour,
    then a record of that colour whose [fill_level_percent] is [null].  The
    reading is taken as the number 0: the history stays full, with 0 as its
    newest entry, and the high-water average stays 50. *)
Theorem null_reading_keeps_highWater :
  exists m b,
    IEEE.processItems ∅
      (replicate 10 (IEEE.reading "red" (IEEE.RawNumber IEEE.fifty))
       ++ [IEEE.reading "red" IEEE.RawNull])
    = IEEE.Done m /\
    m !! "red"%string = Some b /\
    IEEE.percentHistory b = replicate 9 IEEE.fifty ++ [PrimFloat.zero] /\
    IEEE.maxAvgPercent b = Some IEEE.fifty.
Proof.
  eexists. eexists. split; [reflexivity|].
  split; [vm_compute; reflexivity|].
  split; reflexivity.
Qed.

(** C4 (counterexample).  Ten readings of 1e308 for one colour.  Their sum
    overflows: the filtered average and the high-water average are both
    [Infinity], their difference is [NaN], and the row shows a consumed
    percentage and a consumed quantity that are [NaN], not a number that is
    at least 0. *)
Lemma huge_readings_show_nan :
  exists b row cp,
    IEEE.ingestAll ∅ "red" (replicate 10 IEEE.huge) !! "red"%string = Some b /\
    IEEE.maxAvgPercent b = Some PrimFloat.infinity /\
    IEEE.bottleRow b = Some row /\
    IEEE.currentAverage row = Some PrimFloat.infinity /\
    IEEE.consumedPercent row = Some cp /\
    PrimFloat.is_nan cp = true /\
    PrimFloat.leb PrimFloat.zero cp = false.
Proof.
  eexists. eexists. eexists.
  split; [vm_compute; reflexivity|].
  split; [reflexivity|].
  split; [vm_compute; reflexivity|].
  split; [reflexivity|].
  split; [reflexivity|].
  split; vm_compute; reflexivity.
Qed.

(** C4 (amended).  The row of a bottle is not produced (line 476 raises)
    exactly when the bottle has readings and they give no average.  In
    every row that is produced, the consumed percentage and the consumed
    quantity are defined exactly when the current average is known and the
    high-water average is set; then the consumed percentage is
    [Math.max(0, highWater - current)], which is at least 0 unless the
    difference is [NaN], and the consumed quantity is the consumed
    percentage / 100 * capacity. *)
Theorem ieee_consumption_cells (bottle : IEEE.Bottle) :
  (IEEE.bottleRow bottle = None
   <-> IEEE.validNumbers (IEEE.percentHistory bottle) <> [] /\
       IEEE.average (IEEE.calculateFilteredAverage
                       (IEEE.validNumbers (IEEE.percentHistory bottle)))
       = None) /\
  forall row, IEEE.bottleRow bottle = Some row ->
    let known :=
      is_Some (IEEE.currentAverage row) /\
      is_Some (IEEE.maxAvgPercent bottle) in
    (is_Some (IEEE.consumedPercent row) <-> known) /\
    (is_Some (IEEE.consumedLiters row) <-> known) /\
    forall cp, IEEE.consumedPercent row = Some cp ->
      exists hw cur,
        IEEE.maxAvgPercent bottle = Some hw /\
        IEEE.currentAverage row = Some cur /\
        cp = IEEE.Math_max [PrimFloat.zero; PrimFloat.sub hw cur] /\
        (PrimFloat.is_nan (PrimFloat.sub hw cur) = false ->
         PrimFloat.leb PrimFloat.zero cp = true) /\
        IEEE.consumedLiters row
        = Some (PrimFloat.mul (PrimFloat.div cp (IEEE.ofZ 100))
                              (IEEE.capacity bottle)).
Proof.
  split; [apply ieee_bottleRow_raises|].
  intros row Hrow. cbv zeta.
  destruct (ieee_bottleRow_cells bottle row Hrow) as [_ Hcells].
  destruct (IEEE.currentAverage row) as [cur|];
    [destruct (IEEE.maxAvgPercent bottle) as [hw|]|];
    destruct Hcells as [Hcp Hl]; rewrite Hcp, Hl.
  - split; [split; eauto|]. split; [split; eauto|].
    intros cp [= <-]. exists hw, cur.
    split; [reflexivity|]. split; [reflexivity|]. split; [reflexivity|].
    split; [apply Math_max_zero_nonneg|reflexivity].
  - split; [split; [intros [? [=]]|intros [_ [? [=]]]]|].
    split; [split; [intros [? [=]]|intros [_ [? [=]]]]|].
    intros cp [=].
  - split; [split; [intros [? [=]]|intros [[? [=]] _]]|].
    split; [split; [intros [? [=]]|intros [[? [=]] _]]|].
    intros cp [=].
Qed.

Lemma ieee_consumption_cells_witness :
  exists hw cur,
    Some IEEE.fifty = Some hw /\
    Some (IEEE.ofZ 46) = Some cur /\
    IEEE.ofZ 4 = IEEE.Math_max [PrimFloat.zero; PrimFloat.sub hw cur] /\
    (PrimFloat.is_nan (PrimFloat.sub hw cur) = false ->
     PrimFloat.leb PrimFloat.zero (IEEE.ofZ 4) = true) /\
    Some (PrimFloat.mul (PrimFloat.div (IEEE.ofZ 4) (IEEE.ofZ 100))
                        (IEEE.ofZ 1))
    = Some (PrimFloat.mul (PrimFloat.div (IEEE.ofZ 4) (IEEE.ofZ 100))
                          (IEEE.ofZ 1)).
Proof.
  destruct (ieee_consumption_cells
              (IEEE.mkBottle (replicate 10 (IEEE.ofZ 46)) (Some IEEE.fifty)
                 (Some IEEE.fifty) (IEEE.ofZ 1))) as [_ Hrow].
  destruct (Hrow (IEEE.mkRow (Some (IEEE.ofZ 46)) (Some (IEEE.ofZ 4))
                    (Some (PrimFloat.mul
                             (PrimFloat.div (IEEE.ofZ 4) (IEEE.ofZ 100))
                             (IEEE.ofZ 1))))
                 eq_refl) as (_ & _ & Hcp).
  exact (Hcp (IEEE.ofZ 4) eq_refl).
Defined.

(** * Reachable bottles, over doubles *)

(** X6. In a reachable registry a bottle with a high-water average has a
    history of ten readings; a bottle with ten readings whose filtered
    average exists has a high-water average; and a row that is produced
    shows a consumed percentage exactly when the history holds ten
    readings. *)
Theorem ieee_highWater_needs_full_history (m : gmap string IEEE.Bottle)
    (color : string) (b : IEEE.Bottle) :
  IEEE.reachable m ->
  m !! color = Some b ->
  (is_Some (IEEE.maxAvgPercent b) ->
   length (IEEE.percentHistory b) = IEEE.HISTORY_SIZE) /\
  (length (IEEE.percentHistory b) = IEEE.HISTORY_SIZE ->
   is_Some (IEEE.average (IEEE.calculateFilteredAverage (IEEE.percentHistory b))) ->
   is_Some (IEEE.maxAvgPercent b)) /\
  forall row, IEEE.bottleRow b = Some row ->
    (is_Some (IEEE.consumedPercent row)
     <-> length (IEEE.percentHistory b) = IEEE.HISTORY_SIZE).
Proof.
  intros Hm Hlook.
  destruct (ieee_reachable_invariant m Hm color b Hlook)
    as [Hnum Hbound Hmf Hfm Habove].
  split; [exact Hmf|]. split; [exact Hfm|].
  intros row Hrow.
  destruct (ieee_bottleRow_cells b row Hrow) as [Hcur Hcells].
  rewrite (ieee_validNumbers_id _ Hnum) in Hcur.
  split.
  - intros [cp Hcp]. apply Hmf.
    destruct (IEEE.currentAverage row);
      [destruct (IEEE.maxAvgPercent b); [eauto|]|];
      destruct Hcells as [Hc _]; congruence.
  - intros Hfull.
    assert (Hne : IEEE.validNumbers (IEEE.percentHistory b) <> []).
    { rewrite (ieee_validNumbers_id _ Hnum). intros Hnil.
      rewrite Hnil in Hfull. discriminate. }
    destruct (IEEE.currentAverage row) as [cur|] eqn:Ecur.
    + assert (Hmark : is_Some (IEEE.maxAvgPercent b)).
      { apply Hfm; [exact Hfull|]. rewrite <- Hcur. eauto. }
      destruct Hmark as [hw Hhw]. rewrite Hhw in Hcells.
      destruct Hcells as [Hc _]. rewrite Hc. eauto.
    + exfalso.
      assert (Hnone : IEEE.bottleRow b = None).
      { apply ieee_bottleRow_raises. split; [exact Hne|].
        rewrite (ieee_validNumbers_id _ Hnum). symmetry. exact Hcur. }
      congruence.
Qed.

Lemma ieee_highWater_needs_full_history_witness :
  (is_Some (IEEE.maxAvgPercent IEEE.fullOfFifty) ->
   length (IEEE.percentHistory IEEE.fullOfFifty) = IEEE.HISTORY_SIZE) /\
  (length (IEEE.percentHistory IEEE.fullOfFifty) = IEEE.HISTORY_SIZE ->
   is_Some (IEEE.average (IEEE.calculateFilteredAverage
                            (IEEE.percentHistory IEEE.fullOfFifty))) ->
   is_Some (IEEE.maxAvgPercent IEEE.fullOfFifty)) /\
  forall row, IEEE.bottleRow IEEE.fullOfFifty = Some row ->
    (is_Some (IEEE.consumedPercent row)
     <-> length (IEEE.percentHistory IEEE.fullOfFifty) = IEEE.HISTORY_SIZE).
Proof.
  apply (ieee_highWater_needs_full_history
           (IEEE.ingestAll ∅ "red" (replicate 10 IEEE.fifty)) "red"
           IEEE.fullOfFifty).
  - apply ieee_reachable_ingestAll. constructor.
  - vm_compute. reflexivity.
Defined.

(** X7. In a reachable registry the current average of a bottle with a
    high-water average is not above it: when the row is produced, the test
    [current > highWater] is false, and the row shows
    [Math.max(0, highWater - current)]. *)
Theorem ieee_current_average_not_above_highWater
    (m : gmap string IEEE.Bottle) (color : string) (b : IEEE.Bottle)
    (hw : PrimFloat.float) (row : IEEE.Row) :
  IEEE.reachable m ->
  m !! color = Some b ->
  IEEE.maxAvgPercent b = Some hw ->
  IEEE.bottleRow b = Some row ->
  exists cur,
    IEEE.currentAverage row = Some cur /\
    PrimFloat.ltb hw cur = false /\
    IEEE.consumedPercent row
    = Some (IEEE.Math_max [PrimFloat.zero; PrimFloat.sub hw cur]).
Proof.
  intros Hm Hlook Hhw Hrow.
  destruct (ieee_reachable_invariant m Hm color b Hlook)
    as [Hnum Hbound Hmf Hfm Habove].
  destruct (ieee_bottleRow_cells b row Hrow) as [Hcur Hcells].
  rewrite (ieee_validNumbers_id _ Hnum) in Hcur.
  rewrite Hhw in Hcells.
  destruct (IEEE.currentAverage row) as [cur|] eqn:Ecur.
  - exists cur. split; [reflexivity|]. split; [|apply Hcells].
    apply Habove; [exact Hhw|]. symmetry. exact Hcur.
  - exfalso.
    assert (Hfull : length (IEEE.percentHistory b) = IEEE.HISTORY_SIZE)
      by (apply Hmf; eauto).
    assert (Hnone : IEEE.bottleRow b = None).
    { apply ieee_bottleRow_raises.
      rewrite (ieee_validNumbers_id _ Hnum). split; [|symmetry; exact Hcur].
      intros Hnil. rewrite Hnil in Hfull. discriminate. }
    congruence.
Qed.

Lemma ieee_current_average_not_above_highWater_witness :
  exists cur,
    Some (IEEE.ofZ 46) = Some cur /\
    PrimFloat.ltb IEEE.fifty cur = false /\
    Some (IEEE.ofZ 4)
    = Some (IEEE.Math_max [PrimFloat.zero; PrimFloat.sub IEEE.fifty cur]).
Proof.
  apply (ieee_current_average_not_above_highWater
           (IEEE.ingestAll ∅ "red"
              (replicate 10 IEEE.fifty ++ replicate 10 (IEEE.ofZ 46)))
           "red"
           (IEEE.mkBottle (replicate 10 (IEEE.ofZ 46)) (Some IEEE.fifty)
              (Some IEEE.fifty) IEEE.BOTTLE_CAPACITY_LITERS)
           IEEE.fifty
           (IEEE.mkRow (Some (IEEE.ofZ 46)) (Some (IEEE.ofZ 4))
              (Some (PrimFloat.mul
                       (PrimFloat.div (IEEE.ofZ 4) (IEEE.ofZ 100))
                       IEEE.BOTTLE_CAPACITY_LITERS)))).
  - apply ieee_reachable_ingestAll. constructor.
  - vm_compute. reflexivity.
  - reflexivity.
  - vm_compute. reflexivity.
Defined.

(** X13. A reading that is [NaN] forgets the high-water average.  When a
    bottle with ten readings in a reachable registry gets a reading that
    is [NaN] and then a number, its history is the old one without its
    oldest entry, plus the number, and its high-water average is the
    filtered average of that history (unset when there is none), whatever
    it was before. *)
Theorem ieee_invalid_reading_forgets_highWater (m : gmap string IEEE.Bottle)
    (color : string) (b : IEEE.Bottle) (p x : PrimFloat.float) :
  IEEE.reachable m ->
  m !! color = Some b ->
  length (IEEE.percentHistory b) = IEEE.HISTORY_SIZE ->
  PrimFloat.is_nan p = true ->
  PrimFloat.is_nan x = false ->
  exists b',
    IEEE.ingest (IEEE.ingest m color p) color x !! color = Some b' /\
    IEEE.percentHistory b' = tail (IEEE.percentHistory b) ++ [x] /\
    IEEE.maxAvgPercent b'
    = IEEE.average (IEEE.calculateFilteredAverage (IEEE.percentHistory b')).
Proof.
  intros Hm Hlook Hfull Hp Hx.
  destruct (ieee_reachable_invariant m Hm color b Hlook)
    as [Hnum Hbound Hmf Hfm Habove].
  unfold IEEE.HISTORY_SIZE in *.
  eexists. split.
  { rewrite ieee_ingest_lookup, ieee_ingest_lookup, Hlook.
    rewrite (ieee_updateBottle_invalid b p Hp).
    rewrite (ieee_updateBottle_valid _ x Hx). reflexivity. }
  assert (Hinv : IEEE.bottleInvariant (IEEE.ingestInvalid b))
    by (apply ieee_ingestInvalid_invariant; constructor; assumption).
  assert (Hlen : length (tail (IEEE.percentHistory b)) = 9%nat).
  { destruct (IEEE.percentHistory b); simpl in *; lia. }
  assert (Hh : IEEE.percentHistory (IEEE.ingestValid (IEEE.ingestInvalid b) x)
               = tail (IEEE.percentHistory b) ++ [x]).
  { rewrite ieee_ingestValid_history
      by (rewrite ieee_ingestInvalid_history; lia).
    rewrite ieee_ingestInvalid_history, Hlen. reflexivity. }
  split; [exact Hh|].
  pose proof (ieee_ingestValid_invariant _ x Hx Hinv) as [Hnum' _ _ _ _].
  rewrite (ieee_ingestValid_mark _ x Hnum').
  rewrite (ieee_ingestInvalid_mark b Hbound).
  rewrite Hh, length_app, Hlen. simpl.
  destruct (IEEE.average
              (IEEE.calculateFilteredAverage
                 (tail (IEEE.percentHistory b) ++ [x]))); reflexivity.
Qed.

Lemma ieee_invalid_reading_forgets_highWater_witness :
  exists b',
    IEEE.ingest
      (IEEE.ingest (IEEE.ingestAll ∅ "red" (replicate 10 IEEE.fifty)) "red"
         PrimFloat.nan) "red" (IEEE.ofZ 20) !! "red"%string
    = Some b' /\
    IEEE.percentHistory b'
    = tail (IEEE.percentHistory IEEE.fullOfFifty) ++ [IEEE.ofZ 20] /\
    IEEE.maxAvgPercent b'
    = IEEE.average (IEEE.calculateFilteredAverage (IEEE.percentHistory b')).
Proof.
  apply (ieee_invalid_reading_forgets_highWater
           (IEEE.ingestAll ∅ "red" (replicate 10 IEEE.fifty)) "red"
           IEEE.fullOfFifty PrimFloat.nan (IEEE.ofZ 20)).
  - apply ieee_reachable_ingestAll. constructor.
  - vm_compute. reflexivity.
  - reflexivity.
  - reflexivity.
  - reflexivity.
Defined.

(** X28. A colour seen for the first time and read at most nine times in
    all, each reading a Number that is not [NaN], has exactly those
    readings as its history; its row shows their mean as the code computes
    it (the readings added from the left, each sum rounded, over their
    count) and no consumption. *)
Theorem ieee_few_readings_show_their_mean (color : string)
    (x : PrimFloat.float) (readings : list PrimFloat.float) :
  PrimFloat.is_nan x = false ->
  Forall (fun v => PrimFloat.is_nan v = false) readings ->
  (length readings < 9)%nat ->
  exists b,
    IEEE.ingestAll ∅ color (x :: readings) !! color = Some b /\
    IEEE.percentHistory b = x :: readings /\
    IEEE.bottleRow b
    = Some (IEEE.mkRow (Some (IEEE.mean (x :: readings))) None None).
Proof.
  intros Hx Hall Hlen.
  assert (Hnew : IEEE.newBottle x
                 = IEEE.mkBottle [x] (Some x) None IEEE.BOTTLE_CAPACITY_LITERS).
  { unfold IEEE.newBottle, IEEE.isValidPercent. rewrite Hx. reflexivity. }
  eexists. split.
  { simpl. apply ieee_ingestAll_lookup.
    rewrite ieee_ingest_lookup, lookup_empty. reflexivity. }
  set (b := fold_left IEEE.updateBottle readings (IEEE.newBottle x)).
  assert (Hh : IEEE.percentHistory b = x :: readings).
  { subst b. rewrite ieee_short_run; [rewrite Hnew; reflexivity|exact Hall|].
    rewrite Hnew. simpl. lia. }
  split; [exact Hh|].
  assert (Hreach : IEEE.reachable (IEEE.ingestAll ∅ color (x :: readings)))
    by (apply ieee_reachable_ingestAll; constructor).
  assert (Hlook : IEEE.ingestAll ∅ color (x :: readings) !! color = Some b).
  { simpl. apply ieee_ingestAll_lookup.
    rewrite ieee_ingest_lookup, lookup_empty. reflexivity. }
  destruct (ieee_reachable_invariant _ Hreach color b Hlook)
    as [Hnum Hbound Hmf Hfm Habove].
  assert (Hmark : IEEE.maxAvgPercent b = None).
  { destruct (IEEE.maxAvgPercent b) as [hw|] eqn:E; [|reflexivity].
    assert (Hs : is_Some (Some hw)) by eauto.
    apply Hmf in Hs. rewrite Hh in Hs. unfold IEEE.HISTORY_SIZE in Hs.
    simpl in Hs. lia. }
  rewrite ieee_bottleRow_data
    by (rewrite (ieee_validNumbers_id _ Hnum), Hh; discriminate).
  rewrite (ieee_validNumbers_id _ Hnum), Hmark, Hh.
  rewrite ieee_calculateFilteredAverage_contract. unfold IEEE.contract.
  rewrite decide_False by (simpl; lia).
  rewrite decide_True by (simpl; lia).
  reflexivity.
Qed.

Lemma ieee_few_readings_show_their_mean_witness :
  exists b,
    IEEE.ingestAll ∅ "red" [IEEE.ofZ 10; IEEE.ofZ 20; IEEE.ofZ 33] !! "red"%string
    = Some b /\
    IEEE.percentHistory b = [IEEE.ofZ 10; IEEE.ofZ 20; IEEE.ofZ 33] /\
    IEEE.bottleRow b
    = Some (IEEE.mkRow
              (Some (IEEE.mean [IEEE.ofZ 10; IEEE.ofZ 20; IEEE.ofZ 33]))
              None None).
Proof.
  apply (ieee_few_readings_show_their_mean "red" (IEEE.ofZ 10)
           [IEEE.ofZ 20; IEEE.ofZ 33]).
  - reflexivity.
  - repeat constructor.
  - simpl. lia.
Defined.
